(** * RandomFS: the randomized block storage engine, embedded in Rocq

    The development follows the Go sources:
    - [randomfs-core/randomfs.go]: block cache, block generation and
      de-randomization, StoreFile / RetrieveFile, rd:// URL parsing;
    - [research/models/model-anonymous-library/main.go]: manifest registry,
      deterministic encryption, connector blocks, the Top-100 pool;
    - [research/models/model-connector-privacy/main.go]: the connector model
      with differentially private block selection.

    Go values are modelled as follows.  A byte is a [Z] in [0,256); a byte
    slice or array is a [list Z]; an [int]/[int64] is a [Z] whose arithmetic
    wraps through [Go.int64] ([int] has 64 bits on the platforms the
    repository builds for); a Go map is a [gmap]; a Go string is a [string];
    a pointer to a manifest is an index into a heap of manifests.
    Everything the program obtains from outside (random bytes, the clock,
    the order in which [range] walks a map, the IPFS daemon) is part of an
    explicit world state that the functions thread through. *)

From Stdlib Require Import ZArith List Lia Permutation Ascii String.
From stdpp Require Import base tactics option list gmap strings sorting.

Local Open Scope Z_scope.

(** ** Go primitives *)

Module Go.

Definition max_int64 : Z := 2 ^ 63 - 1.
Definition min_int64 : Z := - 2 ^ 63.

(** Two's complement wrap-around of 64-bit signed arithmetic. *)
Definition int64 (z : Z) : Z := (z + 2 ^ 63) mod 2 ^ 64 - 2 ^ 63.

Definition in_int64 (z : Z) : Prop := min_int64 <= z <= max_int64.

(** [len(s)] as a Go integer. *)
Definition len {A} (s : list A) : Z := Z.of_nat (length s).

(** The ways a Go call can end: it returns its values, it returns a
    non-nil [error], it panics, or it never comes back. *)
Inductive outcome (A : Type) : Type :=
| Returned (a : A)
| Failed (err : string)
| Panicked (msg : string)
| Diverges.
Arguments Returned {A} a.
Arguments Failed {A} err.
Arguments Panicked {A} msg.
Arguments Diverges {A}.

(** Sequencing of calls that touch no state. *)
Definition obind {A B} (o : outcome A) (k : A -> outcome B) : outcome B :=
  match o with
  | Returned a => k a
  | Failed e => Failed e
  | Panicked p => Panicked p
  | Diverges => Diverges
  end.

Notation "'let+' x ':=' o 'in' k" := (obind o (fun x => k))
  (at level 10, x pattern, o at level 100, k at level 200, only parsing).

(** [v, err := f(); if err != nil { return fmt.Errorf(prefix, err) }] *)
Definition or_fail {A} (prefix : string) (r : string + A) : outcome A :=
  match r with
  | inl err => Failed (prefix ++ err)%string
  | inr v => Returned v
  end.

Definition returns {A} (o : outcome A) : Prop := exists a, o = Returned a.
Definition panics {A} (o : outcome A) : Prop := exists msg, o = Panicked msg.

(** State-and-outcome monad over a world [W]; a failing or panicking call
    keeps the mutations it already made. *)
Definition M (W A : Type) : Type := W -> outcome A * W.

Definition ret {W A} (a : A) : M W A := fun w => (Returned a, w).
Definition fail {W A} (err : string) : M W A := fun w => (Failed err, w).
Definition panic {W A} (msg : string) : M W A := fun w => (Panicked msg, w).

Definition lift {W A} (o : outcome A) : M W A := fun w => (o, w).

Definition bind {W A B} (m : M W A) (k : A -> M W B) : M W B :=
  fun w =>
    match m w with
    | (Returned a, w') => k a w'
    | (Failed e, w') => (Failed e, w')
    | (Panicked p, w') => (Panicked p, w')
    | (Diverges, w') => (Diverges, w')
    end.

(** [if err != nil { return fmt.Errorf(prefix, err) }] *)
Definition wrap_err {W A} (prefix : string) (m : M W A) : M W A :=
  fun w =>
    match m w with
    | (Failed e, w') => (Failed (prefix ++ e)%string, w')
    | r => r
    end.

Notation "'let*' x ':=' m 'in' k" := (bind m (fun x => k))
  (at level 10, x pattern, m at level 100, k at level 200, only parsing).

Definition get {W} : M W W := fun w => (Returned w, w).
Definition modify {W} (f : W -> W) : M W unit := fun w => (Returned tt, f w).

(** Byte-wise exclusive or of two bytes. *)
Definition xor_byte (a b : Z) : Z := Z.lxor a b.

Definition is_byte (b : Z) : Prop := 0 <= b < 256.

(** ** [strings] and [strconv] *)

Definition slash : ascii := "/"%char.

Fixpoint trim_left (c : ascii) (s : string) : string :=
  match s with
  | String a rest => if Ascii.eqb a c then trim_left c rest else s
  | EmptyString => EmptyString
  end.

Fixpoint string_rev_onto (s acc : string) : string :=
  match s with
  | EmptyString => acc
  | String a rest => string_rev_onto rest (String a acc)
  end.

Definition string_rev (s : string) : string := string_rev_onto s EmptyString.

(** [strings.Trim(s, "/")]: drop every leading and trailing slash. *)
Definition strings_Trim_slash (s : string) : string :=
  string_rev (trim_left slash (string_rev (trim_left slash s))).

(** [strings.Split(s, "/")]: the pieces between slashes; the empty string
    splits into one empty piece. *)
Fixpoint split_onto (c : ascii) (s : string) (cur : string) : list string :=
  match s with
  | EmptyString => [string_rev cur]
  | String a rest =>
      if Ascii.eqb a c then string_rev cur :: split_onto c rest EmptyString
      else split_onto c rest (String a cur)
  end.

Definition strings_Split_slash (s : string) : list string :=
  split_onto slash s EmptyString.

Definition digit_of (a : ascii) : option Z :=
  let n := Z.of_nat (nat_of_ascii a) in
  if (48 <=? n) && (n <=? 57) then Some (n - 48) else None.

Fixpoint parse_digits (s : string) (acc : Z) : option Z :=
  match s with
  | EmptyString => Some acc
  | String a rest =>
      match digit_of a with
      | Some d => parse_digits rest (10 * acc + d)
      | None => None
      end
  end.

(** [strconv.ParseInt(s, 10, 64)]: an optional sign, then one or more
    decimal digits, the value within the 64-bit range. *)
Definition strconv_ParseInt (s : string) : string + Z :=
  let '(neg, body) :=
    match s with
    | String "+"%char rest => (false, rest)
    | String "-"%char rest => (true, rest)
    | _ => (false, s)
    end in
  match body with
  | EmptyString => inl "invalid syntax"%string
  | _ =>
      match parse_digits body 0 with
      | None => inl "invalid syntax"%string
      | Some n =>
          let v := if neg then - n else n in
          if (min_int64 <=? v) && (v <=? max_int64) then inr v
          else inl "value out of range"%string
      end
  end.

(** Decimal rendering of an integer, as [%d] prints it. *)
Fixpoint digits_onto (fuel : nat) (n : Z) (acc : string) : string :=
  match fuel with
  | O => acc
  | S fuel' =>
      let acc' := String (ascii_of_nat (Z.to_nat (48 + n mod 10))) acc in
      if n / 10 =? 0 then acc' else digits_onto fuel' (n / 10) acc'
  end.

Definition itoa (n : Z) : string :=
  if n <? 0 then String "-"%char (digits_onto (Z.to_nat (Z.log2 (- n)) + 1) (- n) EmptyString)
  else digits_onto (Z.to_nat (Z.log2 n) + 1) n EmptyString.

(** The bytes of a Go string. *)
Fixpoint bytes_of_string (s : string) : list Z :=
  match s with
  | EmptyString => []
  | String a rest => Z.of_nat (nat_of_ascii a) :: bytes_of_string rest
  end.

End Go.

Export Go.

(** ** The core library: [randomfs-core/randomfs.go] *)

Module Core.

(** Block sizes for different file categories and the thresholds that
    select them. *)
Definition NanoBlockSize : Z := 1024.
Definition MiniBlockSize : Z := 65536.
Definition BlockSize : Z := 1048576.
Definition NanoThreshold : Z := 100 * 1024.
Definition MiniThreshold : Z := 10 * 1024 * 1024.
Definition ProtocolVersion : string := "v4".

Record Stats := mkStats {
  FilesStored : Z;
  BlocksGenerated : Z;
  TotalSize : Z;
  CacheHits : Z;
  CacheMisses : Z }.

Record BlockCache := mkBlockCache {
  blocks : gmap string (list Z);
  maxSize : Z;
  currentSize : Z }.

Record FileRepresentation := mkFileRepresentation {
  rep_FileName : string;
  rep_FileSize : Z;
  rep_BlockHashes : list string;
  rep_BlockSize : Z;
  rep_Timestamp : Z;
  rep_ContentType : string;
  rep_Version : string }.

Record RandomURL := mkRandomURL {
  url_Scheme : string;
  url_Host : string;
  url_Version : string;
  url_FileName : string;
  url_FileSize : Z;
  url_RepHash : string;
  url_Timestamp : Z }.

(** The fields of a parsed [net/url.URL] that [ParseRandomURL] reads. *)
Record URL := mkURL { Scheme : string; Host : string; Path : string }.

(** The instance together with what it talks to: the objects held by the
    IPFS daemon behind [ipfsAPI] and whether the daemon answers, the bytes
    [crypto/rand] will deliver, a seed that picks the order of the next
    [range] over the cache map, and the wall clock. *)
Record World := mkWorld {
  ipfs_objects : gmap string (list Z);
  ipfs_online : bool;
  blockCache : BlockCache;
  stats : Stats;
  entropy : list Z;
  range_seed : nat;
  clock : Z }.

Definition with_cache (c : BlockCache) (w : World) : World :=
  mkWorld (ipfs_objects w) (ipfs_online w) c (stats w) (entropy w) (range_seed w) (clock w).
Definition with_stats (s : Stats) (w : World) : World :=
  mkWorld (ipfs_objects w) (ipfs_online w) (blockCache w) s (entropy w) (range_seed w) (clock w).
Definition with_objects (o : gmap string (list Z)) (w : World) : World :=
  mkWorld o (ipfs_online w) (blockCache w) (stats w) (entropy w) (range_seed w) (clock w).
Definition with_entropy (e : list Z) (w : World) : World :=
  mkWorld (ipfs_objects w) (ipfs_online w) (blockCache w) (stats w) e (range_seed w) (clock w).
Definition with_range_seed (n : nat) (w : World) : World :=
  mkWorld (ipfs_objects w) (ipfs_online w) (blockCache w) (stats w) (entropy w) n (clock w).

(** [NewRandomFS]: an empty cache of capacity [cacheSize], zero statistics. *)
Definition NewBlockCache (cacheSize : Z) : BlockCache := mkBlockCache ∅ cacheSize 0.

(** The sum of the byte lengths of the blocks a cache map holds. *)
Definition entries_size (l : list (string * list Z)) : Z :=
  foldr (fun e acc => len e.2 + acc) 0 l.
Definition cache_bytes (m : gmap string (list Z)) : Z := entries_size (map_to_list m).

Section Engine.

(** The content identifier the daemon computes for an object. *)
Variable ipfs_cid : list Z -> string.
(** The order in which the [n]-th [range] over a cache map visits its
    entries. *)
Variable map_range : nat -> gmap string (list Z) -> list (string * list Z).
(** [encoding/json] on a [FileRepresentation]. *)
Variable json_Marshal : FileRepresentation -> option (list Z).
Variable json_Unmarshal : list Z -> option FileRepresentation.
Variable filepath_Base : string -> string.
Variable url_Parse : string -> string + URL.

(** [selectBlockSize] *)
Definition selectBlockSize (fileSize : Z) : Z :=
  if fileSize <=? NanoThreshold then NanoBlockSize
  else if fileSize <=? MiniThreshold then MiniBlockSize
  else BlockSize.

(** [addToIPFS]: the daemon stores the object and answers with its hash. *)
Definition addToIPFS (data : list Z) : M World string :=
  fun w =>
    if ipfs_online w then
      (Returned (ipfs_cid data),
       with_objects (<[ipfs_cid data := data]> (ipfs_objects w)) w)
    else (Failed "IPFS add failed", w).

(** [catFromIPFS] *)
Definition catFromIPFS (hash : string) : M World (list Z) :=
  fun w =>
    if ipfs_online w then
      match ipfs_objects w !! hash with
      | Some data => (Returned data, w)
      | None => (Failed "IPFS cat failed with status: 500", w)
      end
    else (Failed "IPFS cat failed", w).

(** The loop of [evictOldestBlocks] over the entries in the order the
    [range] delivers them: delete the entry, subtract its length, stop
    once the counter is at or below the target. *)
Fixpoint evict_loop (target : Z) (order : list (string * list Z))
    (c : BlockCache) : BlockCache :=
  match order with
  | [] => c
  | (hash, block) :: rest =>
      let c' := mkBlockCache (delete hash (blocks c)) (maxSize c)
                  (int64 (currentSize c - len block)) in
      if currentSize c' <=? target then c' else evict_loop target rest c'
  end.

(** [evictOldestBlocks] on a cache, for a given visiting order. *)
Definition evict_in_order (order : list (string * list Z)) (c : BlockCache)
    : BlockCache :=
  evict_loop (Z.quot (maxSize c) 2) order c.

(** [evictOldestBlocks] *)
Definition evictOldestBlocks : M World unit :=
  fun w =>
    let order := map_range (range_seed w) (blocks (blockCache w)) in
    (Returned tt,
     with_range_seed (S (range_seed w))
       (with_cache (evict_in_order order (blockCache w)) w)).

(** The two assignments of [storeBlock] that put a block in the cache. *)
Definition cache_insert (hash : string) (block : list Z) (c : BlockCache)
    : BlockCache :=
  mkBlockCache (<[hash := block]> (blocks c)) (maxSize c)
    (int64 (currentSize c + len block)).

(** [storeBlock] *)
Definition storeBlock (block : list Z) : M World string :=
  let* hash := addToIPFS block in
  let* _ := modify (fun w => with_cache (cache_insert hash block (blockCache w)) w) in
  let* w := get in
  let* _ := (if currentSize (blockCache w) >? maxSize (blockCache w)
             then evictOldestBlocks else ret tt) in
  ret hash.

Definition bump_hits (s : Stats) : Stats :=
  mkStats (FilesStored s) (BlocksGenerated s) (TotalSize s)
    (int64 (CacheHits s + 1)) (CacheMisses s).
Definition bump_misses (s : Stats) : Stats :=
  mkStats (FilesStored s) (BlocksGenerated s) (TotalSize s)
    (CacheHits s) (int64 (CacheMisses s + 1)).

(** [retrieveBlock] *)
Definition retrieveBlock (hash : string) : M World (list Z) :=
  let* w := get in
  match blocks (blockCache w) !! hash with
  | Some block =>
      let* _ := modify (fun w => with_stats (bump_hits (stats w)) w) in
      ret block
  | None =>
      let* _ := modify (fun w => with_stats (bump_misses (stats w)) w) in
      catFromIPFS hash
  end.

(** [rand.Read(buf)] for a buffer of [n] bytes. *)
Definition rand_Read (n : nat) : M World (list Z) :=
  fun w =>
    if (n <=? length (entropy w))%nat then
      (Returned (take n (entropy w)), with_entropy (drop n (entropy w)) w)
    else (Failed "entropy source unavailable", w).

(** [for i := 0; i < len(chunk); i++ { randomBlock[i] ^= chunk[i] }];
    the chunk is never longer than the block. *)
Fixpoint xor_into (randomBlock chunk : list Z) : list Z :=
  match chunk, randomBlock with
  | c :: chunk', r :: randomBlock' => xor_byte r c :: xor_into randomBlock' chunk'
  | _, _ => randomBlock
  end.

(** The loop of [generateRandomBlocks], one iteration per unit of fuel. *)
Fixpoint generate_loop (fuel : nat) (data : list Z) (blockSize offset : Z)
    (acc : list (list Z)) : M World (list (list Z)) :=
  if offset <? len data then
    match fuel with
    | O => lift Diverges
    | S fuel' =>
        let end_ := if int64 (offset + blockSize) >? len data then len data
                    else int64 (offset + blockSize) in
        if end_ <? offset then panic "slice bounds out of range"
        else
          let chunk := take (Z.to_nat (end_ - offset)) (drop (Z.to_nat offset) data) in
          let* randomBlock :=
            wrap_err "failed to generate random data: "
              (rand_Read (Z.to_nat blockSize)) in
          generate_loop fuel' data blockSize (int64 (offset + blockSize))
            (acc ++ [xor_into randomBlock chunk])
    end
  else ret acc.

(** [generateRandomBlocks]; a positive block size needs at most
    [len(data)] iterations. *)
Definition generateRandomBlocks (data : list Z) (blockSize : Z)
    : M World (list (list Z)) :=
  generate_loop (length data) data blockSize 0 [].

(** [deRandomizeBlock]: a fresh slice of [dataSize] bytes filled from
    [block[:dataSize]] (slices are taken with capacity equal to length). *)
Definition deRandomizeBlock (block : list Z) (dataSize : Z) : outcome (list Z) :=
  if dataSize <? 0 then Panicked "makeslice: len out of range"
  else if dataSize >? len block then Panicked "slice bounds out of range"
  else Returned (take (Z.to_nat dataSize) block).

(** The loop of [StoreFile] that stores the blocks and collects their
    hashes. *)
Fixpoint store_blocks (blks : list (list Z)) (blockHashes : list string)
    : M World (list string) :=
  match blks with
  | [] => ret blockHashes
  | block :: rest =>
      let* hash := wrap_err "failed to store block: " (storeBlock block) in
      store_blocks rest (blockHashes ++ [hash])
  end.

Definition count_file (nblocks size : Z) (s : Stats) : Stats :=
  mkStats (int64 (FilesStored s + 1)) (int64 (BlocksGenerated s + nblocks))
    (int64 (TotalSize s + size)) (CacheHits s) (CacheMisses s).

(** [StoreFile] *)
Definition StoreFile (filename : string) (data : list Z) (contentType : string)
    : M World RandomURL :=
  let blockSize := selectBlockSize (len data) in
  let* blks := wrap_err "failed to generate blocks: "
                 (generateRandomBlocks data blockSize) in
  let* blockHashes := store_blocks blks [] in
  let* w := get in
  let rep := mkFileRepresentation (filepath_Base filename) (len data)
               blockHashes blockSize (clock w) contentType ProtocolVersion in
  match json_Marshal rep with
  | None => fail "failed to marshal representation"
  | Some repData =>
      let* repHash := wrap_err "failed to store representation: "
                        (addToIPFS repData) in
      let* _ := modify (fun w => with_stats
                  (count_file (len blks) (len data) (stats w)) w) in
      ret (mkRandomURL "rd" "randomfs" ProtocolVersion (rep_FileName rep)
             (rep_FileSize rep) repHash (rep_Timestamp rep))
  end.

(** The loop of [RetrieveFile] over [rep.BlockHashes], from index [i]. *)
Fixpoint retrieve_loop (rep : FileRepresentation) (i : nat)
    (hashes : list string) (reconstructed : list Z) : M World (list Z) :=
  match hashes with
  | [] => ret reconstructed
  | blockHash :: rest =>
      let* blockData := wrap_err "failed to retrieve block: "
                          (retrieveBlock blockHash) in
      let dataSize :=
        if Z.of_nat i <? len (rep_BlockHashes rep) - 1 then rep_BlockSize rep
        else int64 (rep_FileSize rep - len reconstructed) in
      let* deRandomized := lift (deRandomizeBlock blockData dataSize) in
      retrieve_loop rep (S i) rest (reconstructed ++ deRandomized)
  end.

(** [RetrieveFile] *)
Definition RetrieveFile (repHash : string)
    : M World (list Z * FileRepresentation) :=
  let* repData := wrap_err "failed to retrieve representation: "
                    (catFromIPFS repHash) in
  match json_Unmarshal repData with
  | None => fail "failed to unmarshal representation"
  | Some rep =>
      let* out := retrieve_loop rep 0 (rep_BlockHashes rep) [] in
      ret (out, rep)
  end.

(** [parts[i]] with Go's bounds check. *)
Definition index_part (parts : list string) (i : nat) : outcome string :=
  match parts !! i with
  | Some p => Returned p
  | None => Panicked "index out of range"
  end.

(** [ParseRandomURL] *)
Definition ParseRandomURL (rawURL : string) : outcome RandomURL :=
  match url_Parse rawURL with
  | inl err => Failed ("invalid URL: " ++ err)
  | inr u =>
      if negb (String.eqb (Scheme u) "rd") then Failed "invalid scheme"
      else
        let parts := strings_Split_slash (strings_Trim_slash (Path u)) in
        if len parts <? 4 then Failed "invalid rd:// URL format"
        else
          let+ p1 := index_part parts 1 in
          let+ fileSize := or_fail "invalid file size: " (strconv_ParseInt p1) in
          let+ p3 := index_part parts 3 in
          let+ timestamp := or_fail "invalid timestamp: " (strconv_ParseInt p3) in
          let+ p0 := index_part parts 0 in
          let+ p2 := index_part parts 2 in
          let+ p4 := index_part parts 4 in
          Returned (mkRandomURL (Scheme u) (Host u) p0 p2 fileSize p4 timestamp)
  end.

(** [RandomURL.String] *)
Definition RandomURL_String (ru : RandomURL) : string :=
  ("rd://" ++ url_Host ru ++ "/" ++ url_Version ru ++ "/" ++ itoa (url_FileSize ru)
   ++ "/" ++ url_FileName ru ++ "/" ++ itoa (url_Timestamp ru) ++ "/"
   ++ url_RepHash ru)%string.

End Engine.

End Core.

(** ** What the two research models share

    [model-anonymous-library/main.go] and [model-connector-privacy/main.go]
    declare the same globals ([networkStorage], [blockPopularity],
    [top100Blocks]) and the same helpers ([xor], [hash], [randInt],
    [updateTop100]).  They are embedded once; the manifest registry belongs
    to the anonymous library alone. *)

Module Models.

(** [type Block [4096]byte] and [type BlockHash [32]byte] *)
Definition BlockLen : nat := 4096.
Definition HashLen : nat := 32.
Definition zeroBlock : list Z := repeat 0 BlockLen.
Definition zeroHash : list Z := repeat 0 HashLen.

Record ConnectorDescriptor := mkConnectorDescriptor {
  Position : Z;
  ConnectorHash : list Z;
  TargetHash : list Z;
  RandomizerHash : list Z }.

Record FileManifest := mkFileManifest {
  FileName : string;
  FileSize : Z;
  FileHash : list Z;
  BlockCount : Z;
  ConnectorBlocks : list ConnectorDescriptor;
  CreatedAt : Z;
  PopularityScore : Z }.

(** The global state of a model and its surroundings.  [manifests] is the
    heap of allocated [FileManifest] values, a [*FileManifest] being an
    index into it; [manifestRegistry] maps a file hash to such a pointer.
    [entropy] feeds [rand.Read], [range_seed] picks the order of the next
    [range] over [blockPopularity], [draws] counts the calls of
    [geometric]. *)
Record World := mkWorld {
  networkStorage : gmap (list Z) (list Z);
  blockPopularity : gmap (list Z) Z;
  top100Blocks : list (list Z);
  manifests : list FileManifest;
  manifestRegistry : gmap (list Z) nat;
  entropy : list Z;
  range_seed : nat;
  draws : nat;
  clock : Z }.

Definition initial (ent : list Z) (now : Z) : World :=
  mkWorld ∅ ∅ [] [] ∅ ent 0 0 now.

Definition with_storage (s : gmap (list Z) (list Z)) (w : World) : World :=
  mkWorld s (blockPopularity w) (top100Blocks w) (manifests w)
    (manifestRegistry w) (entropy w) (range_seed w) (draws w) (clock w).
Definition with_popularity (p : gmap (list Z) Z) (w : World) : World :=
  mkWorld (networkStorage w) p (top100Blocks w) (manifests w)
    (manifestRegistry w) (entropy w) (range_seed w) (draws w) (clock w).
Definition with_top100 (t : list (list Z)) (w : World) : World :=
  mkWorld (networkStorage w) (blockPopularity w) t (manifests w)
    (manifestRegistry w) (entropy w) (range_seed w) (draws w) (clock w).
Definition with_manifests (h : list FileManifest) (w : World) : World :=
  mkWorld (networkStorage w) (blockPopularity w) (top100Blocks w) h
    (manifestRegistry w) (entropy w) (range_seed w) (draws w) (clock w).
Definition with_registry (r : gmap (list Z) nat) (w : World) : World :=
  mkWorld (networkStorage w) (blockPopularity w) (top100Blocks w) (manifests w)
    r (entropy w) (range_seed w) (draws w) (clock w).
Definition with_entropy (e : list Z) (w : World) : World :=
  mkWorld (networkStorage w) (blockPopularity w) (top100Blocks w) (manifests w)
    (manifestRegistry w) e (range_seed w) (draws w) (clock w).
Definition with_range_seed (n : nat) (w : World) : World :=
  mkWorld (networkStorage w) (blockPopularity w) (top100Blocks w) (manifests w)
    (manifestRegistry w) (entropy w) n (draws w) (clock w).
Definition with_draws (n : nat) (w : World) : World :=
  mkWorld (networkStorage w) (blockPopularity w) (top100Blocks w) (manifests w)
    (manifestRegistry w) (entropy w) (range_seed w) n (clock w).

(** [xor]: the loop runs over all 4096 positions of the arrays. *)
Definition xor (a b : list Z) : list Z :=
  map (fun i => xor_byte (nth i a 0) (nth i b 0)) (seq 0 BlockLen).

(** [networkStorage[h]] read without the presence flag: a missing key
    yields the zero block. *)
Definition storage_get (w : World) (h : list Z) : list Z :=
  default zeroBlock (networkStorage w !! h).

(** [blockPopularity[h]++] *)
Definition bump (h : list Z) (p : gmap (list Z) Z) : gmap (list Z) Z :=
  <[h := int64 (default 0 (p !! h) + 1)]> p.

(** The comparison [sort.Slice] is given: more popular first. *)
Definition more_popular (x y : list Z * Z) : Prop := y.2 <= x.2.

(** [slice[i]] with Go's bounds check. *)
Definition index_hash (l : list (list Z)) (i : Z) : outcome (list Z) :=
  if i <? 0 then Panicked "index out of range"
  else match l !! Z.to_nat i with
       | Some h => Returned h
       | None => Panicked "index out of range"
       end.

Section Shared.

Variable sha256 : list Z -> list Z.
(** The order in which the [n]-th [range] over [blockPopularity] visits
    the map. *)
Variable pop_range : nat -> gmap (list Z) Z -> list (list Z * Z).
(** [sort.Slice] with the popularity comparison. *)
Variable sort_Slice : list (list Z * Z) -> list (list Z * Z).

(** [hash] *)
Definition hash (b : list Z) : list Z := sha256 b.

(** [randInt]: one byte from [crypto/rand], reduced modulo [max]. *)
Definition randInt (max : Z) : M World Z :=
  fun w =>
    match entropy w with
    | [] => (Panicked "crypto/rand: read failed", w)
    | b :: rest =>
        if max =? 0 then (Panicked "integer divide by zero", with_entropy rest w)
        else (Returned (Z.rem b max), with_entropy rest w)
    end.

(** [updateTop100] *)
Definition updateTop100 : M World unit :=
  fun w =>
    let sortedBlocks := sort_Slice (pop_range (range_seed w) (blockPopularity w)) in
    (Returned tt,
     with_range_seed (S (range_seed w))
       (with_top100 (take 100 sortedBlocks).*1 w)).

(** [rand.Read(block[:])] with the error dropped: the bytes that were
    delivered, the rest of the array left at zero.  (The connector-privacy
    model fills its blocks from [math/rand]; one tape serves both.) *)
Definition random_block : M World (list Z) :=
  fun w =>
    let got := take BlockLen (entropy w) in
    (Returned (got ++ repeat 0 (BlockLen - length got)),
     with_entropy (drop BlockLen (entropy w)) w).

(** [populateInitialNetwork]; the models differ in the popularity they
    give a block, [randInt(100) + base] with [base] 50 or 0. *)
Fixpoint populate_loop (base : Z) (n : nat) : M World unit :=
  match n with
  | O => ret tt
  | S n' =>
      let* block := random_block in
      let h := hash block in
      let* _ := modify (fun w => with_storage (<[h := block]> (networkStorage w)) w) in
      let* r := randInt 100 in
      let* _ := modify (fun w => with_popularity
                  (<[h := int64 (r + base)]> (blockPopularity w)) w) in
      populate_loop base n'
  end.

Definition populateInitialNetwork (base : Z) (numBlocks : Z) : M World unit :=
  let* _ := populate_loop base (Z.to_nat numBlocks) in
  updateTop100.

End Shared.

End Models.

(** ** The anonymous media library: [model-anonymous-library/main.go] *)

Module Library.
Import Models.

Section LibraryModel.

Variable sha256 : list Z -> list Z.
Variable pop_range : nat -> gmap (list Z) Z -> list (list Z * Z).
Variable sort_Slice : list (list Z * Z) -> list (list Z * Z).

Abbreviation hash := (Models.hash sha256).

(** [chunkFile]: block [i] is a zero block overwritten by
    [data[i*4096 : min((i+1)*4096, len(data))]]. *)
Definition chunk (data : list Z) (i : nat) : list Z :=
  let piece := take BlockLen (drop (i * BlockLen) data) in
  piece ++ repeat 0 (BlockLen - length piece).

Definition chunkFile (data : list Z) : list (list Z) :=
  let numBlocks := Z.to_nat (Z.quot (len data + Z.of_nat BlockLen - 1) (Z.of_nat BlockLen)) in
  map (chunk data) (seq 0 numBlocks).

(** The key both [deterministicEncrypt] and [deterministicDecrypt]
    derive: SHA-256 of [password ":" position]. *)
Definition key_of (password : string) (position : Z) : list Z :=
  sha256 (bytes_of_string (password ++ ":" ++ itoa position)%string).

(** [deterministicEncrypt] *)
Definition deterministicEncrypt (block : list Z) (password : string)
    (position : Z) : list Z :=
  let key := key_of password position in
  map (fun i => xor_byte (nth i block 0) (nth (i mod 32) key 0)) (seq 0 BlockLen).

(** [deterministicDecrypt] *)
Definition deterministicDecrypt (encryptedBlock : list Z) (password : string)
    (position : Z) : list Z :=
  let key := key_of password position in
  map (fun i => xor_byte (nth i encryptedBlock 0) (nth (i mod 32) key 0))
    (seq 0 BlockLen).

(** [selectPopularBlocks] *)
Definition selectPopularBlocks : M World (list Z * list Z) :=
  let* w := get in
  if len (top100Blocks w) <? 2 then panic "Top 100 pool not populated"
  else
    let* idx1 := randInt (len (top100Blocks w)) in
    let* idx2 := randInt (len (top100Blocks w)) in
    let* target := lift (index_hash (top100Blocks w) idx1) in
    let* randomizer := lift (index_hash (top100Blocks w) idx2) in
    ret (target, randomizer).

(** One iteration of the storing loop of [StoreFile], for the encrypted
    block at position [i]; it yields the descriptor written to
    [manifest.ConnectorBlocks[i]] and the increment of [newBlocksStored]. *)
Definition store_encrypted (i : Z) (encryptedBlock : list Z)
    : M World (ConnectorDescriptor * Z) :=
  let encryptedHash := hash encryptedBlock in
  let* w := get in
  match networkStorage w !! encryptedHash with
  | Some _ =>
      ret (mkConnectorDescriptor i encryptedHash zeroHash zeroHash, 0)
  | None =>
      let* selected := selectPopularBlocks in
      let targetHash := selected.1 in
      let randomizerHash := selected.2 in
      let* w := get in
      let targetBlock := storage_get w targetHash in
      let randomizerBlock := storage_get w randomizerHash in
      let connectorBlock := xor encryptedBlock (xor targetBlock randomizerBlock) in
      let connectorHash := hash connectorBlock in
      let* _ := modify (fun w =>
                  with_storage (<[connectorHash := connectorBlock]> (networkStorage w)) w) in
      let* _ := modify (fun w =>
                  with_popularity
                    (bump randomizerHash (bump targetHash
                       (<[connectorHash := 1]> (blockPopularity w)))) w) in
      ret (mkConnectorDescriptor i connectorHash targetHash randomizerHash, 1)
  end.

Fixpoint store_loop (i : Z) (encryptedBlocks : list (list Z))
    (descriptors : list ConnectorDescriptor) (newBlocksStored : Z)
    : M World (list ConnectorDescriptor * Z) :=
  match encryptedBlocks with
  | [] => ret (descriptors, newBlocksStored)
  | encryptedBlock :: rest =>
      let* stored := store_encrypted i encryptedBlock in
      store_loop (i + 1) rest (descriptors ++ [stored.1])
        (int64 (newBlocksStored + stored.2))
  end.

Definition bump_score (m : FileManifest) : FileManifest :=
  mkFileManifest (FileName m) (FileSize m) (FileHash m) (BlockCount m)
    (ConnectorBlocks m) (CreatedAt m) (int64 (PopularityScore m + 1)).

(** [StoreFile]: the number of new blocks and the manifest pointer. *)
Definition StoreFile (fileName : string) (fileData : list Z) (password : string)
    : M World (Z * nat) :=
  let fileHash := sha256 fileData in
  let* w := get in
  match manifestRegistry w !! fileHash with
  | Some existingManifest =>
      match manifests w !! existingManifest with
      | None => panic "invalid memory address or nil pointer dereference"
      | Some m =>
          let* _ := modify (with_manifests
                      (<[existingManifest := bump_score m]> (manifests w))) in
          ret (0, existingManifest)
      end
  | None =>
      let blocks := chunkFile fileData in
      let encryptedBlocks :=
        imap (fun i block => deterministicEncrypt block password (Z.of_nat i)) blocks in
      let* stored := store_loop 0 encryptedBlocks [] 0 in
      let newBlocksStored := stored.2 in
      let* w := get in
      let manifest := mkFileManifest fileName (len fileData) fileHash (len blocks)
                        stored.1 (clock w) 1 in
      let ptr := length (manifests w) in
      let* _ := modify (fun w => with_registry (<[fileHash := ptr]> (manifestRegistry w))
                                   (with_manifests (manifests w ++ [manifest]) w)) in
      ret (newBlocksStored, ptr)
  end.

(** One iteration of the loop of [RetrieveFile]. *)
Definition retrieve_block (password : string) (i : Z)
    (descriptor : ConnectorDescriptor) : M World (list Z) :=
  let* w := get in
  match networkStorage w !! ConnectorHash descriptor with
  | None => fail "connector block not found"
  | Some connectorBlock =>
      let encryptedBlock :=
        if decide (TargetHash descriptor = zeroHash) then connectorBlock
        else xor connectorBlock
               (xor (storage_get w (TargetHash descriptor))
                    (storage_get w (RandomizerHash descriptor))) in
      ret (deterministicDecrypt encryptedBlock password i)
  end.

Fixpoint retrieve_loop (password : string) (i : Z)
    (descriptors : list ConnectorDescriptor) (retrievedData : list Z)
    : M World (list Z) :=
  match descriptors with
  | [] => ret retrievedData
  | descriptor :: rest =>
      let* originalBlock := retrieve_block password i descriptor in
      retrieve_loop password (i + 1) rest (retrievedData ++ originalBlock)
  end.

(** [RetrieveFile] from block [startBlock] on, trimmed to the recorded
    file size. *)
Definition RetrieveFile (manifest : nat) (password : string) (startBlock : Z)
    : M World (list Z) :=
  let* w := get in
  match manifests w !! manifest with
  | None => panic "invalid memory address or nil pointer dereference"
  | Some m =>
      if startBlock <? 0 then panic "index out of range"
      else
        let* retrievedData :=
          retrieve_loop password startBlock
            (drop (Z.to_nat startBlock) (ConnectorBlocks m)) [] in
        if len retrievedData >? FileSize m then
          if FileSize m <? 0 then panic "slice bounds out of range"
          else ret (take (Z.to_nat (FileSize m)) retrievedData)
        else ret retrievedData
  end.

End LibraryModel.

End Library.

(** ** The connector model with differential privacy:
       [model-connector-privacy/main.go] *)

Module Privacy.
Import Models.

Section PrivacyModel.

Variable sha256 : list Z -> list Z.
Variable pop_range : nat -> gmap (list Z) Z -> list (list Z * Z).
Variable sort_Slice : list (list Z * Z) -> list (list Z * Z).
(** The integer the [n]-th call of [geometric] yields; it comes out of
    floating-point arithmetic on a [math/rand] sample. *)
Variable geometric : nat -> Z.

Abbreviation hash := (Models.hash sha256).

Definition next_geometric : M World Z :=
  fun w => (Returned (geometric (draws w)), with_draws (S (draws w)) w).

(** [selectBlockWithDP] *)
Definition selectBlockWithDP (original : list Z) (salt : string)
    : M World (list Z) :=
  let h := sha256 (original ++ bytes_of_string salt) in
  let* w := get in
  let n := len (top100Blocks w) in
  if n =? 0 then panic "integer divide by zero"
  else
    let baseChoice := Z.rem (nth 0 h 0) n in
    let* noise := next_geometric in
    let* coin := randInt 2 in
    let noise := if coin =? 0 then int64 (- noise) else noise in
    let finalChoice := Z.rem (int64 (baseChoice + noise)) n in
    let finalChoice := if finalChoice <? 0 then int64 (finalChoice + n)
                       else finalChoice in
    lift (index_hash (top100Blocks w) finalChoice).

(** [Store] *)
Definition Store (highEntropyOriginal : list Z) : M World Z :=
  let* w := get in
  if len (top100Blocks w) <? 2 then ret 0
  else
    let* targetHash := selectBlockWithDP highEntropyOriginal "target" in
    let* randomizerHash := selectBlockWithDP highEntropyOriginal "randomizer" in
    let* w := get in
    let targetBlock := storage_get w targetHash in
    let randomizerBlock := storage_get w randomizerHash in
    let connectorBlock := xor highEntropyOriginal (xor targetBlock randomizerBlock) in
    let connectorHash := hash connectorBlock in
    let* _ := modify (fun w =>
                with_storage (<[connectorHash := connectorBlock]> (networkStorage w)) w) in
    let* _ := modify (fun w =>
                with_popularity
                  (bump randomizerHash (bump targetHash
                     (bump connectorHash (blockPopularity w)))) w) in
    ret 1.

End PrivacyModel.

End Privacy.

(** * Vocabulary of the properties

    Traces of operations, the quantities the properties speak of, and
    concrete oracles on which the embedded functions can be run. *)

Module CacheSpec.
Import Core.

(** The operations a client performs on the cache: [Put] is [storeBlock],
    [Get] is [retrieveBlock]. *)
Inductive cache_op :=
| Put (block : list Z)
| Get (hash : string).

Section Run.
Variable ipfs_cid : list Z -> string.
Variable map_range : nat -> gmap string (list Z) -> list (string * list Z).

Definition run_op (op : cache_op) (w : World) : World :=
  match op with
  | Put block => (storeBlock ipfs_cid map_range block w).2
  | Get hash => (retrieveBlock hash w).2
  end.

(** The operations are performed one after the other, whatever each one
    answers. *)
Definition run_ops (ops : list cache_op) (w : World) : World :=
  foldl (fun w op => run_op op w) w ops.

(** The hash an operation accesses. *)
Definition accessed (op : cache_op) : string :=
  match op with
  | Put block => ipfs_cid block
  | Get hash => hash
  end.
End Run.

(** A world as [NewRandomFS] leaves it: a daemon that answers and holds
    nothing yet, an empty cache of the given capacity, zero statistics. *)
Definition fresh_world (cacheSize : Z) (ent : list Z) (now : Z) : World :=
  mkWorld ∅ true (NewBlockCache cacheSize) (mkStats 0 0 0 0 0) ent 0 now.

(** A block fits a cache of capacity [cap] when adding its length to a
    counter within the capacity stays a 64-bit integer. *)
Definition fits (cap : Z) (op : cache_op) : Prop :=
  match op with
  | Put block => cap + len block <= max_int64
  | Get _ => True
  end.

(** What holds of the cache between operations. *)
Definition cache_inv (cap : Z) (c : BlockCache) : Prop :=
  maxSize c = cap /\ cache_bytes (blocks c) <= currentSize c <= cap.

(** The map after deleting the keys of the entries [es]. *)
Definition delete_all (es : list (string * list Z)) (m : gmap string (list Z))
    : gmap string (list Z) :=
  foldl (fun m e => delete e.1 m) m es.

(** The position of the last access to [h] in a log of accesses, oldest
    first; [0] when it was never accessed. *)
Fixpoint last_access_from (i : nat) (log : list string) (h : string) (found : nat) : nat :=
  match log with
  | [] => found
  | a :: rest => last_access_from (S i) rest h (if String.eqb a h then S i else found)
  end.
Definition last_access (log : list string) (h : string) : nat :=
  last_access_from 0 log h 0.

(** Least-recently-used eviction, in the words of the specification: every
    entry that was removed was accessed less recently than every entry
    that was kept. *)
Definition lru_eviction (log : list string) (before after : gmap string (list Z)) : Prop :=
  forall e k : string,
    is_Some (before !! e) -> after !! e = None -> is_Some (after !! k) ->
    (last_access log e < last_access log k)%nat.

End CacheSpec.

Module PoolSpec.
Import Models.

(** The operations of the anonymous library that touch the pool. *)
Inductive library_op :=
| LStoreFile (fileName : string) (fileData : list Z) (password : string)
| LRetrieveFile (manifest : nat) (password : string) (startBlock : Z)
| LPopulate (numBlocks : Z)
| LUpdateTop100.

(** The operations of the connector model with differential privacy. *)
Inductive privacy_op :=
| PStore (block : list Z)
| PPopulate (numBlocks : Z)
| PUpdateTop100.

(** Forget the value a call returned. *)
Definition void {A} (r : outcome A * World) : outcome unit * World :=
  (obind r.1 (fun _ => Returned tt), r.2).

Section Run.
Variable sha256 : list Z -> list Z.
Variable pop_range : nat -> gmap (list Z) Z -> list (list Z * Z).
Variable sort_Slice : list (list Z * Z) -> list (list Z * Z).
Variable geometric : nat -> Z.

Definition library_step (op : library_op) (w : World) : outcome unit * World :=
  match op with
  | LStoreFile n d p => void (Library.StoreFile sha256 n d p w)
  | LRetrieveFile m p s => void (Library.RetrieveFile sha256 m p s w)
  | LPopulate n => populateInitialNetwork sha256 pop_range sort_Slice 50 n w
  | LUpdateTop100 => updateTop100 pop_range sort_Slice w
  end.

Definition privacy_step (op : privacy_op) (w : World) : outcome unit * World :=
  match op with
  | PStore b => void (Privacy.Store sha256 geometric b w)
  | PPopulate n => populateInitialNetwork sha256 pop_range sort_Slice 0 n w
  | PUpdateTop100 => updateTop100 pop_range sort_Slice w
  end.

(** A program is a sequence of operations; a panic ends it. *)
Fixpoint run {Op} (step : Op -> World -> outcome unit * World)
    (ops : list Op) (w : World) : World :=
  match ops with
  | [] => w
  | op :: rest =>
      match step op w with
      | (Panicked _, w') => w'
      | (Diverges, w') => w'
      | (_, w') => run step rest w'
      end
  end.
End Run.

(** A computation that leaves [top100Blocks] alone. *)
Definition keeps_pool {A} (m : M World A) : Prop :=
  forall w, top100Blocks (m w).2 = top100Blocks w.

(** The pool after an update holds exactly the most popular entries of the
    popularity map: it has no repetitions, its members are keys of the map,
    and each member is strictly more popular than each key left out. *)
Definition holds_most_popular (pool : list (list Z)) (pop : gmap (list Z) Z) : Prop :=
  NoDup pool
  /\ (forall h, h ∈ pool -> is_Some (pop !! h))
  /\ (forall h h' p p', h ∈ pool -> h' ∉ pool ->
        pop !! h = Some p -> pop !! h' = Some p' -> p' < p).

End PoolSpec.

(** Concrete oracles, used to run the embedded functions on examples. *)
Module Demo.

Fixpoint string_of_bytes (bs : list Z) : string :=
  match bs with
  | [] => EmptyString
  | b :: rest => String (ascii_of_nat (Z.to_nat b)) (string_of_bytes rest)
  end.

(** A content identifier that spells out the content. *)
Definition cid (data : list Z) : string := ("Qm" ++ string_of_bytes data)%string.

(** Two visiting orders for a map. *)
Definition range_fwd {K V} `{Countable K} (n : nat) (m : gmap K V) : list (K * V) :=
  map_to_list m.
Definition range_rev {K V} `{Countable K} (n : nat) (m : gmap K V) : list (K * V) :=
  reverse (map_to_list m).

(** A length-prefixed binary codec standing in for [encoding/json]. *)
Fixpoint le_bytes (n : nat) (z : Z) : list Z :=
  match n with
  | O => []
  | S n' => z mod 256 :: le_bytes n' (z / 256)
  end.
Fixpoint le_value (bs : list Z) : Z :=
  match bs with
  | [] => 0
  | b :: rest => b + 256 * le_value rest
  end.
Definition put_int (z : Z) : list Z := le_bytes 8 (z mod 2 ^ 64).
Definition get_int (bs : list Z) : option (Z * list Z) :=
  if (length bs <? 8)%nat then None
  else Some (int64 (le_value (take 8 bs)), drop 8 bs).
Definition put_string (s : string) : list Z :=
  put_int (len (bytes_of_string s)) ++ bytes_of_string s.
Definition get_string (bs : list Z) : option (string * list Z) :=
  match get_int bs with
  | Some (n, rest) =>
      if (n <? 0) || (len rest <? n) then None
      else Some (string_of_bytes (take (Z.to_nat n) rest), drop (Z.to_nat n) rest)
  | None => None
  end.
Fixpoint get_strings (count : nat) (bs : list Z) : option (list string * list Z) :=
  match count with
  | O => Some ([], bs)
  | S count' =>
      match get_string bs with
      | Some (s, rest) =>
          match get_strings count' rest with
          | Some (l, rest') => Some (s :: l, rest')
          | None => None
          end
      | None => None
      end
  end.

Definition json_Marshal (r : Core.FileRepresentation) : option (list Z) :=
  Some (put_string (Core.rep_FileName r) ++ put_int (Core.rep_FileSize r)
        ++ put_int (len (Core.rep_BlockHashes r))
        ++ concat (map put_string (Core.rep_BlockHashes r))
        ++ put_int (Core.rep_BlockSize r) ++ put_int (Core.rep_Timestamp r)
        ++ put_string (Core.rep_ContentType r) ++ put_string (Core.rep_Version r)).

Definition json_Unmarshal (bs : list Z) : option Core.FileRepresentation :=
  match get_string bs with
  | Some (name, bs) =>
    match get_int bs with
    | Some (size, bs) =>
      match get_int bs with
      | Some (count, bs) =>
        match get_strings (Z.to_nat count) bs with
        | Some (hashes, bs) =>
          match get_int bs with
          | Some (blockSize, bs) =>
            match get_int bs with
            | Some (timestamp, bs) =>
              match get_string bs with
              | Some (contentType, bs) =>
                match get_string bs with
                | Some (version, _) =>
                    Some (Core.mkFileRepresentation name size hashes blockSize
                            timestamp contentType version)
                | None => None
                end
              | None => None
              end
            | None => None
            end
          | None => None
          end
        | None => None
        end
      | None => None
      end
    | None => None
    end
  | None => None
  end.

(** [filepath.Base] on a name without separators. *)
Definition filepath_Base (s : string) : string := s.

(** [url.Parse] on URLs of the shape [scheme://host/path]. *)
Fixpoint until (c : ascii) (s : string) (acc : string) : string * string :=
  match s with
  | EmptyString => (string_rev acc, EmptyString)
  | String a rest => if Ascii.eqb a c then (string_rev acc, s) else until c rest (String a acc)
  end.

Definition url_Parse (raw : string) : string + Core.URL :=
  let '(scheme, rest) := until ":"%char raw EmptyString in
  match rest with
  | String ":"%char (String "/"%char (String "/"%char rest')) =>
      let '(host, path) := until "/"%char rest' EmptyString in
      inr (Core.mkURL scheme host path)
  | _ => inl "unsupported URL"%string
  end.

(** The stand-in for SHA-256 of the repository's own OFF-system
    simulation: the first 32 bytes of the input, zero-padded. *)
Definition sha256 (data : list Z) : list Z :=
  take 32 data ++ repeat 0 (32 - length (take 32 data)).

Global Instance more_popular_dec : RelDecision Models.more_popular.
Proof. intros x y. unfold Models.more_popular. apply _. Defined.

(** A stable merge sort for [sort.Slice]. *)
Definition sort_Slice (l : list (list Z * Z)) : list (list Z * Z) :=
  merge_sort Models.more_popular l.

(** A [geometric] that always yields zero noise. *)
Definition geometric_zero (n : nat) : Z := 0.

Definition hello : list Z := bytes_of_string "HelloWorld".

End Demo.

(** Concrete worlds of the research models. *)
Module DemoWorld.
Import Models.

Definition blockA : list Z := repeat 1 BlockLen.
Definition blockB : list Z := repeat 2 BlockLen.
Definition hashA : list Z := Demo.sha256 blockA.
Definition hashB : list Z := Demo.sha256 blockB.

(** A network holding two popular blocks, both in the pool. *)
Definition populated (ent : list Z) : World :=
  mkWorld (<[hashB := blockB]> (<[hashA := blockA]> ∅))
          (<[hashB := 60]> (<[hashA := 70]> ∅))
          [hashA; hashB] [] ∅ ent 0 0 1700000000.

(** A popularity map of 150 blocks, the [i]-th with popularity [i]. *)
Definition popularity150 : gmap (list Z) Z :=
  list_to_map ((fun i => ([Z.of_nat i], Z.of_nat i)) <$> seq 1 150).

Definition crowded : World :=
  mkWorld ∅ popularity150 [] [] ∅ [] 0 0 1700000000.

End DemoWorld.

(** * Vocabulary of further properties *)

(** No two different objects of the list get the same hash or content
    identifier. *)
Definition collision_free {H} (hash : list Z -> H) (objs : list (list Z)) : Prop :=
  forall a b, a ∈ objs -> b ∈ objs -> hash a = hash b -> a = b.

(** Vocabulary for the store and retrieve pipeline of the core engine. *)
Module CoreSpec.
Import Core.

(** The blocks [generateRandomBlocks] builds from [data] when the entropy
    source delivers [ent]: each run of [bs] bytes of data is XORed into
    the next [bs] random bytes. *)
Fixpoint expected_blocks (fuel bs : nat) (data ent : list Z) : list (list Z) :=
  match fuel, data with
  | S fuel', _ :: _ =>
      xor_into (take bs ent) (take bs data)
      :: expected_blocks fuel' bs (drop bs data) (drop bs ent)
  | _, _ => []
  end.

Definition blocks_of (blockSize : Z) (data ent : list Z) : list (list Z) :=
  expected_blocks (length data) (Z.to_nat blockSize) data ent.

(** The file with each byte XORed with the random byte drawn for it. *)
Definition masked (data ent : list Z) : list Z :=
  zip_with xor_byte (take (length data) ent) data.

(** The representation [StoreFile] writes for a file. *)
Definition representation_of (ipfs_cid : list Z -> string)
    (filepath_Base : string -> string) (filename : string) (data : list Z)
    (contentType : string) (w : World) : FileRepresentation :=
  mkFileRepresentation (filepath_Base filename) (len data)
    (ipfs_cid <$> blocks_of (selectBlockSize (len data)) data (entropy w))
    (selectBlockSize (len data)) (clock w) contentType ProtocolVersion.

(** The daemon holds the block under its identifier, and the cache holds
    nothing else under it. *)
Definition available (ipfs_cid : list Z -> string) (w : World) (b : list Z) : Prop :=
  ipfs_objects w !! ipfs_cid b = Some b
  /\ (forall b', blocks (blockCache w) !! ipfs_cid b = Some b' -> b' = b).

(** What the loop of [RetrieveFile] assembles from the blocks it fetched:
    every block but the last contributes [blockSize] bytes, the last one
    the bytes still missing up to [fileSize]. *)
Fixpoint reassemble (blockSize fileSize : Z) (blks : list (list Z))
    (reconstructed : list Z) : outcome (list Z) :=
  match blks with
  | [] => Returned reconstructed
  | [b] =>
      let+ d := deRandomizeBlock b (int64 (fileSize - len reconstructed)) in
      Returned (reconstructed ++ d)
  | b :: rest =>
      let+ d := deRandomizeBlock b blockSize in
      reassemble blockSize fileSize rest (reconstructed ++ d)
  end.


End CoreSpec.

(** Vocabulary for [rd://] URLs. *)
Module UrlSpec.
Import Core.

(** The string holds no slash. *)
Fixpoint no_slash (s : string) : bool :=
  match s with
  | EmptyString => true
  | String a rest => negb (Ascii.eqb a slash) && no_slash rest
  end.

(** A path segment that survives [strings.Trim] and [strings.Split]:
    not empty and without a slash. *)
Definition segment (s : string) : Prop := s <> EmptyString /\ no_slash s = true.

(** The path of the URL [RandomURL.String] prints. *)
Definition url_path (ru : RandomURL) : string :=
  ("/" ++ url_Version ru ++ "/" ++ itoa (url_FileSize ru) ++ "/" ++ url_FileName ru
   ++ "/" ++ itoa (url_Timestamp ru) ++ "/" ++ url_RepHash ru)%string.

(** The character of a decimal digit. *)
Definition digit_char (d : Z) : ascii := ascii_of_nat (Z.to_nat (48 + d)).

End UrlSpec.

(** Vocabulary for storing and retrieving files in the anonymous library. *)
Module LibrarySpec.
Import Models.

Section WithHash.
Variable sha256 : list Z -> list Z.

(** The encrypted blocks [StoreFile] derives from a file. *)
Definition encrypted_blocks (fileData : list Z) (password : string) : list (list Z) :=
  imap (fun i block => Library.deterministicEncrypt sha256 block password (Z.of_nat i))
    (Library.chunkFile fileData).

(** Every stored block sits under its own hash. *)
Definition content_addressed (w : World) : Prop :=
  forall h b, networkStorage w !! h = Some b -> sha256 b = h.

(** Every pool entry names a stored block and is not the all-zero hash. *)
Definition pool_stored (w : World) : Prop :=
  forall t, t ∈ top100Blocks w -> t <> zeroHash /\ is_Some (networkStorage w !! t).

(** The connector blocks a store can produce for the given blocks: the
    block XORed with a target and a randomizer from the pool. *)
Definition connectors (w : World) (blocks : list (list Z)) : list (list Z) :=
  flat_map (fun e =>
    flat_map (fun t =>
      map (fun r => xor e (xor (storage_get w t) (storage_get w r)))
          (top100Blocks w))
      (top100Blocks w))
    blocks.

(** All blocks that can be in the store after the given blocks were
    stored: the blocks themselves, what is stored already, and the
    possible connector blocks. *)
Definition candidates (w : World) (blocks : list (list Z)) : list (list Z) :=
  blocks ++ (map_to_list (networkStorage w)).*2 ++ connectors w blocks.

(** How a manifest entry leads back to an encrypted block. *)
Definition decodes (storage : gmap (list Z) (list Z)) (d : ConnectorDescriptor)
    (e : list Z) : Prop :=
  exists c, storage !! ConnectorHash d = Some c
    /\ ((TargetHash d = zeroHash /\ c = e)
        \/ (TargetHash d <> zeroHash
            /\ exists T R, storage !! TargetHash d = Some T
                 /\ storage !! RandomizerHash d = Some R
                 /\ xor c (xor T R) = e)).

(** The state the storing loop maintains, relative to the world [w0] it
    started in and the blocks [es] it stores: the pool is untouched, the
    store only grows, and every stored block is a candidate under its own
    hash. *)
Definition store_inv (w0 : World) (es : list (list Z)) (w : World) : Prop :=
  top100Blocks w = top100Blocks w0
  /\ manifests w = manifests w0
  /\ manifestRegistry w = manifestRegistry w0
  /\ clock w = clock w0
  /\ networkStorage w0 ⊆ networkStorage w
  /\ forall h b, networkStorage w !! h = Some b ->
                 sha256 b = h /\ b ∈ candidates w0 es.

(** The file's blocks encrypted with one password and decrypted with
    another, laid end to end. *)
Definition decrypted_with (fileData : list Z) (password password' : string) : list Z :=
  concat (imap (fun i block =>
            Library.deterministicDecrypt sha256
              (Library.deterministicEncrypt sha256 block password (Z.of_nat i))
              password' (Z.of_nat i))
          (Library.chunkFile fileData)).
End WithHash.

(** The file followed by the zeros that fill its last block. *)
Definition padded (fileData : list Z) : list Z :=
  fileData ++ repeat 0 (length (Library.chunkFile fileData) * BlockLen - length fileData).

(** A guess at a block from its encryption alone: every byte XORed with
    the byte 32-periodically aligned with it among the last 32. *)
Definition unmask_by_padding (encryptedBlock : list Z) : list Z :=
  map (fun j => xor_byte (nth j encryptedBlock 0)
                  (nth (BlockLen - 32 + j mod 32) encryptedBlock 0))
    (seq 0 BlockLen).

End LibrarySpec.

(** Vocabulary for the state of the simulated network. *)
Module NetSpec.
Import Models.

(** The part of the world the network consists of. *)
Definition net (w : World)
    : gmap (list Z) (list Z) * gmap (list Z) Z * list (list Z) :=
  (networkStorage w, blockPopularity w, top100Blocks w).

(** A computation that leaves the network alone. *)
Definition keeps_net {A} (m : M World A) : Prop :=
  forall w, net (m w).2 = net w.

(** The network is consistent: every stored block sits under its own
    hash, every block with a popularity count is stored, and every pool
    entry has a popularity count. *)
Definition network_inv (sha256 : list Z -> list Z) (w : World) : Prop :=
  (forall h b, networkStorage w !! h = Some b -> sha256 b = h)
  /\ (forall h, is_Some (blockPopularity w !! h) -> is_Some (networkStorage w !! h))
  /\ (forall h, h ∈ top100Blocks w -> is_Some (blockPopularity w !! h)).

End NetSpec.

(** * Properties *)

(** ** Arithmetic of [int64] *)

Lemma int64_id z : in_int64 z -> int64 z = z.
Proof.
  unfold in_int64, int64, min_int64, max_int64. intros Hz.
  rewrite Z.mod_small; lia.
Qed.

Lemma len_nonneg {A} (l : list A) : 0 <= len l.
Proof. unfold len. lia. Qed.

(** ** The block cache *)

Section CacheTheory.
Import Core CacheSpec.

Lemma entries_size_nonneg l : 0 <= entries_size l.
Proof.
  induction l as [|e l IH]; simpl; [lia|]. pose proof (len_nonneg e.2). lia.
Qed.

Lemma entries_size_perm l l' : l ≡ₚ l' -> entries_size l = entries_size l'.
Proof. induction 1; simpl; lia. Qed.

Lemma entries_size_app l l' : entries_size (l ++ l') = entries_size l + entries_size l'.
Proof. induction l; simpl; lia. Qed.

Lemma cache_bytes_nonneg m : 0 <= cache_bytes m.
Proof. apply entries_size_nonneg. Qed.

Lemma cache_bytes_empty : cache_bytes ∅ = 0.
Proof. unfold cache_bytes. by rewrite map_to_list_empty. Qed.

Lemma cache_bytes_delete (m : gmap string (list Z)) h b :
  m !! h = Some b -> cache_bytes (delete h m) = cache_bytes m - len b.
Proof.
  intros Hm. unfold cache_bytes.
  rewrite <- (entries_size_perm _ _ (map_to_list_delete m h b Hm)). simpl. lia.
Qed.

Lemma cache_bytes_insert_fresh (m : gmap string (list Z)) h b :
  m !! h = None -> cache_bytes (<[h := b]> m) = len b + cache_bytes m.
Proof.
  intros Hm. unfold cache_bytes.
  by rewrite (entries_size_perm _ _ (map_to_list_insert m h b Hm)).
Qed.

Lemma cache_bytes_insert (m : gmap string (list Z)) h b :
  cache_bytes (<[h := b]> m) = len b + cache_bytes (delete h m).
Proof.
  rewrite <- insert_delete_eq. apply cache_bytes_insert_fresh, lookup_delete_eq.
Qed.

Lemma cache_bytes_delete_le (m : gmap string (list Z)) h :
  cache_bytes (delete h m) <= cache_bytes m.
Proof.
  destruct (m !! h) as [b|] eqn:Hm.
  - rewrite (cache_bytes_delete _ _ _ Hm). pose proof (len_nonneg b). lia.
  - by rewrite delete_id.
Qed.

(** The eviction loop keeps the gap between the counter and the bytes held,
    and stops either at the target or with every visited entry gone. *)
Lemma evict_loop_spec target order c :
  NoDup order.*1 ->
  Forall (fun e => blocks c !! e.1 = Some e.2) order ->
  cache_bytes (blocks c) <= currentSize c <= max_int64 ->
  let c' := evict_loop target order c in
  maxSize c' = maxSize c
  /\ currentSize c' - cache_bytes (blocks c') = currentSize c - cache_bytes (blocks c)
  /\ blocks c' ⊆ blocks c
  /\ (currentSize c' <= target \/ Forall (fun e => blocks c' !! e.1 = None) order).
Proof.
  revert c. induction order as [|[h b] rest IH]; intros c Hnd Hin Hsz; simpl.
  - repeat split; auto.
  - apply NoDup_cons in Hnd as [Hh Hnd]. apply Forall_cons in Hin as [Hhb Hin].
    simpl in Hhb.
    pose proof (cache_bytes_delete _ _ _ Hhb) as Hdel.
    pose proof (cache_bytes_nonneg (delete h (blocks c))) as Hnn.
    pose proof (len_nonneg b) as Hb.
    assert (Hid : int64 (currentSize c - len b) = currentSize c - len b).
    { apply int64_id. unfold in_int64, min_int64, max_int64 in *. lia. }
    rewrite Hid.
    destruct (currentSize c - len b <=? target) eqn:Hcmp.
    + simpl. apply Z.leb_le in Hcmp. repeat split; auto.
      * lia.
      * apply delete_subseteq.
    + set (c1 := mkBlockCache (delete h (blocks c)) (maxSize c) (currentSize c - len b)).
      destruct (IH c1) as (Hmax & Hgap & Hsub & Hend); auto.
      * apply Forall_forall. intros [h' b'] Hel.
        rewrite Forall_forall in Hin. pose proof (Hin _ Hel) as Hlk. simpl in *.
        rewrite lookup_delete_ne; auto. intros ->. apply Hh.
        apply list_elem_of_fmap. by exists (h', b').
      * simpl. unfold max_int64 in *. lia.
      * repeat split.
        -- exact Hmax.
        -- rewrite Hgap. simpl. lia.
        -- etrans; [exact Hsub|]. apply delete_subseteq.
        -- destruct Hend as [Hle|Hall]; [by left|right].
           constructor; [|exact Hall]. simpl.
           eapply lookup_weaken_None; [|exact Hsub]. apply lookup_delete_eq.
Qed.

(** The loop deletes a prefix of the visiting order: the shortest non-empty
    one that brings the counter to the target, or the whole order. *)
Lemma evict_loop_prefix target order c :
  entries_size order <= currentSize c <= max_int64 ->
  exists k : nat,
    (k <= length order)%nat
    /\ (order <> [] -> (0 < k)%nat)
    /\ blocks (evict_loop target order c) = delete_all (take k order) (blocks c)
    /\ currentSize (evict_loop target order c)
       = currentSize c - entries_size (take k order)
    /\ maxSize (evict_loop target order c) = maxSize c
    /\ ((k < length order)%nat -> currentSize (evict_loop target order c) <= target)
    /\ (forall j : nat, (0 < j < k)%nat ->
          target < currentSize c - entries_size (take j order)).
Proof.
  revert c. induction order as [|[h b] rest IH]; intros c Hsz; simpl in *.
  - exists 0%nat. simpl. repeat split; auto; try lia; try congruence.
  - pose proof (entries_size_nonneg rest) as Hnn.
    pose proof (len_nonneg b) as Hb.
    assert (Hid : int64 (currentSize c - len b) = currentSize c - len b).
    { apply int64_id. unfold in_int64, min_int64, max_int64 in *. lia. }
    rewrite Hid.
    destruct (currentSize c - len b <=? target) eqn:Hcmp.
    + exists 1%nat. simpl. apply Z.leb_le in Hcmp.
      repeat split; auto; try lia.
    + set (c1 := mkBlockCache (delete h (blocks c)) (maxSize c) (currentSize c - len b)).
      destruct (IH c1) as (k & Hk & Hpos & Hbl & Hcs & Hmax & Hstop & Hmin).
      { simpl. lia. }
      exists (S k). simpl. repeat split; auto; try lia.
      * rewrite Hcs. simpl. lia.
      * intros j Hj. destruct j as [|j]; [lia|]. simpl.
        destruct j as [|j].
        -- rewrite take_0. simpl. apply Z.leb_gt in Hcmp. lia.
        -- specialize (Hmin (S j)). simpl in Hmin. lia.
Qed.

Section WithOracles.
Variable ipfs_cid : list Z -> string.
Variable map_range : nat -> gmap string (list Z) -> list (string * list Z).
Hypothesis map_range_perm : forall n m, map_range n m ≡ₚ map_to_list m.

Lemma range_NoDup n (m : gmap string (list Z)) : NoDup (map_range n m).*1.
Proof.
  rewrite (map_range_perm n m). apply NoDup_fst_map_to_list.
Qed.

Lemma range_lookup n (m : gmap string (list Z)) :
  Forall (fun e => m !! e.1 = Some e.2) (map_range n m).
Proof.
  apply Forall_forall. intros [h b] Hel. simpl.
  rewrite (map_range_perm n m) in Hel. by apply elem_of_map_to_list in Hel.
Qed.

Lemma range_all_gone n (m m' : gmap string (list Z)) :
  m' ⊆ m -> Forall (fun e => m' !! e.1 = None) (map_range n m) -> m' = ∅.
Proof.
  intros Hsub Hall. apply map_empty. intros h.
  destruct (m' !! h) as [b|] eqn:Hlk; [|done].
  pose proof (lookup_weaken _ _ _ _ Hlk Hsub) as Hm.
  apply elem_of_map_to_list in Hm. rewrite <- (map_range_perm n m) in Hm.
  rewrite Forall_forall in Hall. specialize (Hall _ Hm). simpl in Hall. congruence.
Qed.

(** [storeBlock] keeps the cache within its capacity. *)
Lemma storeBlock_inv cap block w :
  0 <= cap -> cap + len block <= max_int64 ->
  cache_inv cap (blockCache w) ->
  cache_inv cap (blockCache (storeBlock ipfs_cid map_range block w).2).
Proof.
  intros Hcap Hfit (Hmax & Hlo & Hhi).
  unfold storeBlock, bind, addToIPFS, modify, get, ret, cache_insert.
  destruct (ipfs_online w); simpl; [|by repeat split].
  set (h := ipfs_cid block). set (c := blockCache w) in *.
  pose proof (cache_bytes_nonneg (blocks c)) as Hnn.
  pose proof (len_nonneg block) as Hb.
  assert (Hid : int64 (currentSize c + len block) = currentSize c + len block).
  { apply int64_id. unfold in_int64, min_int64, max_int64 in *. lia. }
  pose proof (cache_bytes_insert (blocks c) h block) as Hins.
  pose proof (cache_bytes_delete_le (blocks c) h) as Hdl.
  pose proof (cache_bytes_nonneg (delete h (blocks c))) as Hdn.
  rewrite Hid.
  destruct (currentSize c + len block >? maxSize c) eqn:Hover; simpl.
  - unfold evict_in_order. simpl.
    set (c1 := mkBlockCache (<[h:=block]> (blocks c)) (maxSize c)
                 (currentSize c + len block)).
    destruct (evict_loop_spec (Z.quot (maxSize c) 2)
                (map_range (range_seed w) (blocks c1)) c1)
      as (Hm' & Hgap & Hsub & Hend).
    + apply range_NoDup.
    + apply range_lookup.
    + subst c1. simpl. unfold max_int64 in *. lia.
    + subst c1. simpl in *.
      set (c' := evict_loop _ _ _) in *.
      pose proof (cache_bytes_nonneg (blocks c')) as Hn'.
      split; [congruence|].
      destruct Hend as [Hle|Hall].
      * assert (Z.quot (maxSize c) 2 <= cap).
        { rewrite Hmax, Z.quot_div_nonneg by lia. apply Z.div_le_upper_bound; lia. }
        lia.
      * apply range_all_gone in Hall; [|exact Hsub].
        rewrite Hall, cache_bytes_empty in *. lia.
  - rewrite Z.gtb_ltb in Hover. apply Z.ltb_ge in Hover.
    unfold cache_inv. simpl. lia.
Qed.

Lemma retrieveBlock_cache hash w :
  blockCache (retrieveBlock hash w).2 = blockCache w.
Proof.
  unfold retrieveBlock, bind, modify, get, ret, catFromIPFS. simpl.
  destruct (blocks (blockCache w) !! hash); simpl; [done|].
  destruct (ipfs_online w); simpl; [|done].
  by destruct (ipfs_objects w !! hash).
Qed.

Lemma run_ops_inv cap ops w :
  0 <= cap -> Forall (fits cap) ops ->
  cache_inv cap (blockCache w) ->
  cache_inv cap (blockCache (run_ops ipfs_cid map_range ops w)).
Proof.
  intros Hcap. revert w. induction ops as [|op ops IH]; intros w Hfit Hinv; [done|].
  apply Forall_cons in Hfit as [Hop Hfit]. simpl. apply IH; [done|].
  destruct op as [block|hash]; simpl.
  - by apply storeBlock_inv.
  - by rewrite retrieveBlock_cache.
Qed.

End WithOracles.

End CacheTheory.

(** ** Claims about the block cache *)

Section CacheClaims.
Import Core CacheSpec.

(** C6. Starting from the empty cache that [NewRandomFS] creates with a
    non-negative capacity, after any sequence of [storeBlock] (Put) and
    [retrieveBlock] (Get) calls, whatever order the eviction loop visits
    the map in, the bytes held by the cache and the [currentSize] counter
    are both at most [maxSize]: an insertion that pushes the counter over
    the capacity runs the eviction before returning, and the eviction
    brings it back within the bound.  Block lengths are such that the
    64-bit counter cannot overflow. *)
Theorem cache_size_within_capacity
    (ipfs_cid : list Z -> string)
    (map_range : nat -> gmap string (list Z) -> list (string * list Z))
    (cap : Z) (ops : list cache_op) (w : World) :
  (forall n m, map_range n m ≡ₚ map_to_list m) ->
  0 <= cap ->
  blockCache w = NewBlockCache cap ->
  Forall (fits cap) ops ->
  let w' := run_ops ipfs_cid map_range ops w in
  maxSize (blockCache w') = cap
  /\ cache_bytes (blocks (blockCache w')) <= cap
  /\ currentSize (blockCache w') <= cap.
Proof.
  intros Hperm Hcap Hnew Hfit w'.
  destruct (run_ops_inv ipfs_cid map_range Hperm cap ops w Hcap Hfit) as (Hm & Hlo & Hhi).
  - rewrite Hnew. unfold cache_inv, NewBlockCache. simpl.
    rewrite cache_bytes_empty. lia.
  - subst w'. repeat split; auto. lia.
Qed.

(** The bound on a trace whose second Put evicts. *)
Lemma cache_size_within_capacity_witness :
  (forall n (m : gmap string (list Z)), Demo.range_rev n m ≡ₚ map_to_list m)
  /\ 0 <= 8
  /\ blockCache (fresh_world 8 [] 0) = NewBlockCache 8
  /\ Forall (fits 8) [Put [1; 2; 3; 4; 5]; Get "QmX"; Put [6; 7; 8; 9; 10]]
  /\ let w' := run_ops Demo.cid Demo.range_rev
                 [Put [1; 2; 3; 4; 5]; Get "QmX"; Put [6; 7; 8; 9; 10]]
                 (fresh_world 8 [] 0) in
     maxSize (blockCache w') = 8
     /\ cache_bytes (blocks (blockCache w')) <= 8
     /\ currentSize (blockCache w') <= 8.
Proof.
  assert (Hperm : forall n (m : gmap string (list Z)),
             Demo.range_rev n m ≡ₚ map_to_list m).
  { intros n m. apply reverse_Permutation. }
  assert (Hfit : Forall (fits 8) [Put [1; 2; 3; 4; 5]; Get "QmX"; Put [6; 7; 8; 9; 10]]).
  { repeat constructor; vm_compute; congruence. }
  split; [exact Hperm|]. split; [lia|]. split; [reflexivity|]. split; [exact Hfit|].
  apply (cache_size_within_capacity Demo.cid Demo.range_rev 8 _ (fresh_world 8 [] 0));
    [exact Hperm | lia | reflexivity | exact Hfit].
Defined.

(** C10 (the code breaks it). Storing the same block twice overwrites the
    map entry but adds the block's length to [currentSize] both times: with
    a three-byte block in a fresh cache of capacity 100 the counter reads 6
    while the map holds 3 bytes. *)
Theorem currentSize_counts_overwrite_twice
    (ipfs_cid : list Z -> string)
    (map_range : nat -> gmap string (list Z) -> list (string * list Z)) :
  let w' := run_ops ipfs_cid map_range [Put [1; 2; 3]; Put [1; 2; 3]]
              (fresh_world 100 [] 0) in
  currentSize (blockCache w') = 6
  /\ cache_bytes (blocks (blockCache w')) = 3
  /\ blocks (blockCache w') = {[ ipfs_cid [1; 2; 3] := [1; 2; 3] ]}.
Proof.
  cbn [run_ops foldl run_op].
  unfold storeBlock, bind, addToIPFS, modify, get, ret, cache_insert. simpl.
  rewrite insert_insert_eq.
  repeat split.
  unfold cache_bytes. rewrite insert_empty, map_to_list_singleton. reflexivity.
Qed.

(** The counter is exact as long as no stored hash is already cached. *)
Lemma cache_insert_fresh_exact hash block c :
  blocks c !! hash = None ->
  currentSize c = cache_bytes (blocks c) ->
  in_int64 (currentSize c + len block) ->
  currentSize (cache_insert hash block c)
  = cache_bytes (blocks (cache_insert hash block c)).
Proof.
  intros Hfresh Heq Hrange. unfold cache_insert. simpl.
  rewrite int64_id by exact Hrange.
  rewrite cache_bytes_insert_fresh by exact Hfresh. lia.
Qed.

End CacheClaims.

Section EvictionClaims.
Import Core CacheSpec.

(** C7 as stated fails.  Put A, Put B, Get A, Put C on a cache of capacity
    10 with four-byte blocks: the last Put raises the counter to 12 and
    evicts.  When the range visits the map in the order C, A, B the
    eviction removes C and A, the two most recently used entries, and
    keeps B, the least recently used one, ending at 40% of the capacity;
    with the opposite visiting order it removes B and A instead. *)
Lemma eviction_is_not_lru :
  let A := [1; 1; 1; 1] in
  let B := [2; 2; 2; 2] in
  let C := [3; 3; 3; 3] in
  let ops := [Put A; Put B; Get (Demo.cid A); Put C] in
  let log := accessed Demo.cid <$> ops in
  let w3 := run_ops Demo.cid Demo.range_fwd [Put A; Put B; Get (Demo.cid A)]
              (fresh_world 10 [] 0) in
  let before := blocks (cache_insert (Demo.cid C) C (blockCache w3)) in
  let after := blockCache (run_ops Demo.cid Demo.range_fwd ops (fresh_world 10 [] 0)) in
  let after_rev := blockCache (run_ops Demo.cid Demo.range_rev ops (fresh_world 10 [] 0)) in
  (forall n (m : gmap string (list Z)), Demo.range_fwd n m ≡ₚ map_to_list m)
  /\ ~ lru_eviction log before (blocks after)
  /\ blocks after = {[ Demo.cid B := B ]}
  /\ blocks after_rev = {[ Demo.cid C := C ]}
  /\ currentSize after = 4 /\ maxSize after = 10.
Proof.
  intros A B C ops log w3 before after after_rev.
  split; [intros n m; reflexivity|].
  assert (Hafter : blocks after = {[ Demo.cid B := B ]}).
  { apply map_eq. intros h.
    destruct (decide (h = Demo.cid B)) as [->|Hne].
    - rewrite lookup_singleton_eq. vm_compute. reflexivity.
    - rewrite lookup_singleton_ne by congruence.
      apply not_elem_of_dom. intros Hin.
      assert (Hd : dom (blocks after) = {[ Demo.cid B ]}) by (vm_compute; reflexivity).
      rewrite Hd in Hin. apply elem_of_singleton in Hin. congruence. }
  assert (Hrev : blocks after_rev = {[ Demo.cid C := C ]}).
  { apply map_eq. intros h.
    destruct (decide (h = Demo.cid C)) as [->|Hne].
    - rewrite lookup_singleton_eq. vm_compute. reflexivity.
    - rewrite lookup_singleton_ne by congruence.
      apply not_elem_of_dom. intros Hin.
      assert (Hd : dom (blocks after_rev) = {[ Demo.cid C ]}) by (vm_compute; reflexivity).
      rewrite Hd in Hin. apply elem_of_singleton in Hin. congruence. }
  split.
  - intros Hlru.
    specialize (Hlru (Demo.cid C) (Demo.cid B)).
    assert (Hlt : (last_access log (Demo.cid C) < last_access log (Demo.cid B))%nat).
    { apply Hlru.
      - exists C. vm_compute. reflexivity.
      - rewrite Hafter. apply lookup_singleton_ne. vm_compute. congruence.
      - exists B. rewrite Hafter. apply lookup_singleton_eq. }
    vm_compute in Hlt. lia.
  - split; [exact Hafter|]. split; [exact Hrev|].
    split; vm_compute; reflexivity.
Qed.

(** C7 as amended.  [evictOldestBlocks] deletes entries in the order in
    which the range over the cache map visits them, which may be any
    order: it deletes the shortest non-empty prefix of that order after
    which [currentSize] is at most [maxSize / 2], and every entry when no
    prefix gets there.  Nothing records when an entry was accessed:
    [retrieveBlock] leaves the cache as it found it. *)
Theorem eviction_follows_range_order
    (map_range : nat -> gmap string (list Z) -> list (string * list Z))
    (w : World) :
  (forall n m, map_range n m ≡ₚ map_to_list m) ->
  cache_bytes (blocks (blockCache w)) <= currentSize (blockCache w) <= max_int64 ->
  let c := blockCache w in
  let order := map_range (range_seed w) (blocks c) in
  let c' := blockCache (evictOldestBlocks map_range w).2 in
  (exists k : nat,
      (k <= length order)%nat
      /\ (order <> [] -> (0 < k)%nat)
      /\ blocks c' = delete_all (take k order) (blocks c)
      /\ currentSize c' = currentSize c - entries_size (take k order)
      /\ maxSize c' = maxSize c
      /\ ((k < length order)%nat -> currentSize c' <= Z.quot (maxSize c) 2)
      /\ (forall j : nat, (0 < j < k)%nat ->
            Z.quot (maxSize c) 2 < currentSize c - entries_size (take j order)))
  /\ (forall hash, blockCache (retrieveBlock hash w).2 = blockCache w).
Proof.
  intros Hperm Hsz c order c'. split; [|intros hash; apply retrieveBlock_cache].
  subst c'. unfold evictOldestBlocks, evict_in_order. simpl.
  apply evict_loop_prefix.
  subst order c. rewrite (entries_size_perm _ _ (Hperm _ _)). exact Hsz.
Qed.

(** The eviction of a cache of three four-byte blocks, counter at 12,
    capacity 10. *)
Lemma eviction_follows_range_order_witness :
  let m : gmap string (list Z) :=
    <[ "c"%string := [3; 3; 3; 3] ]>
      (<[ "b"%string := [2; 2; 2; 2] ]> (<[ "a"%string := [1; 1; 1; 1] ]> ∅)) in
  let w := with_cache (mkBlockCache m 10 12) (fresh_world 10 [] 0) in
  (forall n (m : gmap string (list Z)), Demo.range_rev n m ≡ₚ map_to_list m)
  /\ cache_bytes (blocks (blockCache w)) <= currentSize (blockCache w) <= max_int64
  /\ exists k : nat,
       blocks (blockCache (evictOldestBlocks Demo.range_rev w).2)
       = delete_all (take k (Demo.range_rev 0 m)) m
       /\ (0 < k)%nat.
Proof.
  intros m w.
  assert (Hperm : forall n (m : gmap string (list Z)),
             Demo.range_rev n m ≡ₚ map_to_list m).
  { intros n m'. apply reverse_Permutation. }
  assert (Hsz : cache_bytes (blocks (blockCache w)) <= currentSize (blockCache w) <= max_int64).
  { vm_compute. split; congruence. }
  split; [exact Hperm|]. split; [exact Hsz|].
  destruct (eviction_follows_range_order Demo.range_rev w Hperm Hsz)
    as [(k & _ & Hpos & Hbl & _) _].
  exists k. split; [exact Hbl|].
  apply Hpos. vm_compute. congruence.
Defined.

End EvictionClaims.

(** ** Block generation and de-randomization *)

Section CodecTheory.
Import Core CacheSpec.

Lemma xor_byte_cancel a b : xor_byte (xor_byte a b) b = a.
Proof.
  unfold xor_byte. rewrite Z.lxor_assoc, Z.lxor_nilpotent. apply Z.lxor_0_r.
Qed.

Lemma xor_byte_fixes_iff r c : xor_byte r c = c <-> r = 0.
Proof.
  unfold xor_byte. split.
  - intros H.
    assert (H' : Z.lxor (Z.lxor r c) c = Z.lxor c c) by (rewrite H; reflexivity).
    rewrite Z.lxor_assoc, Z.lxor_nilpotent, Z.lxor_0_r in H'. exact H'.
  - intros ->. apply Z.lxor_0_l.
Qed.

Lemma xor_into_length randomBlock chunk :
  length (xor_into randomBlock chunk) = length randomBlock.
Proof.
  revert randomBlock. induction chunk as [|c chunk IH]; intros [|r rb]; simpl; auto.
Qed.

(** The first [len(chunk)] bytes of a generated block are the chunk XORed
    with the random bytes. *)
Lemma xor_into_take randomBlock chunk :
  (length chunk <= length randomBlock)%nat ->
  take (length chunk) (xor_into randomBlock chunk)
  = zip_with xor_byte (take (length chunk) randomBlock) chunk.
Proof.
  revert randomBlock. induction chunk as [|c chunk IH]; intros [|r rb] Hlen; simpl in *;
    try lia; auto.
  f_equal. apply IH. lia.
Qed.

(** The fuel [generateRandomBlocks] gives its loop is enough: with a
    positive block size the loop ends, by returning the blocks or by
    reporting that the entropy source failed. *)
Lemma generate_loop_terminates fuel data blockSize offset acc w :
  0 < blockSize -> 0 <= offset ->
  len data + blockSize <= max_int64 ->
  (Z.to_nat (len data - offset) <= fuel)%nat ->
  (generate_loop fuel data blockSize offset acc w).1 <> Diverges
  /\ ~ panics (generate_loop fuel data blockSize offset acc w).1.
Proof.
  intros Hbs. revert offset acc w.
  induction fuel as [|fuel IH]; intros offset acc w Hoff Hmax Hfuel; simpl.
  - destruct (offset <? len data) eqn:Hlt.
    + apply Z.ltb_lt in Hlt. lia.
    + split; [discriminate|]. intros [msg H]. discriminate H.
  - destruct (offset <? len data) eqn:Hlt.
    2: { split; [discriminate|]. intros [msg H]. discriminate H. }
    apply Z.ltb_lt in Hlt.
    assert (Hid : int64 (offset + blockSize) = offset + blockSize).
    { apply int64_id. unfold in_int64, min_int64, max_int64 in *. lia. }
    rewrite Hid.
    assert (Hend : ((if offset + blockSize >? len data then len data
                     else offset + blockSize) <? offset) = false).
    { apply Z.ltb_ge. destruct (offset + blockSize >? len data); lia. }
    rewrite Hend. unfold bind, wrap_err, rand_Read.
    destruct (_ <=? _)%nat; simpl.
    + apply IH; [lia | lia | lia].
    + split; [discriminate|]. intros [msg H]. discriminate H.
Qed.

Lemma generateRandomBlocks_terminates data blockSize w :
  0 < blockSize -> len data + blockSize <= max_int64 ->
  (generateRandomBlocks data blockSize w).1 <> Diverges
  /\ ~ panics (generateRandomBlocks data blockSize w).1.
Proof.
  intros Hbs Hmax. apply generate_loop_terminates; auto; unfold len; lia.
Qed.

(** What [deRandomizeBlock] returns for a block that [generateRandomBlocks]
    built from [chunk] and the random bytes [randomBlock]. *)
Lemma deRandomizeBlock_generated randomBlock chunk :
  (length chunk <= length randomBlock)%nat ->
  deRandomizeBlock (xor_into randomBlock chunk) (len chunk)
  = Returned (zip_with xor_byte (take (length chunk) randomBlock) chunk).
Proof.
  intros Hlen. unfold deRandomizeBlock, len.
  rewrite xor_into_length.
  destruct (Z.of_nat (length chunk) <? 0) eqn:H1; [apply Z.ltb_lt in H1; lia|].
  destruct (Z.of_nat (length chunk) >? Z.of_nat (length randomBlock)) eqn:H2.
  { rewrite Z.gtb_ltb in H2. apply Z.ltb_lt in H2. lia. }
  rewrite Nat2Z.id. f_equal. by apply xor_into_take.
Qed.

Lemma zip_xor_fixes_iff mask chunk :
  length mask = length chunk ->
  zip_with xor_byte mask chunk = chunk <-> Forall (fun r => r = 0) mask.
Proof.
  revert chunk. induction mask as [|r mask IH]; intros [|c chunk] Hlen; simpl in *;
    try discriminate.
  - split; auto.
  - split.
    + intros H. injection H as Hh Ht. constructor.
      * by apply xor_byte_fixes_iff in Hh.
      * apply (IH chunk); [lia|done].
    + intros H. apply Forall_cons in H as [Hr Hm]. f_equal.
      * by apply xor_byte_fixes_iff.
      * apply IH; [lia|done].
Qed.

(** De-randomization gives the chunk back only when the random bytes that
    covered it were all zero. *)
Lemma deRandomizeBlock_recovers_iff randomBlock chunk :
  (length chunk <= length randomBlock)%nat ->
  deRandomizeBlock (xor_into randomBlock chunk) (len chunk) = Returned chunk
  <-> Forall (fun r => r = 0) (take (length chunk) randomBlock).
Proof.
  intros Hlen. rewrite deRandomizeBlock_generated by exact Hlen.
  rewrite <- (zip_xor_fixes_iff _ chunk) by (rewrite length_take; lia).
  split; [by intros [= ->]|by intros ->].
Qed.

Lemma nth_map_seq (f : nat -> Z) (n i : nat) :
  (i < n)%nat -> nth i (map f (seq 0 n)) 0 = f i.
Proof.
  intros Hi. rewrite (nth_indep _ 0 (f 0%nat)) by (rewrite length_map, length_seq; exact Hi).
  rewrite map_nth, seq_nth by exact Hi. reflexivity.
Qed.

Lemma map_seq_ext (f : nat -> Z) (n : nat) (l : list Z) :
  length l = n -> (forall i, (i < n)%nat -> f i = nth i l 0) -> map f (seq 0 n) = l.
Proof.
  intros Hlen Hf. apply (nth_ext _ _ 0 0).
  - rewrite length_map, length_seq. congruence.
  - intros i Hi. rewrite length_map, length_seq in Hi.
    rewrite nth_map_seq by exact Hi. by apply Hf.
Qed.

(** The codec of the research models: XOR with the two masks is undone by
    XOR with the same masks. *)
Lemma models_xor_round_trip payload target randomizer :
  length payload = Models.BlockLen ->
  Models.xor (Models.xor payload (Models.xor target randomizer))
             (Models.xor target randomizer) = payload.
Proof.
  intros Hlen. generalize (Models.xor target randomizer). intros mask.
  unfold Models.xor. revert Hlen. generalize Models.BlockLen. intros n Hlen.
  apply map_seq_ext; [exact Hlen|].
  intros i Hi. rewrite nth_map_seq by exact Hi. apply xor_byte_cancel.
Qed.

End CodecTheory.

(** ** Claims about the core engine *)

Section CoreClaims.
Import Core CacheSpec.

(** C1 (the code breaks it). [generateRandomBlocks] XORs the chunk into a
    block of fresh random bytes, but [deRandomizeBlock] only copies the
    first bytes of the stored block and applies no mask: for the ten bytes
    of "HelloWorld", block size 1024 and random bytes all equal to 255 it
    returns each byte XORed with 255, not the chunk. *)
Theorem deRandomizeBlock_returns_masked_bytes :
  let w0 := fresh_world 1048576 (repeat 255 1024) 0 in
  exists block w1,
    generateRandomBlocks Demo.hello 1024 w0 = (Returned [block], w1)
    /\ length block = 1024%nat
    /\ deRandomizeBlock block (len Demo.hello)
       = Returned ((fun b => Z.lxor 255 b) <$> Demo.hello)
    /\ deRandomizeBlock block (len Demo.hello) <> Returned Demo.hello.
Proof.
  eexists. eexists. split; [vm_compute; reflexivity|].
  split; [vm_compute; reflexivity|].
  split; [vm_compute; reflexivity|].
  vm_compute. congruence.
Qed.

(** C2 (the code breaks it). Storing "HelloWorld" selects block size 1024
    and records one block hash and file size 10; retrieving it returns ten
    bytes, trimmed by the recorded size, but they are the stored block's
    bytes, the file XORed with the random mask, not "HelloWorld". *)
Theorem RetrieveFile_returns_masked_file :
  let w0 := fresh_world 1048576 (repeat 255 1024) 1700000000 in
  let StoreFile := StoreFile Demo.cid Demo.range_fwd Demo.json_Marshal Demo.filepath_Base in
  let RetrieveFile := RetrieveFile Demo.json_Unmarshal in
  exists url w1 out rep w2,
    StoreFile "hello.txt"%string Demo.hello "text/plain"%string w0 = (Returned url, w1)
    /\ RetrieveFile (url_RepHash url) w1 = (Returned (out, rep), w2)
    /\ rep_BlockSize rep = 1024
    /\ length (rep_BlockHashes rep) = 1%nat
    /\ rep_FileSize rep = 10
    /\ len out = rep_FileSize rep
    /\ out = (fun b => Z.lxor 255 b) <$> Demo.hello
    /\ out <> Demo.hello.
Proof.
  intros w0 SF RF.
  pose (masked := (fun b => Z.lxor 255 b) <$> Demo.hello).
  assert (Hcheck :
    match SF "hello.txt"%string Demo.hello "text/plain"%string w0 with
    | (Returned url, w1) =>
        match RF (url_RepHash url) w1 with
        | (Returned (out, rep), _) =>
            bool_decide (rep_BlockSize rep = 1024)
            && bool_decide (length (rep_BlockHashes rep) = 1%nat)
            && bool_decide (rep_FileSize rep = 10)
            && bool_decide (out = masked)
        | _ => false
        end
    | _ => false
    end = true) by (vm_compute; reflexivity).
  destruct (SF "hello.txt"%string Demo.hello "text/plain"%string w0)
    as [[url| | |] w1]; try discriminate Hcheck.
  destruct (RF (url_RepHash url) w1) as [[[out rep]| | |] w2] eqn:H2;
    try discriminate Hcheck.
  apply andb_prop in Hcheck as [Hcheck Hout].
  apply andb_prop in Hcheck as [Hcheck Hfs].
  apply andb_prop in Hcheck as [Hbs Hn].
  apply bool_decide_eq_true in Hout, Hfs, Hbs, Hn.
  exists url, w1, out, rep, w2.
  split; [reflexivity|]. split; [exact H2|]. split; [exact Hbs|].
  split; [exact Hn|]. split; [exact Hfs|].
  split; [rewrite Hfs, Hout; vm_compute; reflexivity|].
  split; [exact Hout|]. rewrite Hout. vm_compute. congruence.
Qed.

(** C9 (the code breaks it). [ParseRandomURL] lets through a path of
    exactly four segments and then reads [parts[4]]: whenever the URL
    parses with scheme "rd" and its trimmed path splits into four segments
    of which the second and the fourth are integers, the call panics with
    an index out of range instead of returning a value or an error. *)
Theorem ParseRandomURL_panics_on_four_segments
    (url_Parse : string -> string + URL) (rawURL : string) (u : URL)
    (p0 p1 p2 p3 : string) (fileSize timestamp : Z) :
  url_Parse rawURL = inr u ->
  Scheme u = "rd"%string ->
  strings_Split_slash (strings_Trim_slash (Path u)) = [p0; p1; p2; p3] ->
  strconv_ParseInt p1 = inr fileSize ->
  strconv_ParseInt p3 = inr timestamp ->
  ParseRandomURL url_Parse rawURL = Panicked "index out of range".
Proof.
  intros Hparse Hscheme Hparts Hsize Htime.
  unfold ParseRandomURL. rewrite Hparse, Hscheme, Hparts. simpl.
  rewrite Hsize. simpl. rewrite Htime. reflexivity.
Qed.

(** The URL [rd://randomfs/v4/10/file.txt/1700000000]. *)
Lemma ParseRandomURL_panics_on_four_segments_witness :
  let rawURL := "rd://randomfs/v4/10/file.txt/1700000000"%string in
  let u := mkURL "rd" "randomfs" "/v4/10/file.txt/1700000000" in
  Demo.url_Parse rawURL = inr u
  /\ Scheme u = "rd"%string
  /\ strings_Split_slash (strings_Trim_slash (Path u))
     = ["v4"; "10"; "file.txt"; "1700000000"]%string
  /\ strconv_ParseInt "10" = inr 10
  /\ strconv_ParseInt "1700000000" = inr 1700000000
  /\ ParseRandomURL Demo.url_Parse rawURL = Panicked "index out of range".
Proof.
  intros rawURL u.
  split; [reflexivity|]. split; [reflexivity|]. split; [reflexivity|].
  split; [reflexivity|]. split; [reflexivity|].
  apply (ParseRandomURL_panics_on_four_segments Demo.url_Parse rawURL u
           "v4" "10" "file.txt" "1700000000" 10 1700000000); reflexivity.
Defined.

(** With a fifth segment, as [RandomURL.String] prints it, the same URL
    parses. *)
Example ParseRandomURL_five_segments :
  ParseRandomURL Demo.url_Parse
    (RandomURL_String (mkRandomURL "rd" "randomfs" "v4" "file.txt" 10 "QmRep" 1700000000))
  = Returned (mkRandomURL "rd" "randomfs" "v4" "file.txt" 10 "QmRep" 1700000000).
Proof. vm_compute. reflexivity. Qed.

End CoreClaims.

(** ** The manifest registry *)

Section RegistryTheory.
Import Models.

Variable sha256 : list Z -> list Z.

(** A store that finds the file hash in the registry bumps the score of
    the registered manifest and touches nothing else. *)
Lemma StoreFile_hit fileName fileData password w p mf :
  manifestRegistry w !! sha256 fileData = Some p ->
  manifests w !! p = Some mf ->
  Library.StoreFile sha256 fileName fileData password w
  = (Returned (0, p), with_manifests (<[p := Library.bump_score mf]> (manifests w)) w).
Proof.
  intros Hreg Hheap. unfold Library.StoreFile, bind, get, modify, ret.
  rewrite Hreg, Hheap. reflexivity.
Qed.

(** After a store that returned, the file hash is registered and points
    to a manifest: the bumped old one after a hit, a new one with score 1
    after a miss. *)
Lemma StoreFile_registers fileName fileData password w n p w1 :
  Library.StoreFile sha256 fileName fileData password w = (Returned (n, p), w1) ->
  manifestRegistry w1 !! sha256 fileData = Some p
  /\ exists mf, manifests w1 !! p = Some mf
       /\ (manifestRegistry w !! sha256 fileData = None -> PopularityScore mf = 1).
Proof.
  unfold Library.StoreFile, bind, get, modify, ret, panic.
  destruct (manifestRegistry w !! sha256 fileData) as [p0|] eqn:Hreg.
  - destruct (manifests w !! p0) as [mf0|] eqn:Hheap; [|discriminate].
    intros [= <- <- <-]. simpl. split; [exact Hreg|].
    exists (Library.bump_score mf0). split; [|discriminate].
    apply list_lookup_insert_eq. by eapply lookup_lt_Some.
  - destruct (Library.store_loop sha256 0 _ [] 0 w) as [[stored| | |] w'];
      try discriminate.
    intros [= <- <- <-]. simpl. split; [apply lookup_insert_eq|].
    eexists. split; [apply list_lookup_middle; reflexivity|]. reflexivity.
Qed.

End RegistryTheory.

Section RegistryClaims.
Import Models.

(** C3. Whenever a call of [StoreFile] has returned, a second call with
    the same bytes (and the same password; the file name may differ)
    returns zero new blocks and the same manifest, leaves the registry,
    the stored blocks and the popularity map as they were, allocates no
    manifest, and increments that manifest's [PopularityScore] by one (a
    Go [++], exactly one more unless the 64-bit counter is at its
    maximum); when the first call was the first store of the content, the
    score is 2 afterwards. *)
Theorem second_store_costs_nothing
    (sha256 : list Z -> list Z)
    (fileName fileName' : string) (fileData : list Z) (password : string)
    (w w1 : World) (n : Z) (p : nat) :
  Library.StoreFile sha256 fileName fileData password w = (Returned (n, p), w1) ->
  exists w2 mf1 mf2,
    Library.StoreFile sha256 fileName' fileData password w1 = (Returned (0, p), w2)
    /\ manifestRegistry w2 = manifestRegistry w1
    /\ length (manifests w2) = length (manifests w1)
    /\ networkStorage w2 = networkStorage w1
    /\ blockPopularity w2 = blockPopularity w1
    /\ manifests w1 !! p = Some mf1
    /\ manifests w2 !! p = Some mf2
    /\ PopularityScore mf2 = int64 (PopularityScore mf1 + 1)
    /\ (min_int64 <= PopularityScore mf1 < max_int64 ->
        PopularityScore mf2 = PopularityScore mf1 + 1)
    /\ (manifestRegistry w !! sha256 fileData = None -> PopularityScore mf2 = 2).
Proof.
  intros Hfirst.
  destruct (StoreFile_registers sha256 _ _ _ _ _ _ _ Hfirst) as (Hreg & mf1 & Hheap & Hnew).
  exists (with_manifests (<[p := Library.bump_score mf1]> (manifests w1)) w1),
    mf1, (Library.bump_score mf1).
  split; [by apply StoreFile_hit|].
  split; [reflexivity|]. split; [apply length_insert|].
  split; [reflexivity|]. split; [reflexivity|]. split; [exact Hheap|].
  split; [apply list_lookup_insert_eq; by eapply lookup_lt_Some|].
  split; [reflexivity|]. split.
  - intros Hlt. simpl. apply int64_id.
    unfold in_int64, min_int64, max_int64 in *. lia.
  - intros Hmiss. simpl. rewrite (Hnew Hmiss). reflexivity.
Qed.

End RegistryClaims.

(** ** The Top-100 pool *)

Section PoolFrame.
Import Models PoolSpec.

Lemma keeps_pool_ret {A} (a : A) : keeps_pool (ret a).
Proof. by intros w. Qed.

Lemma keeps_pool_lift {A} (o : outcome A) : keeps_pool (lift o).
Proof. by intros w. Qed.

Lemma keeps_pool_panic {A} msg : keeps_pool (@panic World A msg).
Proof. by intros w. Qed.

Lemma keeps_pool_fail {A} err : keeps_pool (@fail World A err).
Proof. by intros w. Qed.

Lemma keeps_pool_get : keeps_pool (@get World).
Proof. by intros w. Qed.

Lemma keeps_pool_modify (f : World -> World) :
  (forall w, top100Blocks (f w) = top100Blocks w) -> keeps_pool (modify f).
Proof. intros Hf w. apply Hf. Qed.

Lemma keeps_pool_bind {A B} (m : M World A) (k : A -> M World B) :
  keeps_pool m -> (forall a, keeps_pool (k a)) -> keeps_pool (bind m k).
Proof.
  intros Hm Hk w. unfold bind. specialize (Hm w).
  destruct (m w) as [[a| | |] w']; simpl in *; try exact Hm.
  rewrite Hk. exact Hm.
Qed.

Lemma keeps_pool_void {A} (m : M World A) :
  keeps_pool m -> forall w, top100Blocks (PoolSpec.void (m w)).2 = top100Blocks w.
Proof. intros Hm w. apply Hm. Qed.

End PoolFrame.

Ltac keeps_pool_step :=
  first
    [ apply keeps_pool_ret | apply keeps_pool_lift | apply keeps_pool_panic
    | apply keeps_pool_fail | apply keeps_pool_get
    | apply keeps_pool_modify; intros; reflexivity
    | apply keeps_pool_bind; [|intros]
    | match goal with
      | |- PoolSpec.keeps_pool (if ?c then _ else _) => destruct c
      | |- PoolSpec.keeps_pool (match ?x with _ => _ end) => destruct x
      end ].

Ltac keeps_pool_auto := repeat keeps_pool_step.

Section PoolTheory.
Import Models PoolSpec.

Variable sha256 : list Z -> list Z.
Variable pop_range : nat -> gmap (list Z) Z -> list (list Z * Z).
Variable sort_Slice : list (list Z * Z) -> list (list Z * Z).
Variable geometric : nat -> Z.

Lemma keeps_pool_randInt max : keeps_pool (randInt max).
Proof.
  intros w. unfold randInt. destruct (entropy w); [done|]. by destruct (max =? 0).
Qed.

Lemma keeps_pool_populate_loop base n : keeps_pool (populate_loop sha256 base n).
Proof.
  induction n as [|n IH]; simpl; [apply keeps_pool_ret|].
  apply keeps_pool_bind; [by intros w|intros block].
  apply keeps_pool_bind; [keeps_pool_auto|intros _].
  apply keeps_pool_bind; [apply keeps_pool_randInt|intros r].
  apply keeps_pool_bind; [keeps_pool_auto|intros _]. exact IH.
Qed.

Lemma keeps_pool_selectPopularBlocks : keeps_pool Library.selectPopularBlocks.
Proof.
  unfold Library.selectPopularBlocks.
  apply keeps_pool_bind; [apply keeps_pool_get|intros w].
  destruct (len (top100Blocks w) <? 2); [apply keeps_pool_panic|].
  apply keeps_pool_bind; [apply keeps_pool_randInt|intros idx1].
  apply keeps_pool_bind; [apply keeps_pool_randInt|intros idx2].
  keeps_pool_auto.
Qed.

Lemma keeps_pool_store_encrypted i block :
  keeps_pool (Library.store_encrypted sha256 i block).
Proof.
  unfold Library.store_encrypted.
  apply keeps_pool_bind; [apply keeps_pool_get|intros w].
  destruct (networkStorage w !! _); [apply keeps_pool_ret|].
  apply keeps_pool_bind; [apply keeps_pool_selectPopularBlocks|intros selected].
  keeps_pool_auto.
Qed.

Lemma keeps_pool_store_loop i blocks descriptors n :
  keeps_pool (Library.store_loop sha256 i blocks descriptors n).
Proof.
  revert i descriptors n. induction blocks as [|b blocks IH]; intros i descriptors n; simpl.
  - apply keeps_pool_ret.
  - apply keeps_pool_bind; [apply keeps_pool_store_encrypted|intros stored]. apply IH.
Qed.

Lemma keeps_pool_StoreFile fileName fileData password :
  keeps_pool (Library.StoreFile sha256 fileName fileData password).
Proof.
  unfold Library.StoreFile.
  apply keeps_pool_bind; [apply keeps_pool_get|intros w].
  destruct (manifestRegistry w !! _).
  - destruct (manifests w !! _); keeps_pool_auto.
  - apply keeps_pool_bind; [apply keeps_pool_store_loop|intros stored].
    keeps_pool_auto.
Qed.

Lemma keeps_pool_retrieve_loop password i descriptors data :
  keeps_pool (Library.retrieve_loop sha256 password i descriptors data).
Proof.
  revert i data. induction descriptors as [|d descriptors IH]; intros i data; simpl.
  - apply keeps_pool_ret.
  - apply keeps_pool_bind; [|intros block; apply IH].
    unfold Library.retrieve_block. keeps_pool_auto.
Qed.

Lemma keeps_pool_RetrieveFile manifest password startBlock :
  keeps_pool (Library.RetrieveFile sha256 manifest password startBlock).
Proof.
  unfold Library.RetrieveFile.
  apply keeps_pool_bind; [apply keeps_pool_get|intros w].
  destruct (manifests w !! _); [|apply keeps_pool_panic].
  destruct (startBlock <? 0); [apply keeps_pool_panic|].
  apply keeps_pool_bind; [apply keeps_pool_retrieve_loop|intros data].
  keeps_pool_auto.
Qed.

Lemma keeps_pool_selectBlockWithDP original salt :
  keeps_pool (Privacy.selectBlockWithDP sha256 geometric original salt).
Proof.
  unfold Privacy.selectBlockWithDP.
  apply keeps_pool_bind; [apply keeps_pool_get|intros w].
  destruct (len (top100Blocks w) =? 0); [apply keeps_pool_panic|].
  apply keeps_pool_bind; [by intros w'|intros noise].
  apply keeps_pool_bind; [apply keeps_pool_randInt|intros coin].
  apply keeps_pool_lift.
Qed.

Lemma keeps_pool_Store block : keeps_pool (Privacy.Store sha256 geometric block).
Proof.
  unfold Privacy.Store.
  apply keeps_pool_bind; [apply keeps_pool_get|intros w].
  destruct (len (top100Blocks w) <? 2); [apply keeps_pool_ret|].
  apply keeps_pool_bind; [apply keeps_pool_selectBlockWithDP|intros targetHash].
  apply keeps_pool_bind; [apply keeps_pool_selectBlockWithDP|intros randomizerHash].
  keeps_pool_auto.
Qed.

(** [updateTop100] never leaves more than 100 entries in the pool. *)
Lemma updateTop100_bound w :
  (length (top100Blocks (updateTop100 pop_range sort_Slice w).2) <= 100)%nat.
Proof.
  unfold updateTop100. simpl. rewrite length_fmap, length_take. lia.
Qed.

Lemma populateInitialNetwork_bound base numBlocks w :
  (length (top100Blocks w) <= 100)%nat ->
  (length (top100Blocks
     (populateInitialNetwork sha256 pop_range sort_Slice base numBlocks w).2) <= 100)%nat.
Proof.
  intros Hw. unfold populateInitialNetwork, bind.
  pose proof (keeps_pool_populate_loop base (Z.to_nat numBlocks) w) as Hk.
  destruct (populate_loop sha256 base (Z.to_nat numBlocks) w) as [[[]| | |] w'];
    simpl in *; try (rewrite Hk; exact Hw).
  apply updateTop100_bound.
Qed.

Lemma library_step_bound op w :
  (length (top100Blocks w) <= 100)%nat ->
  (length (top100Blocks (library_step sha256 pop_range sort_Slice op w).2) <= 100)%nat.
Proof.
  intros Hw. destruct op; simpl.
  - rewrite (keeps_pool_StoreFile _ _ _ w). exact Hw.
  - rewrite (keeps_pool_RetrieveFile _ _ _ w). exact Hw.
  - by apply populateInitialNetwork_bound.
  - apply updateTop100_bound.
Qed.

Lemma privacy_step_bound op w :
  (length (top100Blocks w) <= 100)%nat ->
  (length (top100Blocks (privacy_step sha256 pop_range sort_Slice geometric op w).2)
   <= 100)%nat.
Proof.
  intros Hw. destruct op; simpl.
  - rewrite (keeps_pool_Store _ w). exact Hw.
  - by apply populateInitialNetwork_bound.
  - apply updateTop100_bound.
Qed.

Lemma run_bound {Op} (step : Op -> World -> outcome unit * World) ops w :
  (forall op w, (length (top100Blocks w) <= 100)%nat ->
                (length (top100Blocks (step op w).2) <= 100)%nat) ->
  (length (top100Blocks w) <= 100)%nat ->
  (length (top100Blocks (run step ops w)) <= 100)%nat.
Proof.
  intros Hstep. revert w. induction ops as [|op ops IH]; intros w Hw; simpl; [exact Hw|].
  specialize (Hstep op w Hw).
  destruct (step op w) as [[[]| | |] w']; simpl in *; auto.
Qed.

(** *** Which entries the pool keeps *)

Global Instance more_popular_trans : Transitive more_popular.
Proof. intros x y z. unfold more_popular. lia. Qed.

Global Instance more_popular_total : Total more_popular.
Proof. intros x y. unfold more_popular. lia. Qed.

Lemma NoDup_snd_inj {A} (l : list (A * Z)) a b p :
  NoDup l.*2 -> (a, p) ∈ l -> (b, p) ∈ l -> a = b.
Proof.
  induction l as [|[c q] l IH]; simpl; intros Hnd Ha Hb.
  - by apply elem_of_nil in Ha.
  - apply NoDup_cons in Hnd as [Hq Hnd].
    apply elem_of_cons in Ha as [Ha|Ha]; apply elem_of_cons in Hb as [Hb|Hb].
    + congruence.
    + injection Ha as -> ->. exfalso. apply Hq.
      apply list_elem_of_fmap. by exists (b, q).
    + injection Hb as -> ->. exfalso. apply Hq.
      apply list_elem_of_fmap. by exists (a, q).
    + by apply IH.
Qed.

Hypothesis pop_range_perm : forall n m, pop_range n m ≡ₚ map_to_list m.
Hypothesis sort_Slice_perm : forall l, sort_Slice l ≡ₚ l.
Hypothesis sort_Slice_sorted : forall l, Sorted more_popular (sort_Slice l).

(** After [updateTop100] the pool holds the [min 100 n] most popular of
    the [n] blocks, strictly so when no two blocks are equally popular. *)
Lemma updateTop100_most_popular w :
  NoDup (map_to_list (blockPopularity w)).*2 ->
  let w' := (updateTop100 pop_range sort_Slice w).2 in
  blockPopularity w' = blockPopularity w
  /\ length (top100Blocks w') = Nat.min 100 (size (blockPopularity w))
  /\ holds_most_popular (top100Blocks w') (blockPopularity w).
Proof.
  intros Hdistinct. unfold updateTop100. simpl.
  set (pop := blockPopularity w) in *.
  set (sorted := sort_Slice (pop_range (range_seed w) pop)).
  assert (Hperm : sorted ≡ₚ map_to_list pop).
  { subst sorted. rewrite sort_Slice_perm. apply pop_range_perm. }
  assert (Hin : forall h p, (h, p) ∈ sorted <-> pop !! h = Some p).
  { intros h p. rewrite Hperm. apply elem_of_map_to_list. }
  assert (Hss : StronglySorted more_popular (take 100 sorted ++ drop 100 sorted)).
  { rewrite take_drop. apply Sorted_StronglySorted; [apply _|]. apply sort_Slice_sorted. }
  split; [reflexivity|]. split.
  { rewrite length_fmap, length_take, Hperm, length_map_to_list. reflexivity. }
  split; [|split].
  - rewrite fmap_take. apply (sublist_NoDup _ sorted.*1); [|apply sublist_take].
    rewrite Hperm. apply NoDup_fst_map_to_list.
  - intros h Hh. apply list_elem_of_fmap in Hh as ([h0 p] & -> & Hp). simpl.
    exists p. apply Hin. eapply subseteq_take, Hp.
  - intros h h' p p' Hh Hh' Hp Hp'.
    apply list_elem_of_fmap in Hh as ([h0 p0] & -> & Hp0). simpl in *.
    assert (p0 = p) as ->.
    { apply subseteq_take, Hin in Hp0. congruence. }
    assert (Hd : (h', p') ∈ drop 100 sorted).
    { apply Hin in Hp'. rewrite <- (take_drop 100 sorted) in Hp'.
      apply elem_of_app in Hp' as [Hp'|Hp']; [|exact Hp'].
      exfalso. apply Hh'. apply list_elem_of_fmap. by exists (h', p'). }
    pose proof (StronglySorted_app_1_elem_of _ _ _ _ _ Hss Hp0 Hd) as Hle.
    unfold more_popular in Hle. simpl in Hle.
    destruct (decide (p' = p)) as [->|Hne]; [|lia].
    exfalso. apply Hh'.
    assert (h' = h0) as ->.
    { eapply (NoDup_snd_inj (map_to_list pop)); [exact Hdistinct| |].
      - apply elem_of_map_to_list. exact Hp'.
      - apply elem_of_map_to_list. exact Hp. }
    apply list_elem_of_fmap. by exists (h0, p).
Qed.

End PoolTheory.

(** ** Claims about the pool and the selection of masks *)

Section PoolClaims.
Import Models PoolSpec.

(** C4. In every state either research model reaches from its initial
    state by storing, retrieving, populating and recomputing the pool,
    [top100Blocks] holds at most 100 entries.  And when the popularity map
    holds 150 blocks of pairwise different popularity, [updateTop100]
    leaves exactly 100 of them in the pool, each strictly more popular than
    each of the 50 left out.  This holds for every order in which the range
    walks the map and every sorting [sort.Slice] may produce. *)
Theorem top100_pool_bounded_and_most_popular
    (sha256 : list Z -> list Z)
    (pop_range : nat -> gmap (list Z) Z -> list (list Z * Z))
    (sort_Slice : list (list Z * Z) -> list (list Z * Z))
    (geometric : nat -> Z) :
  (forall n m, pop_range n m ≡ₚ map_to_list m) ->
  (forall l, sort_Slice l ≡ₚ l) ->
  (forall l, Sorted more_popular (sort_Slice l)) ->
  (forall ops ent now,
      (length (top100Blocks
         (run (library_step sha256 pop_range sort_Slice) ops (initial ent now)))
       <= 100)%nat)
  /\ (forall ops ent now,
      (length (top100Blocks
         (run (privacy_step sha256 pop_range sort_Slice geometric) ops (initial ent now)))
       <= 100)%nat)
  /\ (forall w,
      size (blockPopularity w) = 150%nat ->
      NoDup (map_to_list (blockPopularity w)).*2 ->
      let w' := (updateTop100 pop_range sort_Slice w).2 in
      length (top100Blocks w') = 100%nat
      /\ holds_most_popular (top100Blocks w') (blockPopularity w)).
Proof.
  intros Hrange Hperm Hsorted. split; [|split].
  - intros ops ent now. apply run_bound; [|simpl; lia].
    intros op w. apply library_step_bound.
  - intros ops ent now. apply run_bound; [|simpl; lia].
    intros op w. apply privacy_step_bound.
  - intros w Hsize Hdistinct w'.
    destruct (updateTop100_most_popular pop_range sort_Slice
                Hrange Hperm Hsorted w Hdistinct) as (_ & Hlen & Hmost).
    split; [|exact Hmost]. subst w'. rewrite Hlen, Hsize. reflexivity.
Qed.

(** A run of the anonymous library, and the pool computed from 150
    blocks of popularity 1 to 150. *)
Lemma top100_pool_bounded_and_most_popular_witness :
  let ops := [LPopulate 3; LStoreFile "hello.txt" Demo.hello "secret"; LUpdateTop100] in
  let ent := repeat 7 4500 in
  (forall n (m : gmap (list Z) Z), Demo.range_rev n m ≡ₚ map_to_list m)
  /\ (forall l, Demo.sort_Slice l ≡ₚ l)
  /\ (forall l, Sorted more_popular (Demo.sort_Slice l))
  /\ size (blockPopularity DemoWorld.crowded) = 150%nat
  /\ NoDup (map_to_list (blockPopularity DemoWorld.crowded)).*2
  /\ (length (top100Blocks
        (run (library_step Demo.sha256 Demo.range_rev Demo.sort_Slice) ops (initial ent 0)))
      <= 100)%nat
  /\ let w' := (updateTop100 Demo.range_rev Demo.sort_Slice DemoWorld.crowded).2 in
     length (top100Blocks w') = 100%nat
     /\ holds_most_popular (top100Blocks w') (blockPopularity DemoWorld.crowded).
Proof.
  intros ops ent.
  assert (H1 : forall n (m : gmap (list Z) Z), Demo.range_rev n m ≡ₚ map_to_list m).
  { intros n m. apply reverse_Permutation. }
  assert (H2 : forall l, Demo.sort_Slice l ≡ₚ l).
  { intros l. apply merge_sort_Permutation. }
  assert (H3 : forall l, Sorted more_popular (Demo.sort_Slice l)).
  { intros l. apply Sorted_merge_sort. apply _. }
  assert (H4 : size (blockPopularity DemoWorld.crowded) = 150%nat).
  { vm_compute. reflexivity. }
  assert (H5 : NoDup (map_to_list (blockPopularity DemoWorld.crowded)).*2).
  { apply (bool_decide_unpack _). vm_compute. reflexivity. }
  destruct (top100_pool_bounded_and_most_popular Demo.sha256 Demo.range_rev
              Demo.sort_Slice Demo.geometric_zero H1 H2 H3) as (Hlib & _ & Hmost).
  split; [exact H1|]. split; [exact H2|]. split; [exact H3|].
  split; [exact H4|]. split; [exact H5|].
  split; [apply Hlib|]. apply (Hmost DemoWorld.crowded H4 H5).
Defined.

(** The pool computed for the 150 blocks of the example: the blocks of
    popularity 150 down to 51. *)
Example updateTop100_of_150 :
  top100Blocks (updateTop100 Demo.range_rev Demo.sort_Slice DemoWorld.crowded).2
  = (fun i => [Z.of_nat i]) <$> reverse (seq 51 100).
Proof. vm_compute. reflexivity. Qed.

(** C5 as stated fails. On the empty pool [selectPopularBlocks] does not
    return at all, with an error or otherwise: it panics.  The
    connector-privacy [Store] returns 0 new blocks and no error. *)
Lemma empty_pool_gives_no_error :
  let w := initial [] 0 in
  Library.selectPopularBlocks w = (Panicked "Top 100 pool not populated", w)
  /\ ~ (exists err, (Library.selectPopularBlocks w).1 = Failed err)
  /\ ~ returns (Library.selectPopularBlocks w).1
  /\ forall sha256 geometric block,
       Privacy.Store sha256 geometric block w = (Returned 0, w).
Proof.
  intros w. split; [reflexivity|]. split; [|split].
  - intros [err H]. discriminate H.
  - intros [v H]. discriminate H.
  - intros sha256 geometric block. reflexivity.
Qed.

Lemma chunkFile_cons data :
  data <> [] -> exists rest, Library.chunkFile data = Library.chunk data 0 :: rest.
Proof.
  intros Hne. unfold Library.chunkFile.
  assert (Hpos : (0 < Z.to_nat (Z.quot (len data + Z.of_nat BlockLen - 1)
                                       (Z.of_nat BlockLen)))%nat).
  { destruct data as [|b data]; [done|]. unfold len, BlockLen. simpl length.
    rewrite Z.quot_div_nonneg by lia.
    assert (1 <= (Z.of_nat (S (length data)) + Z.of_nat 4096 - 1) / Z.of_nat 4096); [|lia].
    apply Z.div_le_lower_bound; lia. }
  destruct (Z.to_nat _) as [|n]; [lia|]. simpl. eauto.
Qed.

(** C5 as amended. When the pool holds fewer than two entries,
    [selectPopularBlocks] panics with "Top 100 pool not populated" and
    changes nothing; no caller recovers, so storing an encrypted block that
    is not yet on the network panics, and so does [StoreFile] of an
    unregistered file whose first encrypted block is not yet stored; there
    is no fallback to freshly generated blocks.  The connector-privacy
    [Store] returns 0 and changes nothing. *)
Theorem pool_underflow_panics_or_skips
    (sha256 : list Z -> list Z) (geometric : nat -> Z) (w : World) :
  len (top100Blocks w) < 2 ->
  Library.selectPopularBlocks w = (Panicked "Top 100 pool not populated", w)
  /\ (forall i block,
        networkStorage w !! hash sha256 block = None ->
        Library.store_encrypted sha256 i block w
        = (Panicked "Top 100 pool not populated", w))
  /\ (forall fileName fileData password,
        fileData <> [] ->
        manifestRegistry w !! sha256 fileData = None ->
        networkStorage w
          !! hash sha256 (Library.deterministicEncrypt sha256
                            (Library.chunk fileData 0) password 0) = None ->
        Library.StoreFile sha256 fileName fileData password w
        = (Panicked "Top 100 pool not populated", w))
  /\ (forall block, Privacy.Store sha256 geometric block w = (Returned 0, w)).
Proof.
  intros Hlen. apply Z.ltb_lt in Hlen.
  assert (Hsel : Library.selectPopularBlocks w
                 = (Panicked "Top 100 pool not populated", w)).
  { unfold Library.selectPopularBlocks, bind, get, panic. by rewrite Hlen. }
  assert (Henc : forall i block,
             networkStorage w !! hash sha256 block = None ->
             Library.store_encrypted sha256 i block w
             = (Panicked "Top 100 pool not populated", w)).
  { intros i block Hmiss. unfold Library.store_encrypted, bind, get.
    rewrite Hmiss. fold (@bind World). unfold bind. by rewrite Hsel. }
  split; [exact Hsel|]. split; [exact Henc|]. split.
  - intros fileName fileData password Hne Hreg Hmiss.
    unfold Library.StoreFile, bind, get. rewrite Hreg.
    destruct (chunkFile_cons fileData Hne) as [rest ->].
    cbn [imap Library.store_loop]. unfold bind.
    change (Z.of_nat 0) with 0. by rewrite (Henc 0 _ Hmiss).
  - intros block. unfold Privacy.Store, bind, get, ret. by rewrite Hlen.
Qed.

(** The initial state, whose pool is empty. *)
Lemma pool_underflow_panics_or_skips_witness :
  let w := initial [1; 2; 3] 0 in
  len (top100Blocks w) < 2
  /\ Library.selectPopularBlocks w = (Panicked "Top 100 pool not populated", w)
  /\ Library.StoreFile Demo.sha256 "hello.txt" Demo.hello "secret" w
     = (Panicked "Top 100 pool not populated", w)
  /\ Privacy.Store Demo.sha256 Demo.geometric_zero DemoWorld.blockA w = (Returned 0, w).
Proof.
  intros w.
  assert (Hlen : len (top100Blocks w) < 2) by (vm_compute; reflexivity).
  destruct (pool_underflow_panics_or_skips Demo.sha256 Demo.geometric_zero w Hlen)
    as (Hsel & _ & Hstore & Hdp).
  split; [exact Hlen|]. split; [exact Hsel|]. split; [|apply Hdp].
  apply Hstore; [vm_compute; congruence | reflexivity | reflexivity].
Defined.

End PoolClaims.

(** ** Selection of the two masks *)

Section SelectionTheory.
Import Models.

(** With noise that cancels the base choice, [selectBlockWithDP] returns
    the first entry of the pool. *)
Lemma selectBlockWithDP_first sha256 geometric original salt w h rest ent :
  top100Blocks w = h :: rest ->
  (length (top100Blocks w) <= 100)%nat ->
  entropy w = 0 :: ent ->
  geometric (draws w)
  = Z.rem (nth 0 (sha256 (original ++ bytes_of_string salt)) 0) (len (top100Blocks w)) ->
  Privacy.selectBlockWithDP sha256 geometric original salt w
  = (Returned h, with_entropy ent (with_draws (S (draws w)) w)).
Proof.
  intros Hpool Hbound Hent Hgeo.
  unfold Privacy.selectBlockWithDP, bind, get, Privacy.next_geometric, randInt, lift.
  set (n := len (top100Blocks w)) in *.
  set (x := nth 0 (sha256 (original ++ bytes_of_string salt)) 0) in *.
  assert (Hn : 1 <= n <= 100).
  { subst n. unfold len. rewrite Hpool in *. simpl length in *. lia. }
  assert (Hbase : - n < Z.rem x n < n).
  { assert (Hne : n <> 0) by lia.
    pose proof (Z.rem_bound_abs x n Hne) as Habs. lia. }
  assert (H1 : int64 (- Z.rem x n) = - Z.rem x n).
  { apply int64_id. unfold in_int64, min_int64, max_int64. lia. }
  destruct (n =? 0) eqn:Hz; [apply Z.eqb_eq in Hz; lia|].
  cbn [fst snd with_draws entropy]. rewrite Hent.
  change (2 =? 0) with false. cbn [fst snd].
  change (Z.rem 0 2 =? 0) with true. cbn iota.
  rewrite Hgeo, H1, Z.add_opp_diag_r.
  change (int64 0) with 0. rewrite Z.rem_0_l by lia.
  change (0 <? 0) with false. cbn iota.
  unfold index_hash. change (0 <? 0) with false. cbn iota.
  cbn [with_entropy top100Blocks with_draws]. rewrite Hpool. reflexivity.
Qed.

End SelectionTheory.

Section SelectionClaims.
Import Models DemoWorld.

(** C8 (the code breaks it). Neither model retries when the two draws
    coincide.  With a pool of two different blocks and two random bytes
    equal to zero, [selectPopularBlocks] returns the same hash as target
    and as randomizer.  In the connector-privacy model, for every hash
    function and every original block there are noise values for which
    [selectBlockWithDP] returns the same hash for the salts "target" and
    "randomizer". *)
Theorem target_and_randomizer_can_coincide
    (sha256 : list Z -> list Z) (original : list Z) :
  let w := populated [0; 0] in
  hashA <> hashB
  /\ top100Blocks w = [hashA; hashB]
  /\ Library.selectPopularBlocks w = (Returned (hashA, hashA), with_entropy [] w)
  /\ exists (geometric : nat -> Z) (w1 w2 : World),
       Privacy.selectBlockWithDP sha256 geometric original "target" w
       = (Returned hashA, w1)
       /\ Privacy.selectBlockWithDP sha256 geometric original "randomizer" w1
          = (Returned hashA, w2).
Proof.
  intros w. split; [vm_compute; congruence|]. split; [reflexivity|].
  split; [vm_compute; reflexivity|].
  set (bt := Z.rem (nth 0 (sha256 (original ++ bytes_of_string "target")) 0) 2).
  set (br := Z.rem (nth 0 (sha256 (original ++ bytes_of_string "randomizer")) 0) 2).
  exists (fun n => if Nat.eqb n 0 then bt else br).
  eexists. eexists. split.
  - apply (selectBlockWithDP_first _ _ _ _ w hashA [hashB] [0]);
      [reflexivity | simpl; lia | reflexivity | reflexivity].
  - apply (selectBlockWithDP_first _ _ _ _ _ hashA [hashB] []);
      [reflexivity | simpl; lia | reflexivity | reflexivity].
Qed.

(** When the two masks coincide they cancel: the connector block that is
    stored is the block that was to be hidden. *)
Lemma equal_masks_cancel payload mask :
  length payload = BlockLen -> xor payload (xor mask mask) = payload.
Proof.
  intros Hlen. unfold xor. revert Hlen. generalize BlockLen. intros n Hlen.
  apply map_seq_ext; [exact Hlen|].
  intros i Hi. rewrite nth_map_seq by exact Hi.
  unfold xor_byte. rewrite Z.lxor_nilpotent. apply Z.lxor_0_r.
Qed.

(** "HelloWorld" stored twice on a network of two popular blocks: one
    new block the first time, none the second, score 2. *)
Lemma second_store_costs_nothing_witness :
  let w := populated [0; 1] in
  let first := Library.StoreFile Demo.sha256 "hello.txt" Demo.hello "secret" w in
  first.1 = Returned (1, 0%nat)
  /\ exists w2 mf2,
       Library.StoreFile Demo.sha256 "copy.txt" Demo.hello "secret" first.2
       = (Returned (0, 0%nat), w2)
       /\ manifestRegistry w2 = manifestRegistry first.2
       /\ manifests w2 !! 0%nat = Some mf2
       /\ PopularityScore mf2 = 2.
Proof.
  intros w first.
  assert (H1 : first.1 = Returned (1, 0%nat)) by (vm_compute; reflexivity).
  assert (Hfirst : Library.StoreFile Demo.sha256 "hello.txt" Demo.hello "secret" w
                   = (Returned (1, 0%nat), first.2)).
  { rewrite <- H1. apply surjective_pairing. }
  destruct (second_store_costs_nothing Demo.sha256 "hello.txt" "copy.txt" Demo.hello
              "secret" w first.2 1 0%nat Hfirst)
    as (w2 & mf1 & mf2 & Hsecond & Hreg & _ & _ & _ & _ & Hmf2 & _ & _ & Hfresh).
  split; [exact H1|]. exists w2, mf2.
  split; [exact Hsecond|]. split; [exact Hreg|]. split; [exact Hmf2|].
  apply Hfresh. reflexivity.
Defined.

End SelectionClaims.

(** * Further properties *)

(** ** Storing and retrieving one block *)

Section BlockRoundTrip.
Import Core CacheSpec.

Variable ipfs_cid : list Z -> string.
Variable map_range : nat -> gmap string (list Z) -> list (string * list Z).

(** Eviction only deletes: what the cache holds afterwards it held
    before, whatever order the entries are visited in. *)
Lemma evict_loop_subseteq target order c :
  blocks (evict_loop target order c) ⊆ blocks c.
Proof.
  revert c. induction order as [|[h b] rest IH]; intros c; simpl; [done|].
  destruct (_ <=? _).
  - apply delete_subseteq.
  - etrans; [apply IH|]. apply delete_subseteq.
Qed.

(** What [storeBlock] leaves behind when it returns: the daemon answers
    and holds the block under the returned hash, and the cache holds under
    that hash either the block or nothing. *)
Lemma storeBlock_returned block w hash w1 :
  storeBlock ipfs_cid map_range block w = (Returned hash, w1) ->
  hash = ipfs_cid block
  /\ ipfs_online w1 = true
  /\ ipfs_objects w1 = <[hash := block]> (ipfs_objects w)
  /\ blocks (blockCache w1) ⊆ <[hash := block]> (blocks (blockCache w))
  /\ stats w1 = stats w
  /\ entropy w1 = entropy w
  /\ clock w1 = clock w.
Proof.
  unfold storeBlock, bind, addToIPFS, modify, get, ret, cache_insert.
  destruct (ipfs_online w) eqn:Hon; [|discriminate]. simpl.
  destruct (_ >? _); simpl; intros [= <- <-]; simpl; repeat split; auto.
  apply evict_loop_subseteq.
Qed.

End BlockRoundTrip.

Section BlockRoundTripClaims.
Import Core CacheSpec.

(** X1. A block that [storeBlock] stored is what [retrieveBlock] returns
    for the hash [storeBlock] answered, whether the block is still cached
    or was evicted by the very call that stored it (it then comes from the
    daemon); the retrieval changes neither the cache nor the daemon. *)
Theorem stored_block_is_retrievable
    (ipfs_cid : list Z -> string)
    (map_range : nat -> gmap string (list Z) -> list (string * list Z))
    (block : list Z) (w w1 : World) (hash : string) :
  storeBlock ipfs_cid map_range block w = (Returned hash, w1) ->
  exists w2,
    retrieveBlock hash w1 = (Returned block, w2)
    /\ blockCache w2 = blockCache w1
    /\ ipfs_objects w2 = ipfs_objects w1.
Proof.
  intros Hstore.
  destruct (storeBlock_returned _ _ _ _ _ _ Hstore)
    as (_ & Hon & Hobj & Hsub & _).
  unfold retrieveBlock, bind, get, modify, ret, catFromIPFS. simpl.
  destruct (blocks (blockCache w1) !! hash) as [b|] eqn:Hc; simpl.
  - pose proof (lookup_weaken _ _ _ _ Hc Hsub) as Hb.
    rewrite lookup_insert_eq in Hb. injection Hb as ->.
    eexists. split; [reflexivity|]. split; reflexivity.
  - unfold with_stats; cbn [ipfs_online ipfs_objects].
    rewrite Hon, Hobj, lookup_insert_eq.
    eexists. split; [reflexivity|]. split; reflexivity.
Qed.

(** A block of five bytes stored in a cache of capacity four is evicted at
    once and still retrieved. *)
Lemma stored_block_is_retrievable_witness :
  let w := fresh_world 4 [] 0 in
  let r := storeBlock Demo.cid Demo.range_fwd [1; 2; 3; 4; 5] w in
  r = (Returned (Demo.cid [1; 2; 3; 4; 5]), r.2)
  /\ blocks (blockCache r.2) = ∅
  /\ exists w2, retrieveBlock (Demo.cid [1; 2; 3; 4; 5]) r.2
                = (Returned [1; 2; 3; 4; 5], w2).
Proof.
  intros w r.
  assert (H1 : r = (Returned (Demo.cid [1; 2; 3; 4; 5]), r.2)).
  { rewrite (surjective_pairing r) at 1. f_equal. }
  split; [exact H1|]. split; [reflexivity|].
  destruct (stored_block_is_retrievable Demo.cid Demo.range_fwd [1; 2; 3; 4; 5]
              w r.2 _ H1)
    as (w2 & Hget & _).
  exists w2. exact Hget.
Defined.

(** X2. An insertion that pushes the counter over the capacity leaves at
    most half the capacity in the cache, whatever the visiting order: the
    eviction stops at [maxSize / 2] and may remove the block that was just
    stored. *)
Theorem overflowing_store_leaves_half
    (ipfs_cid : list Z -> string)
    (map_range : nat -> gmap string (list Z) -> list (string * list Z))
    (cap : Z) (block : list Z) (w : World) :
  (forall n m, map_range n m ≡ₚ map_to_list m) ->
  0 <= cap -> cap + len block <= max_int64 ->
  cache_inv cap (blockCache w) ->
  ipfs_online w = true ->
  cap < currentSize (blockCache w) + len block ->
  let w' := (storeBlock ipfs_cid map_range block w).2 in
  cache_bytes (blocks (blockCache w')) <= Z.quot cap 2
  /\ currentSize (blockCache w') <= cap
  /\ range_seed w' = S (range_seed w).
Proof.
  intros Hperm Hcap Hfit Hinv Hon Hover w'.
  pose proof (storeBlock_inv ipfs_cid map_range Hperm cap block w Hcap Hfit Hinv)
    as (Hm' & Hlo' & Hhi').
  fold w' in Hm', Hlo', Hhi'.
  destruct Hinv as (Hmax & Hlo & Hhi).
  split; [|split; [exact Hhi'|]]; subst w';
    unfold storeBlock, bind, addToIPFS, modify, get, ret, cache_insert in *;
    rewrite Hon in *; simpl in *.
  - set (h := ipfs_cid block) in *. set (c := blockCache w) in *.
    pose proof (cache_bytes_nonneg (blocks c)) as Hnn.
    pose proof (len_nonneg block) as Hb.
    assert (Hid : int64 (currentSize c + len block) = currentSize c + len block).
    { apply int64_id. unfold in_int64, min_int64, max_int64 in *. lia. }
    rewrite Hid in *.
    assert (Hgt : (currentSize c + len block >? maxSize c) = true).
    { rewrite Z.gtb_ltb. apply Z.ltb_lt. lia. }
    rewrite Hgt in *. simpl in *. unfold evict_in_order in *. simpl in *.
    set (c1 := mkBlockCache (<[h:=block]> (blocks c)) (maxSize c)
                 (currentSize c + len block)) in *.
    pose proof (cache_bytes_insert (blocks c) h block) as Hins.
    pose proof (cache_bytes_delete_le (blocks c) h) as Hdl.
    destruct (evict_loop_spec (Z.quot (maxSize c) 2)
                (map_range (range_seed w) (blocks c1)) c1)
      as (_ & Hgap & Hsub & Hend).
    + apply range_NoDup, Hperm.
    + apply range_lookup, Hperm.
    + subst c1. simpl. unfold max_int64 in *. lia.
    + rewrite <- Hmax. destruct Hend as [Hle|Hall].
      * subst c1. simpl in *. lia.
      * apply (range_all_gone _ Hperm) in Hall; [|exact Hsub].
        subst c1. simpl in *. rewrite Hall, cache_bytes_empty.
        rewrite Z.quot_div_nonneg by lia. apply Z.div_pos; lia.
  - set (c := blockCache w) in *.
    assert (Hid : int64 (currentSize c + len block) = currentSize c + len block).
    { apply int64_id. pose proof (cache_bytes_nonneg (blocks c)).
      pose proof (len_nonneg block).
      unfold in_int64, min_int64, max_int64 in *. lia. }
    rewrite Hid.
    assert (Hgt : (currentSize c + len block >? maxSize c) = true).
    { rewrite Z.gtb_ltb. apply Z.ltb_lt. lia. }
    rewrite Hgt. reflexivity.
Qed.

Lemma overflowing_store_leaves_half_witness :
  let w := run_ops Demo.cid Demo.range_rev [Put [1; 2; 3; 4; 5]] (fresh_world 8 [] 0) in
  (forall n (m : gmap string (list Z)), Demo.range_rev n m ≡ₚ map_to_list m)
  /\ 0 <= 8 /\ 8 + len [6; 7; 8; 9; 10] <= max_int64
  /\ cache_inv 8 (blockCache w)
  /\ ipfs_online w = true
  /\ 8 < currentSize (blockCache w) + len [6; 7; 8; 9; 10]
  /\ cache_bytes (blocks (blockCache
       (storeBlock Demo.cid Demo.range_rev [6; 7; 8; 9; 10] w).2)) <= 4.
Proof.
  intros w.
  assert (Hperm : forall n (m : gmap string (list Z)),
             Demo.range_rev n m ≡ₚ map_to_list m).
  { intros n m. apply reverse_Permutation. }
  assert (Hfit : 8 + len [6; 7; 8; 9; 10] <= max_int64) by (vm_compute; congruence).
  assert (Hinv : cache_inv 8 (blockCache w)).
  { split; [reflexivity|]. vm_compute. split; congruence. }
  assert (Hover : 8 < currentSize (blockCache w) + len [6; 7; 8; 9; 10]).
  { vm_compute. reflexivity. }
  split; [exact Hperm|]. split; [lia|]. split; [exact Hfit|]. split; [exact Hinv|].
  split; [reflexivity|]. split; [exact Hover|].
  apply (overflowing_store_leaves_half Demo.cid Demo.range_rev 8 _ w Hperm
           ltac:(lia) Hfit Hinv eq_refl Hover).
Defined.

End BlockRoundTripClaims.

(** ** Storing and retrieving a file *)

Section PipelineTheory.
Import Core CacheSpec CoreSpec.

Variable ipfs_cid : list Z -> string.
Variable map_range : nat -> gmap string (list Z) -> list (string * list Z).

Lemma take_min_length {A} (l : list A) (n : nat) :
  take (Nat.min n (length l)) l = take n l.
Proof.
  destruct (le_lt_dec n (length l)).
  - by rewrite Nat.min_l.
  - rewrite Nat.min_r by lia. rewrite !take_ge by lia. done.
Qed.

Lemma with_entropy_twice e e' w : with_entropy e (with_entropy e' w) = with_entropy e w.
Proof. reflexivity. Qed.

(** [generateRandomBlocks] computes the expected blocks and consumes one
    block size of random bytes per block. *)
Lemma generate_loop_spec (bs : nat) fuel data o acc w :
  (0 < bs)%nat ->
  len data + Z.of_nat bs <= max_int64 ->
  (length (drop o data) <= fuel)%nat ->
  (bs * length (expected_blocks fuel bs (drop o data) (entropy w))
     <= length (entropy w))%nat ->
  generate_loop fuel data (Z.of_nat bs) (Z.of_nat o) acc w
  = (Returned (acc ++ expected_blocks fuel bs (drop o data) (entropy w)),
     with_entropy
       (drop (bs * length (expected_blocks fuel bs (drop o data) (entropy w)))
             (entropy w)) w).
Proof.
  intros Hbs Hmax. revert o acc w.
  induction fuel as [|fuel IH]; intros o acc w Hfuel Hent.
  - apply Nat.le_0_r, length_zero_iff_nil in Hfuel.
    assert (Hge : (length data <= o)%nat).
    { destruct (le_lt_dec (length data) o) as [|Hlt]; [done|].
      apply (f_equal length) in Hfuel. rewrite length_drop in Hfuel. simpl in Hfuel. lia. }
    simpl. unfold len.
    destruct (Z.of_nat o <? Z.of_nat (length data)) eqn:Hlt;
      [apply Z.ltb_lt in Hlt; lia|].
    rewrite app_nil_r, Nat.mul_0_r. unfold ret.
    destruct w; reflexivity.
  - cbn [generate_loop]. unfold len in *.
    destruct (drop o data) as [|x rest] eqn:Hrest.
    + assert (Hge : (length data <= o)%nat).
      { destruct (le_lt_dec (length data) o) as [|Hlt]; [done|].
        apply (f_equal length) in Hrest. rewrite length_drop in Hrest.
        simpl in Hrest. lia. }
      destruct (Z.of_nat o <? Z.of_nat (length data)) eqn:Hlt;
        [apply Z.ltb_lt in Hlt; lia|].
      simpl. rewrite app_nil_r, Nat.mul_0_r. unfold ret.
      destruct w; reflexivity.
    + assert (Hlt : (o < length data)%nat).
      { destruct (le_lt_dec (length data) o) as [Hge|]; [|done].
        rewrite drop_ge in Hrest by exact Hge. discriminate. }
      assert (Hcmp : (Z.of_nat o <? Z.of_nat (length data)) = true)
        by (apply Z.ltb_lt; lia).
      rewrite Hcmp.
      assert (Hid : int64 (Z.of_nat o + Z.of_nat bs) = Z.of_nat (o + bs)).
      { rewrite int64_id; [lia|].
        unfold in_int64, min_int64, max_int64 in *. lia. }
      rewrite Hid.
      set (end_ := if Z.of_nat (o + bs) >? Z.of_nat (length data)
                   then Z.of_nat (length data) else Z.of_nat (o + bs)).
      assert (Hend : end_ = Z.of_nat (o + Nat.min bs (length data - o))).
      { subst end_. destruct (_ >? _) eqn:Hgt.
        - rewrite Z.gtb_ltb in Hgt. apply Z.ltb_lt in Hgt. lia.
        - rewrite Z.gtb_ltb in Hgt. apply Z.ltb_ge in Hgt. lia. }
      rewrite Hend.
      destruct (Z.of_nat (o + Nat.min bs (length data - o)) <? Z.of_nat o) eqn:Hpanic;
        [apply Z.ltb_lt in Hpanic; lia|].
      assert (Hchunk : take (Z.to_nat (Z.of_nat (o + Nat.min bs (length data - o))
                                       - Z.of_nat o)) (drop (Z.to_nat (Z.of_nat o)) data)
                       = take bs (x :: rest)).
      { rewrite Nat2Z.id, <- Hrest.
        replace (Z.to_nat _) with (Nat.min bs (length (drop o data)))
          by (rewrite length_drop; lia).
        apply take_min_length. }
      rewrite Hchunk.
      cbn [expected_blocks] in Hent |- *. simpl length in Hent.
      unfold bind at 1. unfold wrap_err, rand_Read. rewrite Nat2Z.id.
      assert (Hread : (bs <=? length (entropy w))%nat = true).
      { apply Nat.leb_le. lia. }
      rewrite Hread.
      assert (Hdrop : drop (o + bs) data = drop bs (x :: rest)).
      { rewrite <- Hrest, drop_drop. reflexivity. }
      rewrite (IH (o + bs)%nat).
      * cbn [entropy with_entropy]. rewrite Hdrop.
        rewrite <- app_assoc. simpl app. simpl length.
        rewrite drop_drop, with_entropy_twice. f_equal. f_equal. f_equal. lia.
      * rewrite Hdrop, length_drop. simpl length in *. lia.
      * cbn [entropy with_entropy]. rewrite Hdrop, length_drop. lia.
Qed.

(** Every expected block has the block size. *)
Lemma expected_blocks_lengths fuel bs data ent :
  (bs * length (expected_blocks fuel bs data ent) <= length ent)%nat ->
  Forall (fun b => length b = bs) (expected_blocks fuel bs data ent).
Proof.
  revert data ent. induction fuel as [|fuel IH]; intros data ent Hent; [constructor|].
  destruct data as [|x data]; [constructor|].
  cbn [expected_blocks] in *. simpl length in Hent. constructor.
  - rewrite xor_into_length, length_take. lia.
  - apply IH. rewrite length_drop. lia.
Qed.

(** There are as many blocks as the file has runs of [bs] bytes, the last
    run possibly shorter. *)
Lemma expected_blocks_count fuel bs data ent :
  (0 < bs)%nat -> (length data <= fuel)%nat ->
  length (expected_blocks fuel bs data ent) = ((length data + bs - 1) / bs)%nat.
Proof.
  intros Hbs. revert data ent.
  induction fuel as [|fuel IH]; intros data ent Hfuel.
  - destruct data; [|simpl in Hfuel; lia]. simpl.
    symmetry. apply Nat.div_small. lia.
  - destruct data as [|x data].
    + simpl. symmetry. apply Nat.div_small. lia.
    + cbn [expected_blocks]. simpl length. rewrite IH.
      2: { rewrite length_drop. simpl in *. lia. }
      rewrite length_drop. simpl length.
      destruct (le_lt_dec bs (S (length data))) as [Hle|Hlt].
      * replace (S (length data) + bs - 1)%nat
          with ((S (length data) - bs + bs - 1) + 1 * bs)%nat by lia.
        rewrite Nat.div_add by lia. lia.
      * replace (S (length data) - bs + bs - 1)%nat with (bs - 1)%nat by lia.
        rewrite (Nat.div_small (bs - 1)) by lia.
        replace (S (length data) + bs - 1)%nat with (length data + 1 * bs)%nat by lia.
        rewrite Nat.div_add by lia. rewrite Nat.div_small by lia. reflexivity.
Qed.

Lemma zip_with_xor_app (a a' b b' : list Z) :
  length a = length b ->
  zip_with xor_byte (a ++ a') (b ++ b')
  = zip_with xor_byte a b ++ zip_with xor_byte a' b'.
Proof.
  revert b. induction a as [|x a IH]; intros [|y b] Hlen; simpl in *;
    try discriminate; [done|].
  f_equal. apply IH. lia.
Qed.

(** The blocks, laid end to end and cut at the length of the file, are
    the file XORed with the random bytes. *)
Lemma expected_blocks_concat fuel bs data ent :
  (0 < bs)%nat -> (length data <= fuel)%nat ->
  (bs * length (expected_blocks fuel bs data ent) <= length ent)%nat ->
  take (length data) (concat (expected_blocks fuel bs data ent)) = masked data ent.
Proof.
  intros Hbs. revert data ent.
  induction fuel as [|fuel IH]; intros data ent Hfuel Hent.
  - destruct data; [reflexivity|simpl in Hfuel; lia].
  - destruct data as [|x data]; [reflexivity|].
    cbn [expected_blocks] in *. simpl length in Hent.
    set (d := x :: data) in *.
    assert (Hblk : length (xor_into (take bs ent) (take bs d)) = bs).
    { rewrite xor_into_length, length_take. lia. }
    cbn [concat].
    destruct (le_lt_dec (length d) bs) as [Hle|Hlt].
    + rewrite take_app_le by lia.
      rewrite (take_ge d bs) by lia.
      rewrite xor_into_take by (rewrite length_take; lia).
      unfold masked.
      assert (Ht : take (length d) (take bs ent) = take (length d) ent).
      { rewrite take_take. f_equal. lia. }
      rewrite Ht. reflexivity.
    + rewrite take_app_ge by lia. rewrite Hblk.
      assert (Hrest : (length (drop bs d) = length d - bs)%nat) by apply length_drop.
      rewrite <- Hrest.
      rewrite IH; [|rewrite Hrest; subst d; simpl in *; lia|rewrite length_drop; lia].
      unfold masked.
      rewrite <- (take_drop bs d) at 5.
      replace (take (length d) ent)
        with (take bs ent ++ take (length (drop bs d)) (drop bs ent)).
      2: { rewrite Hrest. rewrite <- (take_drop bs ent) at 3.
           rewrite take_app_ge by (rewrite length_take; lia).
           rewrite length_take. do 2 f_equal. lia. }
      rewrite zip_with_xor_app by (rewrite !length_take; lia).
      f_equal.
      pose proof (xor_into_take (take bs ent) (take bs d)) as Hx.
      rewrite !length_take in Hx.
      replace (Nat.min bs (length d)) with bs in Hx by lia.
      rewrite take_ge in Hx by (rewrite Hblk; lia).
      rewrite (take_ge (take bs ent)) in Hx by (rewrite length_take; lia).
      apply Hx. lia.
Qed.

(** *** Reassembly *)

Lemma deRandomizeBlock_prefix (b : list Z) (n : nat) :
  (n <= length b)%nat -> Z.of_nat n <= max_int64 ->
  deRandomizeBlock b (Z.of_nat n) = Returned (take n b).
Proof.
  intros Hn Hmax. unfold deRandomizeBlock, len.
  destruct (Z.of_nat n <? 0) eqn:H1; [apply Z.ltb_lt in H1; lia|].
  destruct (Z.of_nat n >? Z.of_nat (length b)) eqn:H2.
  { rewrite Z.gtb_ltb in H2. apply Z.ltb_lt in H2. lia. }
  by rewrite Nat2Z.id.
Qed.

Lemma reassemble_cons blockSize fileSize b b' rest reconstructed :
  reassemble blockSize fileSize (b :: b' :: rest) reconstructed
  = obind (deRandomizeBlock b blockSize)
      (fun d => reassemble blockSize fileSize (b' :: rest) (reconstructed ++ d)).
Proof. reflexivity. Qed.

(** With blocks of the block size and a file size that ends inside the
    last block, reassembly returns the blocks laid end to end and cut at
    the file size. *)
Lemma reassemble_take (bs : nat) (fileSize : nat) blks reconstructed :
  Forall (fun b => length b = bs) blks ->
  Z.of_nat fileSize <= max_int64 ->
  (blks <> [] ->
     length reconstructed + (length blks - 1) * bs <= fileSize
     <= length reconstructed + length blks * bs)%nat ->
  reassemble (Z.of_nat bs) (Z.of_nat fileSize) blks reconstructed
  = Returned (reconstructed
              ++ take (fileSize - length reconstructed) (concat blks)).
Proof.
  intros Hlen Hmax. revert reconstructed.
  induction Hlen as [|b blks Hb Hblks IH]; intros R Hsize.
  - simpl. by rewrite take_nil, app_nil_r.
  - specialize (Hsize ltac:(discriminate)). simpl length in Hsize.
    destruct blks as [|b' blks']; simpl length in Hsize.
    + cbn [reassemble]. unfold len.
      assert (Hid : int64 (Z.of_nat fileSize - Z.of_nat (length R))
                    = Z.of_nat (fileSize - length R)).
      { rewrite int64_id; [lia|]. unfold in_int64, min_int64, max_int64 in *. lia. }
      rewrite Hid, deRandomizeBlock_prefix by lia.
      simpl. by rewrite app_nil_r.
    + rewrite reassemble_cons.
      rewrite (deRandomizeBlock_prefix b bs) by lia.
      cbn [obind]. rewrite take_ge by lia.
      rewrite IH.
      2: { intros _. rewrite length_app. simpl length in *. lia. }
      rewrite <- app_assoc. f_equal.
      change (concat (b :: b' :: blks')) with (b ++ concat (b' :: blks')).
      rewrite take_app_ge by (simpl length in *; lia).
      rewrite length_app. do 3 f_equal. lia.
Qed.

(** *** The store loop *)

Lemma available_ext w w' b :
  ipfs_objects w' = ipfs_objects w -> blockCache w' = blockCache w ->
  available ipfs_cid w b -> available ipfs_cid w' b.
Proof. unfold available. by intros -> ->. Qed.

Lemma storeBlock_online block w :
  ipfs_online w = true ->
  exists w1, storeBlock ipfs_cid map_range block w = (Returned (ipfs_cid block), w1).
Proof.
  intros Hon. unfold storeBlock, bind, addToIPFS, modify, get, ret. rewrite Hon. simpl.
  destruct (_ >? _); eauto.
Qed.

(** A store makes its block available and keeps available every block
    that does not collide with it. *)
Lemma storeBlock_available block w hash w1 :
  storeBlock ipfs_cid map_range block w = (Returned hash, w1) ->
  available ipfs_cid w1 block
  /\ (forall b, (ipfs_cid block = ipfs_cid b -> block = b) ->
                available ipfs_cid w b -> available ipfs_cid w1 b).
Proof.
  intros Hstore.
  destruct (storeBlock_returned _ _ _ _ _ _ Hstore) as (-> & _ & Hobj & Hsub & _).
  split.
  - split.
    + rewrite Hobj. apply lookup_insert_eq.
    + intros b' Hb'. pose proof (lookup_weaken _ _ _ _ Hb' Hsub) as H.
      rewrite lookup_insert_eq in H. congruence.
  - intros b Hcol [Ho Hc]. split.
    + rewrite Hobj. destruct (decide (ipfs_cid block = ipfs_cid b)) as [He|Hne].
      * rewrite He, lookup_insert_eq. f_equal. by apply Hcol.
      * by rewrite lookup_insert_ne.
    + intros b' Hb'. pose proof (lookup_weaken _ _ _ _ Hb' Hsub) as H.
      destruct (decide (ipfs_cid block = ipfs_cid b)) as [He|Hne].
      * rewrite He, lookup_insert_eq in H. injection H as <-. by apply Hcol.
      * rewrite lookup_insert_ne in H by exact Hne. by apply Hc.
Qed.

Lemma store_blocks_spec blks acc w :
  ipfs_online w = true ->
  exists w',
    store_blocks ipfs_cid map_range blks acc w
    = (Returned (acc ++ (ipfs_cid <$> blks)), w')
    /\ ipfs_online w' = true /\ stats w' = stats w
    /\ entropy w' = entropy w /\ clock w' = clock w
    /\ (forall b, (forall b2, b2 ∈ blks -> ipfs_cid b2 = ipfs_cid b -> b2 = b) ->
                  available ipfs_cid w b -> available ipfs_cid w' b)
    /\ (collision_free ipfs_cid blks -> forall b, b ∈ blks -> available ipfs_cid w' b).
Proof.
  revert acc w. induction blks as [|block blks IH]; intros acc w Hon.
  - exists w. simpl. rewrite app_nil_r.
    split; [reflexivity|]. split; [exact Hon|]. do 3 (split; [reflexivity|]).
    split; [auto|]. intros _ x Hx. by apply elem_of_nil in Hx.
  - destruct (storeBlock_online block w Hon) as [w1 Hstore].
    destruct (storeBlock_returned _ _ _ _ _ _ Hstore)
      as (_ & Hon1 & _ & _ & Hst1 & Hent1 & Hck1).
    destruct (storeBlock_available _ _ _ _ Hstore) as [Hav1 Hkeep1].
    destruct (IH (acc ++ [ipfs_cid block]) w1 Hon1)
      as (w' & Hloop & Hon' & Hst' & Hent' & Hck' & Hkeep' & Hall').
    exists w'. cbn [store_blocks]. unfold bind at 1. unfold wrap_err.
    rewrite Hstore, Hloop. rewrite <- app_assoc. simpl.
    split; [reflexivity|]. split; [exact Hon'|].
    split; [congruence|]. split; [congruence|]. split; [congruence|]. split.
    + intros b Hcol Hav. apply Hkeep'.
      * intros b2 Hb2. apply Hcol. by right.
      * apply Hkeep1; [|exact Hav]. apply Hcol. by left.
    + intros Hfree b Hb. apply elem_of_cons in Hb as [->|Hb].
      * apply Hkeep'; [|exact Hav1].
        intros b2 Hb2 He. apply Hfree; [by right|by left|exact He].
      * apply Hall'; [|exact Hb].
        intros x y Hx Hy. apply Hfree; by right.
Qed.

(** *** The retrieve loop *)

Lemma retrieveBlock_available b w :
  ipfs_online w = true -> available ipfs_cid w b ->
  exists w1,
    retrieveBlock (ipfs_cid b) w = (Returned b, w1)
    /\ ipfs_online w1 = true /\ ipfs_objects w1 = ipfs_objects w
    /\ blockCache w1 = blockCache w.
Proof.
  intros Hon [Ho Hc].
  unfold retrieveBlock, bind, get, modify, ret, catFromIPFS. simpl.
  destruct (blocks (blockCache w) !! ipfs_cid b) as [b'|] eqn:Hlk; simpl.
  - rewrite (Hc b' eq_refl). eexists. repeat split. exact Hon.
  - unfold with_stats; cbn [ipfs_online ipfs_objects]. rewrite Hon, Ho.
    eexists. repeat split.
Qed.

Lemma retrieve_loop_spec rep blks i reconstructed w :
  (i + length blks = length (rep_BlockHashes rep))%nat ->
  ipfs_online w = true ->
  (forall b, b ∈ blks -> available ipfs_cid w b) ->
  exists w',
    retrieve_loop rep i (ipfs_cid <$> blks) reconstructed w
    = (reassemble (rep_BlockSize rep) (rep_FileSize rep) blks reconstructed, w').
Proof.
  revert i reconstructed w.
  induction blks as [|b blks IH]; intros i R w Hi Hon Hav.
  - exists w. reflexivity.
  - destruct (retrieveBlock_available b w Hon (Hav b ltac:(by left)))
      as (w1 & Hget & Hon1 & Hobj1 & Hc1).
    assert (Hav1 : forall b0, b0 ∈ blks -> available ipfs_cid w1 b0).
    { intros b0 Hb0. apply (available_ext w); auto. apply Hav. by right. }
    cbn [fmap list_fmap retrieve_loop]. unfold bind at 1. unfold wrap_err.
    fold (fmap (M := list) ipfs_cid blks).
    rewrite Hget. unfold len.
    destruct blks as [|b' blks'].
    + simpl length in Hi.
      assert (Hlast : (Z.of_nat i <? Z.of_nat (length (rep_BlockHashes rep)) - 1) = false).
      { apply Z.ltb_ge. lia. }
      rewrite Hlast. cbn [reassemble]. unfold bind, lift, obind.
      destruct (deRandomizeBlock b _); eexists; reflexivity.
    + simpl length in Hi.
      assert (Hmid : (Z.of_nat i <? Z.of_nat (length (rep_BlockHashes rep)) - 1) = true).
      { apply Z.ltb_lt. lia. }
      rewrite Hmid, reassemble_cons. unfold bind at 1. unfold lift, obind.
      destruct (deRandomizeBlock b (rep_BlockSize rep)) as [d| | |];
        try (eexists; reflexivity).
      apply (IH (S i)); [simpl length; lia|exact Hon1|exact Hav1].
Qed.

End PipelineTheory.

Section PipelineClaims.
Import Core CacheSpec CoreSpec.

Lemma selectBlockSize_bounds fileSize :
  0 < selectBlockSize fileSize <= BlockSize.
Proof.
  unfold selectBlockSize, NanoBlockSize, MiniBlockSize, BlockSize.
  destruct (_ <=? _); [lia|]. destruct (_ <=? _); lia.
Qed.

Lemma ceil_div_bounds (L bs : nat) :
  (0 < bs)%nat ->
  let n := ((L + bs - 1) / bs)%nat in
  (L <= n * bs)%nat /\ ((0 < L)%nat -> (0 < n)%nat /\ ((n - 1) * bs < L)%nat)
  /\ (L = 0%nat -> n = 0%nat).
Proof.
  intros Hbs n.
  pose proof (Nat.Div0.mul_div_le (L + bs - 1) bs) as H1.
  pose proof (Nat.mul_succ_div_gt (L + bs - 1) bs ltac:(lia)) as H2.
  fold n in H1, H2. split; [nia|]. split.
  - intros HL. assert (0 < n)%nat by nia. split; [done|]. nia.
  - intros ->. subst n. apply Nat.div_small. lia.
Qed.

(** X3. [StoreFile] followed by [RetrieveFile].  When the daemon answers,
    the entropy source delivers a block size of bytes for every block, JSON
    writes and reads back the representation, and no two different stored
    objects share a content identifier, [StoreFile] returns a URL and
    [RetrieveFile] of its representation hash returns the representation
    and as many bytes as the file has: byte [i] of the file XORed with
    random byte [i].  They are the file itself exactly when the random
    bytes that covered it were all zero. *)
Theorem RetrieveFile_after_StoreFile
    (ipfs_cid : list Z -> string)
    (map_range : nat -> gmap string (list Z) -> list (string * list Z))
    (json_Marshal : FileRepresentation -> option (list Z))
    (json_Unmarshal : list Z -> option FileRepresentation)
    (filepath_Base : string -> string)
    (filename : string) (data : list Z) (contentType : string)
    (w : World) (repData : list Z) :
  let bs := selectBlockSize (len data) in
  let blks := blocks_of bs data (entropy w) in
  let rep := representation_of ipfs_cid filepath_Base filename data contentType w in
  ipfs_online w = true ->
  len data + BlockSize <= max_int64 ->
  (Z.to_nat bs * length blks <= length (entropy w))%nat ->
  json_Marshal rep = Some repData ->
  json_Unmarshal repData = Some rep ->
  collision_free ipfs_cid (repData :: blks) ->
  exists url w1 w2,
    StoreFile ipfs_cid map_range json_Marshal filepath_Base
      filename data contentType w = (Returned url, w1)
    /\ url_RepHash url = ipfs_cid repData
    /\ url_FileSize url = len data
    /\ stats w1 = count_file (len blks) (len data) (stats w)
    /\ RetrieveFile json_Unmarshal (url_RepHash url) w1
       = (Returned (masked data (entropy w), rep), w2)
    /\ length (masked data (entropy w)) = length data
    /\ (masked data (entropy w) = data
        <-> Forall (fun r => r = 0) (take (length data) (entropy w))).
Proof.
  intros bs blks rep Hon Hmax Hent Hmar Hunmar Hfree.
  pose proof (selectBlockSize_bounds (len data)) as Hbs. fold bs in Hbs.
  set (nbs := Z.to_nat bs) in *.
  assert (Hnbs : Z.of_nat nbs = bs) by (subst nbs; lia).
  assert (Hnpos : (0 < nbs)%nat) by lia.
  (* the blocks *)
  assert (Hgen : generateRandomBlocks data bs w
                 = (Returned blks,
                    with_entropy (drop (nbs * length blks) (entropy w)) w)).
  { unfold generateRandomBlocks. rewrite <- Hnbs.
    assert (H1 : len data + Z.of_nat nbs <= max_int64) by (unfold BlockSize in *; lia).
    assert (H2 : (length (drop 0 data) <= length data)%nat) by (rewrite drop_0; lia).
    pose proof (generate_loop_spec nbs (length data) data 0 [] w Hnpos H1 H2) as Hg.
    rewrite drop_0 in Hg. specialize (Hg Hent). exact Hg. }
  set (wa := with_entropy (drop (nbs * length blks) (entropy w)) w) in *.
  destruct (store_blocks_spec ipfs_cid map_range blks [] wa Hon)
    as (wb & Hstore & Honb & Hstb & _ & Hckb & _ & Havb).
  assert (Hfree_blks : collision_free ipfs_cid blks).
  { intros x y Hx Hy. apply Hfree; by right. }
  specialize (Havb Hfree_blks).
  (* the representation *)
  set (wc := with_objects (<[ipfs_cid repData := repData]> (ipfs_objects wb)) wb).
  set (w1 := with_stats (count_file (len blks) (len data) (stats wc)) wc).
  assert (Hst : StoreFile ipfs_cid map_range json_Marshal filepath_Base
                  filename data contentType w
                = (Returned (mkRandomURL "rd" "randomfs" ProtocolVersion
                               (filepath_Base filename) (len data)
                               (ipfs_cid repData) (clock w)), w1)).
  { unfold StoreFile. fold bs. unfold bind at 1. unfold wrap_err at 1.
    rewrite Hgen. unfold bind at 1. rewrite Hstore. simpl app.
    unfold bind at 1, get at 1. rewrite Hckb.
    change (clock wa) with (clock w).
    change (mkFileRepresentation _ _ _ _ _ _ _) with rep.
    rewrite Hmar. unfold bind, wrap_err, addToIPFS, modify, ret. rewrite Honb.
    reflexivity. }
  assert (Hav1 : forall b, b ∈ blks -> available ipfs_cid w1 b).
  { intros b Hb. destruct (Havb b Hb) as [Ho Hc]. split; [|exact Hc].
    subst w1 wc. cbn [with_stats with_objects ipfs_objects].
    destruct (decide (ipfs_cid repData = ipfs_cid b)) as [He|Hne].
    - rewrite He, lookup_insert_eq. f_equal.
      apply Hfree; [by left|by right|exact He].
    - by rewrite lookup_insert_ne. }
  assert (Hon1 : ipfs_online w1 = true) by exact Honb.
  (* the retrieval *)
  assert (Hlen_ok : (length data <= nbs * length blks)%nat).
  { subst blks. unfold blocks_of. fold nbs.
    rewrite expected_blocks_count by lia.
    pose proof (ceil_div_bounds (length data) nbs Hnpos) as (H1 & _). lia. }
  destruct (retrieve_loop_spec ipfs_cid rep blks 0 [] w1) as [w2 Hloop]; auto.
  { subst rep. unfold representation_of. cbn [rep_BlockHashes].
    rewrite length_fmap. reflexivity. }
  exists (mkRandomURL "rd" "randomfs" ProtocolVersion (filepath_Base filename)
            (len data) (ipfs_cid repData) (clock w)), w1, w2.
  split; [exact Hst|]. split; [reflexivity|]. split; [reflexivity|].
  split; [subst w1 wc; cbn [with_stats with_objects stats]; by rewrite Hstb|].
  split.
  - cbn [url_RepHash]. unfold RetrieveFile, bind at 1.
    unfold wrap_err, catFromIPFS. rewrite Hon1.
    assert (Hobj : ipfs_objects w1 !! ipfs_cid repData = Some repData).
    { subst w1 wc. cbn [with_stats with_objects ipfs_objects]. apply lookup_insert_eq. }
    rewrite Hobj, Hunmar. unfold bind.
    assert (Hh : rep_BlockHashes rep = ipfs_cid <$> blks) by reflexivity.
    rewrite Hh, Hloop.
    assert (Hre : reassemble (rep_BlockSize rep) (rep_FileSize rep) blks []
                  = Returned (masked data (entropy w))).
    { change (rep_BlockSize rep) with bs. change (rep_FileSize rep) with (len data).
      rewrite <- Hnbs. unfold len.
      rewrite (reassemble_take nbs (length data) blks []).
      - simpl. rewrite Nat.sub_0_r. f_equal.
        subst blks. unfold blocks_of. fold nbs.
        apply expected_blocks_concat; [lia|lia|exact Hent].
      - subst blks. unfold blocks_of. fold nbs.
        apply expected_blocks_lengths. exact Hent.
      - unfold len, BlockSize in Hmax. lia.
      - intros Hne. simpl length.
        assert (HL : (0 < length data)%nat).
        { destruct data; [|simpl; lia]. exfalso. apply Hne. reflexivity. }
        subst blks. unfold blocks_of in *. fold nbs in Hlen_ok |- *.
        rewrite expected_blocks_count in * by lia.
        pose proof (ceil_div_bounds (length data) nbs Hnpos) as (H1 & H2 & _).
        specialize (H2 HL). lia. }
    rewrite Hre. reflexivity.
  - assert (Hml : length (masked data (entropy w)) = length data).
    { unfold masked. rewrite length_zip_with, length_take. lia. }
    split; [exact Hml|].
    unfold masked. apply zip_xor_fixes_iff. rewrite length_take. lia.
Qed.

(** The hypotheses of the theorem hold for "HelloWorld" and the random
    bytes 1, 2, 3, ... *)
Lemma hello_store_hypotheses :
  let w := fresh_world 1048576 (Z.of_nat <$> seq 1 1024) 1700000000 in
  let rep := representation_of Demo.cid Demo.filepath_Base "hello.txt" Demo.hello
               "text/plain" w in
  let repData := default [] (Demo.json_Marshal rep) in
  let blks := blocks_of (selectBlockSize (len Demo.hello)) Demo.hello (entropy w) in
  len Demo.hello + BlockSize <= max_int64
  /\ (Z.to_nat (selectBlockSize (len Demo.hello)) * length blks
      <= length (entropy w))%nat
  /\ Demo.json_Unmarshal repData = Some rep
  /\ collision_free Demo.cid (repData :: blks)
  /\ masked Demo.hello (entropy w) = [73; 103; 111; 104; 106; 81; 104; 122; 101; 110].
Proof.
  intros w rep repData blks.
  split; [vm_compute; congruence|].
  split; [apply Nat.leb_le; vm_compute; reflexivity|].
  split; [vm_compute; reflexivity|].
  split; [|vm_compute; reflexivity].
  assert (Hne : Nat.eqb (String.length (Demo.cid repData))
                  (String.length (Demo.cid (xor_into (take 1024 (entropy w)) Demo.hello)))
                = false) by (vm_compute; reflexivity).
  apply Nat.eqb_neq in Hne.
  assert (Hb : blks = [xor_into (take 1024 (entropy w)) Demo.hello])
    by (vm_compute; reflexivity).
  rewrite Hb. intros a b Ha Hb' Hab.
  apply elem_of_cons in Ha as [->|Ha]; apply elem_of_cons in Hb' as [->|Hb'];
    try reflexivity.
  - apply list_elem_of_singleton in Hb'. subst b. exfalso. apply Hne. by rewrite Hab.
  - apply list_elem_of_singleton in Ha. subst a. exfalso. apply Hne. by rewrite Hab.
  - apply list_elem_of_singleton in Ha, Hb'. congruence.
Qed.

(** "HelloWorld" stored and retrieved with random bytes 1, 2, 3, ... *)
Lemma RetrieveFile_after_StoreFile_witness :
  let w := fresh_world 1048576 (Z.of_nat <$> seq 1 1024) 1700000000 in
  let rep := representation_of Demo.cid Demo.filepath_Base "hello.txt" Demo.hello
               "text/plain" w in
  let repData := default [] (Demo.json_Marshal rep) in
  let blks := blocks_of (selectBlockSize (len Demo.hello)) Demo.hello (entropy w) in
  ipfs_online w = true
  /\ len Demo.hello + BlockSize <= max_int64
  /\ (Z.to_nat (selectBlockSize (len Demo.hello)) * length blks
      <= length (entropy w))%nat
  /\ Demo.json_Marshal rep = Some repData
  /\ Demo.json_Unmarshal repData = Some rep
  /\ collision_free Demo.cid (repData :: blks)
  /\ exists url w1 w2,
       StoreFile Demo.cid Demo.range_fwd Demo.json_Marshal Demo.filepath_Base
         "hello.txt" Demo.hello "text/plain" w = (Returned url, w1)
       /\ RetrieveFile Demo.json_Unmarshal (url_RepHash url) w1
          = (Returned (masked Demo.hello (entropy w), rep), w2)
       /\ masked Demo.hello (entropy w) = [73; 103; 111; 104; 106; 81; 104; 122; 101; 110].
Proof.
  intros w rep repData blks.
  destruct hello_store_hypotheses as (H1 & H2 & H4 & H5 & H6).
  assert (H3 : Demo.json_Marshal rep = Some repData) by reflexivity.
  split; [reflexivity|]. split; [exact H1|]. split; [exact H2|].
  split; [exact H3|]. split; [exact H4|]. split; [exact H5|].
  destruct (RetrieveFile_after_StoreFile Demo.cid Demo.range_fwd Demo.json_Marshal
              Demo.json_Unmarshal Demo.filepath_Base "hello.txt" Demo.hello
              "text/plain" w repData eq_refl H1 H2 H3 H4 H5)
    as (url & w1 & w2 & Hst & _ & _ & _ & Hrt & _).
  exists url, w1, w2. split; [exact Hst|]. split; [exact Hrt|]. exact H6.
Defined.

(** X4. For a positive block size and enough random bytes,
    [generateRandomBlocks] returns one block per run of [blockSize] bytes
    of the data, the last run possibly shorter (none for empty data), each
    block exactly [blockSize] long, and takes [blockSize] bytes per block
    from the entropy source. *)
Theorem generateRandomBlocks_shape (data : list Z) (blockSize : Z) (w : World) :
  0 < blockSize ->
  len data + blockSize <= max_int64 ->
  blockSize * ((len data + blockSize - 1) / blockSize) <= len (entropy w) ->
  exists blks w',
    generateRandomBlocks data blockSize w = (Returned blks, w')
    /\ len blks = (len data + blockSize - 1) / blockSize
    /\ Forall (fun b => len b = blockSize) blks
    /\ entropy w' = drop (Z.to_nat (blockSize * len blks)) (entropy w)
    /\ blockCache w' = blockCache w /\ ipfs_objects w' = ipfs_objects w.
Proof.
  intros Hbs Hmax Hent.
  set (nbs := Z.to_nat blockSize).
  assert (Hnbs : Z.of_nat nbs = blockSize) by (subst nbs; lia).
  assert (Hnpos : (0 < nbs)%nat) by lia.
  set (blks := expected_blocks (length data) nbs data (entropy w)).
  assert (Hcount : length blks = ((length data + nbs - 1) / nbs)%nat).
  { subst blks. apply expected_blocks_count; lia. }
  assert (HcountZ : len blks = (len data + blockSize - 1) / blockSize).
  { unfold len. rewrite Hcount, Nat2Z.inj_div, <- Hnbs. f_equal. lia. }
  assert (Hent' : (nbs * length blks <= length (entropy w))%nat).
  { rewrite <- HcountZ in Hent. unfold len in Hent. nia. }
  assert (H2 : (length (drop 0 data) <= length data)%nat) by (rewrite drop_0; lia).
  pose proof (generate_loop_spec nbs (length data) data 0 [] w Hnpos
                ltac:(rewrite Hnbs; exact Hmax) H2) as Hg.
  rewrite drop_0 in Hg. specialize (Hg Hent').
  exists blks, (with_entropy (drop (nbs * length blks) (entropy w)) w).
  split; [unfold generateRandomBlocks; rewrite <- Hnbs; exact Hg|].
  split; [exact HcountZ|]. split.
  - eapply Forall_impl; [apply expected_blocks_lengths; exact Hent'|].
    intros b Hb. simpl in Hb. unfold len. lia.
  - split; [|split; reflexivity]. cbn [with_entropy entropy]. f_equal.
    unfold len. lia.
Qed.

(** Three blocks of four bytes for a file of ten. *)
Lemma generateRandomBlocks_shape_witness :
  let w := fresh_world 100 (repeat 9 12) 0 in
  0 < 4
  /\ len Demo.hello + 4 <= max_int64
  /\ 4 * ((len Demo.hello + 4 - 1) / 4) <= len (entropy w)
  /\ exists blks w',
       generateRandomBlocks Demo.hello 4 w = (Returned blks, w')
       /\ len blks = 3 /\ entropy w' = [].
Proof.
  intros w.
  assert (H1 : len Demo.hello + 4 <= max_int64) by (vm_compute; congruence).
  assert (H2 : 4 * ((len Demo.hello + 4 - 1) / 4) <= len (entropy w))
    by (vm_compute; congruence).
  split; [lia|]. split; [exact H1|]. split; [exact H2|].
  destruct (generateRandomBlocks_shape Demo.hello 4 w ltac:(lia) H1 H2)
    as (blks & w' & Hgen & Hn & _ & Hent & _).
  exists blks, w'. split; [exact Hgen|]. split; [exact Hn|].
  rewrite Hent, Hn. reflexivity.
Defined.

End PipelineClaims.

(** ** Failures of the store and retrieve pipeline *)

Section PipelineEdges.
Import Core CacheSpec CoreSpec.

Variable ipfs_cid : list Z -> string.
Variable map_range : nat -> gmap string (list Z) -> list (string * list Z).




(** Reassembly with a recorded size below what the blocks before the
    last one hold. *)
Lemma reassemble_short (bs fileSize : Z) blks reconstructed :
  blks <> [] ->
  Forall (fun b => len b = bs) blks ->
  0 <= fileSize < len reconstructed + (len blks - 1) * bs ->
  len reconstructed + (len blks - 1) * bs <= max_int64 ->
  reassemble bs fileSize blks reconstructed = Panicked "makeslice: len out of range".
Proof.
  revert reconstructed. induction blks as [|b blks IH]; intros rec Hne Hall Hsz Hmax;
    [done|].
  apply Forall_cons in Hall as [Hb Hall].
  destruct blks as [|b' blks'].
  - assert (Hl : len [b] - 1 = 0) by reflexivity.
    rewrite Hl in Hsz, Hmax.
    pose proof (len_nonneg rec) as Hrec.
    cbn [reassemble].
    rewrite int64_id by (unfold in_int64, min_int64, max_int64 in *; lia).
    unfold deRandomizeBlock.
    assert (Hneg : (fileSize - len rec <? 0) = true) by (apply Z.ltb_lt; lia).
    by rewrite Hneg.
  - rewrite reassemble_cons. unfold deRandomizeBlock.
    assert (H1 : (bs <? 0) = false) by (apply Z.ltb_ge; unfold len in Hb; lia).
    assert (H2 : (bs >? len b) = false)
      by (rewrite Z.gtb_ltb; apply Z.ltb_ge; lia).
    rewrite H1, H2. cbn [obind].
    assert (Htake : take (Z.to_nat bs) b = b).
    { apply take_ge. unfold len in Hb. lia. }
    rewrite Htake.
    assert (Hl : len (rec ++ b) + (len (b' :: blks') - 1) * bs
                 = len rec + (len (b :: b' :: blks') - 1) * bs).
    { unfold len in *. rewrite length_app. simpl length. lia. }
    apply IH; [done | exact Hall | rewrite Hl; exact Hsz | rewrite Hl; exact Hmax].
Qed.

End PipelineEdges.

Section PipelineEdgeClaims.
Import Core CacheSpec CoreSpec.



(** X6. A representation that records a file size smaller than what its
    blocks before the last one hold makes [RetrieveFile] panic: the loop
    asks for a slice of negative length when it reaches the last block. *)
Theorem RetrieveFile_panics_on_short_size
    (ipfs_cid : list Z -> string)
    (json_Unmarshal : list Z -> option FileRepresentation)
    (repHash : string) (repData : list Z) (rep : FileRepresentation)
    (blks : list (list Z)) (w : World) :
  ipfs_online w = true ->
  ipfs_objects w !! repHash = Some repData ->
  json_Unmarshal repData = Some rep ->
  rep_BlockHashes rep = ipfs_cid <$> blks ->
  blks <> [] ->
  (forall b, b ∈ blks -> available ipfs_cid w b) ->
  Forall (fun b => len b = rep_BlockSize rep) blks ->
  0 <= rep_FileSize rep < (len blks - 1) * rep_BlockSize rep ->
  (len blks - 1) * rep_BlockSize rep <= max_int64 ->
  (RetrieveFile json_Unmarshal repHash w).1 = Panicked "makeslice: len out of range".
Proof.
  intros Hon Hobj Hun Hh Hne Hav Hall Hsz Hmax.
  unfold RetrieveFile, bind at 1. unfold wrap_err, catFromIPFS.
  rewrite Hon, Hobj, Hun. unfold bind.
  destruct (retrieve_loop_spec ipfs_cid rep blks 0 [] w) as [w' Hloop]; auto.
  { rewrite Hh, length_fmap. reflexivity. }
  rewrite Hh, Hloop.
  rewrite reassemble_short; [reflexivity | exact Hne | exact Hall | |].
  - unfold len at 1. simpl length. lia.
  - unfold len at 1. simpl length. lia.
Qed.

Lemma RetrieveFile_panics_on_short_size_witness :
  let blks := [[1; 2]; [3; 4]] in
  let rep := mkFileRepresentation "f" 1 (Demo.cid <$> blks) 2 0 "text/plain" "v4" in
  let repData := default [] (Demo.json_Marshal rep) in
  let w := mkWorld (<["rep" := repData]> (list_to_map ((fun b => (Demo.cid b, b)) <$> blks)))
             true (NewBlockCache 1024) (mkStats 0 0 0 0 0) [] 0 0 in
  ipfs_online w = true
  /\ ipfs_objects w !! "rep" = Some repData
  /\ Demo.json_Unmarshal repData = Some rep
  /\ blks <> []
  /\ (forall b, b ∈ blks -> available Demo.cid w b)
  /\ Forall (fun b => len b = rep_BlockSize rep) blks
  /\ 0 <= rep_FileSize rep < (len blks - 1) * rep_BlockSize rep
  /\ (RetrieveFile Demo.json_Unmarshal "rep" w).1
     = Panicked "makeslice: len out of range".
Proof.
  intros blks rep repData w.
  assert (H1 : ipfs_objects w !! "rep" = Some repData) by (vm_compute; reflexivity).
  assert (H2 : Demo.json_Unmarshal repData = Some rep) by (vm_compute; reflexivity).
  assert (H3 : forall b, b ∈ blks -> available Demo.cid w b).
  { intros b Hb. split.
    - apply elem_of_cons in Hb as [-> | Hb]; [vm_compute; reflexivity|].
      apply list_elem_of_singleton in Hb as ->. vm_compute; reflexivity.
    - intros b' Hb'. vm_compute in Hb'. discriminate. }
  assert (H4 : Forall (fun b => len b = rep_BlockSize rep) blks)
    by (repeat constructor).
  assert (H5 : 0 <= rep_FileSize rep < (len blks - 1) * rep_BlockSize rep)
    by (vm_compute; split; [discriminate | reflexivity]).
  assert (H6 : (len blks - 1) * rep_BlockSize rep <= max_int64)
    by (vm_compute; discriminate).
  assert (H0 : blks <> []) by done.
  split; [reflexivity|]. split; [exact H1|]. split; [exact H2|]. split; [exact H0|].
  split; [exact H3|]. split; [exact H4|]. split; [exact H5|].
  exact (RetrieveFile_panics_on_short_size Demo.cid Demo.json_Unmarshal "rep" repData
           rep blks w eq_refl H1 H2 eq_refl H0 H3 H4 H5 H6).
Defined.

End PipelineEdgeClaims.

(** ** Printing and parsing of [rd://] URLs *)

Section UrlTheory.
Import Core UrlSpec.
Local Open Scope string_scope.

Lemma string_app_cons a (s t : string) : String a s ++ t = String a (s ++ t).
Proof. reflexivity. Qed.

Lemma string_app_nil_l (t : string) : "" ++ t = t.
Proof. reflexivity. Qed.

Lemma string_app_nil_r (s : string) : s ++ "" = s.
Proof.
  induction s as [|a s IH]; [reflexivity|]. by rewrite string_app_cons, IH.
Qed.

Lemma string_app_assoc' (s t u : string) : (s ++ t) ++ u = s ++ (t ++ u).
Proof.
  induction s as [|a s IH]; [reflexivity|]. by rewrite !string_app_cons, IH.
Qed.

Lemma string_rev_onto_app s t acc :
  string_rev_onto (s ++ t) acc = string_rev_onto t (string_rev_onto s acc).
Proof.
  revert acc. induction s as [|a s IH]; intros acc; [reflexivity|].
  rewrite string_app_cons. simpl. apply IH.
Qed.

Lemma string_rev_onto_twice s a b :
  string_rev_onto (string_rev_onto s a) b = string_rev_onto a (s ++ b).
Proof.
  revert a b. induction s as [|c s IH]; intros a b; [reflexivity|].
  simpl. rewrite IH. reflexivity.
Qed.

Lemma string_rev_involutive s : string_rev (string_rev s) = s.
Proof.
  unfold string_rev. rewrite string_rev_onto_twice. simpl. apply string_app_nil_r.
Qed.

Lemma no_slash_app s t : no_slash (s ++ t) = no_slash s && no_slash t.
Proof.
  induction s as [|a s IH]; [reflexivity|].
  rewrite string_app_cons. simpl. rewrite IH. by rewrite andb_assoc.
Qed.

(** The last character of a segment leads its reversal. *)
Lemma string_rev_onto_head s acc :
  segment s ->
  exists a t, string_rev_onto s acc = String a t /\ Ascii.eqb a slash = false.
Proof.
  intros [Hne Hs]. revert acc. induction s as [|c s IH]; intros acc; [done|].
  simpl in Hs. apply andb_true_iff in Hs as [Hc Hs]. apply negb_true_iff in Hc.
  destruct s as [|c' s'].
  - simpl. eauto.
  - simpl. apply (IH ltac:(done) Hs (String c acc)).
Qed.

Lemma trim_left_keeps a t : Ascii.eqb a slash = false ->
  trim_left slash (String a t) = String a t.
Proof. intros H. simpl. by rewrite H. Qed.

(** [strings.Trim] takes the leading slash off a path that begins and
    ends with a segment. *)
Lemma strings_Trim_slash_path first middle last :
  segment first -> segment last ->
  strings_Trim_slash (String slash (first ++ middle ++ last)) = first ++ middle ++ last.
Proof.
  intros Hf Hl. unfold strings_Trim_slash.
  assert (Hhead : exists a t, first ++ middle ++ last = String a t
                              /\ Ascii.eqb a slash = false).
  { destruct Hf as [Hne Hs]. destruct first as [|a f]; [done|].
    simpl in Hs. apply andb_true_iff in Hs as [Ha _]. apply negb_true_iff in Ha.
    rewrite string_app_cons. eauto. }
  destruct Hhead as (a & t & Heq & Ha).
  assert (Htl : trim_left slash (String slash (first ++ middle ++ last))
                = first ++ middle ++ last).
  { change (trim_left slash (String slash ?s)) with (trim_left slash s).
    rewrite Heq. by apply trim_left_keeps. }
  rewrite Htl.
  destruct (string_rev_onto_head last
              (string_rev_onto (first ++ middle) EmptyString) Hl)
    as (b & u & Hrev & Hb).
  assert (Hr : string_rev (first ++ middle ++ last) = String b u).
  { unfold string_rev. rewrite <- string_app_assoc', string_rev_onto_app. exact Hrev. }
  rewrite Hr, (trim_left_keeps _ _ Hb), <- Hr. apply string_rev_involutive.
Qed.

Lemma split_onto_app s t cur :
  no_slash s = true ->
  split_onto slash (s ++ t) cur = split_onto slash t (string_rev_onto s cur).
Proof.
  revert cur. induction s as [|a s IH]; intros cur Hs; [reflexivity|].
  simpl in Hs. apply andb_true_iff in Hs as [Ha Hs]. apply negb_true_iff in Ha.
  rewrite string_app_cons. simpl. rewrite Ha. by apply IH.
Qed.

(** [strings.Split] cuts at the slash that ends a slash-free piece. *)
Lemma strings_Split_slash_cons s t :
  no_slash s = true ->
  strings_Split_slash (s ++ String slash t) = s :: strings_Split_slash t.
Proof.
  intros Hs. unfold strings_Split_slash. rewrite split_onto_app by done.
  simpl. f_equal. apply string_rev_involutive.
Qed.

Lemma strings_Split_slash_last s :
  no_slash s = true -> strings_Split_slash s = [s].
Proof.
  intros Hs. unfold strings_Split_slash.
  rewrite <- (string_app_nil_r s) at 1. rewrite split_onto_app by done.
  simpl. f_equal. apply string_rev_involutive.
Qed.

(** *** Decimal digits *)

Lemma digit_char_spec d :
  0 <= d < 10 ->
  digit_of (digit_char d) = Some d
  /\ Ascii.eqb (digit_char d) slash = false
  /\ digit_char d <> "+"%char /\ digit_char d <> "-"%char.
Proof.
  intros Hd.
  assert (Hc : d = 0 \/ d = 1 \/ d = 2 \/ d = 3 \/ d = 4 \/ d = 5 \/ d = 6
               \/ d = 7 \/ d = 8 \/ d = 9) by lia.
  repeat (destruct Hc as [-> | Hc]); try subst d; by vm_compute.
Qed.

(** What [digits_onto] prepends: a non-empty run of digits that reads
    back as [n]. *)
Lemma digits_onto_spec fuel n acc :
  (0 < fuel)%nat -> 0 <= n < 2 ^ Z.of_nat fuel ->
  exists a s,
    digits_onto fuel n acc = String a s ++ acc
    /\ no_slash (String a s) = true
    /\ a <> "+"%char /\ a <> "-"%char
    /\ forall rest k, parse_digits (String a s ++ rest) k
                      = parse_digits rest (k * 10 ^ Z.of_nat (String.length (String a s)) + n).
Proof.
  revert n acc. induction fuel as [|fuel IH]; intros n acc Hfuel Hn; [lia|].
  assert (Hd : 0 <= n mod 10 < 10) by (apply Z.mod_pos_bound; lia).
  destruct (digit_char_spec _ Hd) as (Hdig & Hsl & Hplus & Hminus).
  cbn [digits_onto]. fold (digit_char (n mod 10)).
  destruct (n / 10 =? 0)%Z eqn:Hq.
  - apply Z.eqb_eq in Hq.
    assert (Hsmall : n mod 10 = n).
    { pose proof (Z.div_mod n 10 ltac:(lia)). lia. }
    exists (digit_char (n mod 10)), EmptyString. split; [reflexivity|].
    split; [simpl; by rewrite Hsl|]. split; [done|]. split; [done|].
    intros rest k. rewrite string_app_cons, string_app_nil_l; cbn [parse_digits String.length]. rewrite Hdig.
    f_equal. change (10 ^ Z.of_nat 1) with 10. lia.
  - apply Z.eqb_neq in Hq.
    assert (Hn' : 0 <= n / 10 < 2 ^ Z.of_nat fuel).
    { split; [apply Z.div_pos; lia|].
      apply Z.div_lt_upper_bound; [lia|].
      rewrite Nat2Z.inj_succ, Z.pow_succ_r in Hn by lia. lia. }
    assert (Hfuel' : (0 < fuel)%nat).
    { destruct fuel; [|lia]. change (2 ^ Z.of_nat 0) with 1 in Hn'. lia. }
    destruct (IH (n / 10) (String (digit_char (n mod 10)) acc) Hfuel' Hn')
      as (a & s & Heq & Hns & Hp & Hm & Hparse).
    exists a, (s ++ String (digit_char (n mod 10)) EmptyString).
    split.
    { rewrite Heq. rewrite !string_app_cons. f_equal.
      rewrite string_app_assoc'. reflexivity. }
    split.
    { change (String a (s ++ String (digit_char (n mod 10)) ""))
        with (String a s ++ String (digit_char (n mod 10)) "").
      rewrite no_slash_app, Hns. simpl. by rewrite Hsl. }
    split; [done|]. split; [done|].
    intros rest k.
    change (String a (s ++ String (digit_char (n mod 10)) "") ++ rest)
      with (String a ((s ++ String (digit_char (n mod 10)) "") ++ rest)).
    rewrite string_app_assoc'.
    change (String a (s ++ String (digit_char (n mod 10)) "" ++ rest))
      with (String a s ++ String (digit_char (n mod 10)) rest).
    rewrite Hparse. cbn [parse_digits]. rewrite Hdig. f_equal.
    assert (Hlen : String.length (String a (s ++ String (digit_char (n mod 10)) ""))
                   = S (String.length (String a s))).
    { cbn [String.length]. f_equal.
      clear. induction s as [|c s IHs]; [reflexivity|].
      rewrite string_app_cons. simpl. by rewrite IHs. }
    rewrite Hlen, Nat2Z.inj_succ, Z.pow_succ_r by lia.
    pose proof (Z.div_mod n 10 ltac:(lia)). lia.
Qed.

Lemma log2_fuel n :
  0 <= n ->
  (0 < Z.to_nat (Z.log2 n) + 1)%nat /\ 0 <= n < 2 ^ Z.of_nat (Z.to_nat (Z.log2 n) + 1).
Proof.
  intros Hn. split; [lia|]. split; [done|].
  rewrite Nat2Z.inj_add, Z2Nat.id by apply Z.log2_nonneg.
  change (Z.of_nat 1) with 1.
  destruct (decide (n = 0)) as [->|Hne]; [by vm_compute|].
  rewrite Z.add_1_r. apply Z.log2_spec. lia.
Qed.

(** [%d] never prints a slash. *)
Lemma itoa_no_slash z : no_slash (itoa z) = true.
Proof.
  unfold itoa. destruct (z <? 0)%Z eqn:Hz.
  - apply Z.ltb_lt in Hz.
    destruct (digits_onto_spec _ (- z) EmptyString (proj1 (log2_fuel (- z) ltac:(lia)))
                (proj2 (log2_fuel (- z) ltac:(lia))))
      as (a & s & -> & Hns & _).
    rewrite string_app_nil_r. change (no_slash (String "-" (String a s)))
      with (negb (Ascii.eqb "-" slash) && no_slash (String a s)).
    by rewrite Hns.
  - apply Z.ltb_ge in Hz.
    destruct (digits_onto_spec _ z EmptyString (proj1 (log2_fuel z Hz)) (proj2 (log2_fuel z Hz)))
      as (a & s & -> & Hns & _).
    by rewrite string_app_nil_r.
Qed.

Lemma itoa_nonempty z : itoa z <> EmptyString.
Proof.
  unfold itoa. destruct (z <? 0)%Z eqn:Hz; [done|].
  apply Z.ltb_ge in Hz.
  destruct (digits_onto_spec _ z EmptyString (proj1 (log2_fuel z Hz)) (proj2 (log2_fuel z Hz))) as (a & s & -> & _).
  done.
Qed.

(** [strconv.ParseInt] reads back what [%d] prints. *)
Lemma strconv_ParseInt_itoa z : in_int64 z -> strconv_ParseInt (itoa z) = inr z.
Proof.
  intros Hz. unfold itoa. destruct (z <? 0)%Z eqn:Hneg.
  - apply Z.ltb_lt in Hneg.
    destruct (digits_onto_spec _ (- z) EmptyString (proj1 (log2_fuel (- z) ltac:(lia)))
                (proj2 (log2_fuel (- z) ltac:(lia))))
      as (a & s & -> & _ & _ & _ & Hparse).
    rewrite string_app_nil_r.
    unfold strconv_ParseInt.
    change (match String "-" (String a s) with
            | String "+"%char rest => (false, rest)
            | String "-"%char rest => (true, rest)
            | _ => (false, String "-" (String a s))
            end) with (true, String a s).
    cbv beta iota.
    pose proof (Hparse EmptyString 0) as Hp. rewrite string_app_nil_r in Hp.
    rewrite Hp. cbn [parse_digits]. rewrite Z.mul_0_l, Z.add_0_l, Z.opp_involutive.
    destruct Hz as [Hlo Hhi].
    apply Z.leb_le in Hlo, Hhi. by rewrite Hlo, Hhi.
  - apply Z.ltb_ge in Hneg.
    destruct (digits_onto_spec _ z EmptyString (proj1 (log2_fuel z Hneg))
                (proj2 (log2_fuel z Hneg)))
      as (a & s & -> & _ & Hplus & Hminus & Hparse).
    rewrite string_app_nil_r.
    unfold strconv_ParseInt.
    assert (Hsign : match String a s with
                    | String "+"%char rest => (false, rest)
                    | String "-"%char rest => (true, rest)
                    | _ => (false, String a s)
                    end = (false, String a s)).
    { destruct a as [[] [] [] [] [] [] [] []]; try reflexivity; done. }
    rewrite Hsign. cbv beta iota.
    pose proof (Hparse EmptyString 0) as Hp. rewrite string_app_nil_r in Hp.
    rewrite Hp. cbn [parse_digits]. rewrite Z.mul_0_l, Z.add_0_l.
    destruct Hz as [Hlo Hhi].
    apply Z.leb_le in Hlo, Hhi. by rewrite Hlo, Hhi.
Qed.

(** The five pieces [ParseRandomURL] finds in a printed path. *)
Lemma url_path_parts ru :
  segment (url_Version ru) -> no_slash (url_FileName ru) = true ->
  segment (url_RepHash ru) ->
  strings_Split_slash (strings_Trim_slash (url_path ru))
  = [url_Version ru; itoa (url_FileSize ru); url_FileName ru;
     itoa (url_Timestamp ru); url_RepHash ru].
Proof.
  intros Hv Hn Hr.
  set (middle := String slash (itoa (url_FileSize ru) ++ String slash (url_FileName ru
                   ++ String slash (itoa (url_Timestamp ru) ++ String slash "")))).
  assert (Hbody : url_Version ru ++ middle ++ url_RepHash ru
                  = url_Version ru ++ String slash (itoa (url_FileSize ru)
                      ++ String slash (url_FileName ru
                      ++ String slash (itoa (url_Timestamp ru)
                      ++ String slash (url_RepHash ru))))).
  { unfold middle.
    repeat (rewrite string_app_cons || rewrite string_app_assoc'
            || rewrite string_app_nil_l).
    reflexivity. }
  assert (Hpath : url_path ru = String slash (url_Version ru ++ middle ++ url_RepHash ru)).
  { rewrite Hbody. reflexivity. }
  rewrite Hpath, strings_Trim_slash_path, Hbody by done.
  rewrite strings_Split_slash_cons by apply Hv.
  rewrite strings_Split_slash_cons by apply itoa_no_slash.
  rewrite strings_Split_slash_cons by done.
  rewrite strings_Split_slash_cons by apply itoa_no_slash.
  rewrite strings_Split_slash_last by apply Hr.
  reflexivity.
Qed.

End UrlTheory.

Section UrlClaims.
Import Core UrlSpec.
Local Open Scope string_scope.

(** X7. Parsing what [RandomURL.String] printed gives the URL back, when
    the scheme is [rd], version and representation hash are non-empty and
    slash-free, the file name is slash-free, and [url.Parse] splits the
    printed string into scheme, host and path. *)
Theorem ParseRandomURL_of_String
    (url_Parse : string -> string + URL) (ru : RandomURL) :
  url_Scheme ru = "rd" ->
  segment (url_Version ru) ->
  no_slash (url_FileName ru) = true ->
  segment (url_RepHash ru) ->
  in_int64 (url_FileSize ru) -> in_int64 (url_Timestamp ru) ->
  url_Parse (RandomURL_String ru) = inr (mkURL "rd" (url_Host ru) (url_path ru)) ->
  ParseRandomURL url_Parse (RandomURL_String ru) = Returned ru.
Proof.
  intros Hs Hv Hn Hr Hfs Hts Hparse. unfold ParseRandomURL.
  rewrite Hparse. cbn [Scheme Host Path].
  change (negb ("rd" =? "rd")) with false. cbv iota.
  rewrite (url_path_parts ru Hv Hn Hr).
  change (len [url_Version ru; itoa (url_FileSize ru); url_FileName ru;
               itoa (url_Timestamp ru); url_RepHash ru] <? 4)%Z with false.
  cbv iota. unfold index_part. cbn [lookup list_lookup obind].
  rewrite (strconv_ParseInt_itoa _ Hfs), (strconv_ParseInt_itoa _ Hts).
  cbn [or_fail obind]. f_equal. destruct ru; simpl in *. by subst.
Qed.

Lemma ParseRandomURL_of_String_witness :
  let ru := mkRandomURL "rd" "randomfs" "v4" "hello.txt" 10 "QmHash" 1700000000 in
  url_Scheme ru = "rd"
  /\ segment (url_Version ru) /\ no_slash (url_FileName ru) = true
  /\ segment (url_RepHash ru)
  /\ in_int64 (url_FileSize ru) /\ in_int64 (url_Timestamp ru)
  /\ RandomURL_String ru = "rd://randomfs/v4/10/hello.txt/1700000000/QmHash"
  /\ Demo.url_Parse (RandomURL_String ru) = inr (mkURL "rd" (url_Host ru) (url_path ru))
  /\ ParseRandomURL Demo.url_Parse (RandomURL_String ru) = Returned ru.
Proof.
  intros ru.
  assert (H1 : segment (url_Version ru)) by (split; [done | reflexivity]).
  assert (H2 : segment (url_RepHash ru)) by (split; [done | reflexivity]).
  assert (H3 : in_int64 (url_FileSize ru)) by (by vm_compute).
  assert (H4 : in_int64 (url_Timestamp ru)) by (by vm_compute).
  assert (H5 : Demo.url_Parse (RandomURL_String ru)
               = inr (mkURL "rd" (url_Host ru) (url_path ru)))
    by (vm_compute; reflexivity).
  split; [reflexivity|]. split; [exact H1|]. split; [reflexivity|].
  split; [exact H2|]. split; [exact H3|]. split; [exact H4|].
  split; [vm_compute; reflexivity|]. split; [exact H5|].
  exact (ParseRandomURL_of_String Demo.url_Parse ru eq_refl H1 eq_refl H2 H3 H4 H5).
Defined.

(** X8. [ParseRandomURL] never runs forever, and it panics in exactly one
    situation: the scheme is [rd], the trimmed path has exactly four
    pieces, and the second and the fourth are integers. *)
Theorem ParseRandomURL_panics_only_on_four_segments
    (url_Parse : string -> string + URL) (rawURL : string) :
  ParseRandomURL url_Parse rawURL <> Diverges
  /\ (panics (ParseRandomURL url_Parse rawURL)
      <-> exists u p0 p1 p2 p3 fileSize timestamp,
            url_Parse rawURL = inr u
            /\ Scheme u = "rd"
            /\ strings_Split_slash (strings_Trim_slash (Path u)) = [p0; p1; p2; p3]
            /\ strconv_ParseInt p1 = inr fileSize
            /\ strconv_ParseInt p3 = inr timestamp).
Proof.
  unfold ParseRandomURL, panics.
  destruct (url_Parse rawURL) as [err|u] eqn:Hu.
  { split; [done|]. split; [by intros [? ?] | by intros (? & ? & ? & ? & ? & ? & ? & ? & _)]. }
  destruct (Scheme u =? "rd") eqn:Hs; cbn [negb].
  2: { apply String.eqb_neq in Hs.
       split; [done|]. split; [by intros [? ?]|].
       intros (u' & ? & ? & ? & ? & ? & ? & Hu' & Hs' & _). congruence. }
  apply String.eqb_eq in Hs.
  destruct (strings_Split_slash (strings_Trim_slash (Path u)))
    as [|p0 [|p1 [|p2 [|p3 [|p4 rest]]]]] eqn:Hparts;
    try (split; [done|]; split; [by intros [? ?]|];
         intros (u' & ? & ? & ? & ? & ? & ? & Hu' & _ & Hp' & _);
         assert (u' = u) as -> by congruence; rewrite Hparts in Hp'; discriminate).
  - (* four pieces *)
    change (len [p0; p1; p2; p3] <? 4)%Z with false. cbv iota.
    unfold index_part. cbn [lookup list_lookup obind].
    destruct (strconv_ParseInt p1) as [e1|fileSize] eqn:H1; cbn [or_fail obind].
    { split; [done|]. split; [by intros [? ?]|].
      intros (u' & ? & ? & ? & ? & ? & ? & Hu' & _ & Hp' & H1' & _).
      assert (u' = u) as -> by congruence. rewrite Hparts in Hp'.
      injection Hp' as <- <- <- <-. congruence. }
    destruct (strconv_ParseInt p3) as [e3|timestamp] eqn:H3; cbn [or_fail obind].
    { split; [done|]. split; [by intros [? ?]|].
      intros (u' & ? & ? & ? & ? & ? & ? & Hu' & _ & Hp' & _ & H3').
      assert (u' = u) as -> by congruence. rewrite Hparts in Hp'.
      injection Hp' as <- <- <- <-. congruence. }
    split; [done|]. split; [|by eauto].
    intros _. exists u, p0, p1, p2, p3, fileSize, timestamp. done.
  - (* five pieces or more *)
    assert (Hlen : (len (p0 :: p1 :: p2 :: p3 :: p4 :: rest) <? 4)%Z = false).
    { apply Z.ltb_ge. unfold len. simpl length. lia. }
    rewrite Hlen. cbv iota.
    unfold index_part. cbn [lookup list_lookup obind].
    split.
    + destruct (strconv_ParseInt p1); cbn [or_fail obind]; [done|].
      destruct (strconv_ParseInt p3); cbn [or_fail obind]; done.
    + split.
      * destruct (strconv_ParseInt p1); cbn [or_fail obind]; [by intros [? ?]|].
        destruct (strconv_ParseInt p3); cbn [or_fail obind]; by intros [? ?].
      * intros (u' & ? & ? & ? & ? & ? & ? & Hu' & _ & Hp' & _).
        assert (u' = u) as -> by congruence. rewrite Hparts in Hp'. discriminate.
Qed.

End UrlClaims.

(** ** The anonymous library: storing and retrieving a file *)

Section LibraryBlocks.
Import Models LibrarySpec.

Variable sha256 : list Z -> list Z.

Lemma BlockLen_pos : (0 < BlockLen)%nat.
Proof. apply Nat.ltb_lt. vm_compute. reflexivity. Qed.

Lemma xor_length a b : length (xor a b) = BlockLen.
Proof. unfold xor. by rewrite length_map, length_seq. Qed.

Lemma deterministicEncrypt_length block password position :
  length (Library.deterministicEncrypt sha256 block password position) = BlockLen.
Proof. unfold Library.deterministicEncrypt. by rewrite length_map, length_seq. Qed.

(** Decryption undoes encryption with the same password and position. *)
Lemma deterministicDecrypt_Encrypt block password position :
  length block = BlockLen ->
  Library.deterministicDecrypt sha256
    (Library.deterministicEncrypt sha256 block password position) password position
  = block.
Proof.
  unfold Library.deterministicDecrypt, Library.deterministicEncrypt.
  generalize (Library.key_of sha256 password position) as key.
  generalize BlockLen as n. intros n key Hlen.
  apply map_seq_ext; [exact Hlen|].
  intros i Hi. rewrite nth_map_seq by exact Hi. apply xor_byte_cancel.
Qed.

Lemma chunk_length data i : length (Library.chunk data i) = BlockLen.
Proof.
  unfold Library.chunk. generalize BlockLen as n. intros n.
  rewrite length_app, repeat_length, length_take. lia.
Qed.

Lemma chunkFile_count data :
  length (Library.chunkFile data) = ((length data + BlockLen - 1) / BlockLen)%nat.
Proof.
  unfold Library.chunkFile, len. rewrite length_map, length_seq.
  pose proof BlockLen_pos as Hpos. revert Hpos.
  generalize BlockLen as n. intros n Hpos.
  replace (Z.of_nat (length data) + Z.of_nat n - 1)
    with (Z.of_nat (length data + n - 1)) by lia.
  rewrite Z.quot_div_nonneg by lia.
  rewrite <- Nat2Z.inj_div. apply Nat2Z.id.
Qed.

Lemma concat_chunks data (n m : nat) :
  (m * n <= length data)%nat ->
  concat (map (fun i => take n (drop (i * n) data)
                        ++ repeat 0 (n - length (take n (drop (i * n) data))))
              (seq 0 m))
  = take (m * n) data.
Proof.
  induction m as [|m IH]; intros Hm; [reflexivity|].
  rewrite seq_S, map_app, concat_app, IH by lia.
  cbn [map concat Nat.add]. rewrite app_nil_r.
  assert (Hp : length (take n (drop (m * n) data)) = n).
  { rewrite length_take, length_drop. lia. }
  rewrite Hp, Nat.sub_diag. cbn [repeat]. rewrite app_nil_r.
  rewrite take_take_drop. f_equal. lia.
Qed.

(** The blocks of a file, laid end to end, are the file followed by the
    zeros that fill the last block. *)
Lemma chunkFile_concat data : concat (Library.chunkFile data) = padded data.
Proof.
  unfold padded. rewrite chunkFile_count.
  unfold Library.chunkFile, Library.chunk.
  assert (Hn : Z.to_nat (Z.quot (len data + Z.of_nat BlockLen - 1) (Z.of_nat BlockLen))
               = ((length data + BlockLen - 1) / BlockLen)%nat).
  { rewrite <- chunkFile_count. unfold Library.chunkFile.
    by rewrite length_map, length_seq. }
  rewrite Hn. clear Hn.
  pose proof BlockLen_pos as Hpos. revert Hpos.
  generalize BlockLen as n. intros n Hpos.
  pose proof (ceil_div_bounds (length data) n Hpos) as (Hup & Hlow & Hzero).
  set (k := ((length data + n - 1) / n)%nat) in *.
  destruct (decide (length data = 0%nat)) as [Hz|Hnz].
  - rewrite (Hzero Hz). apply length_zero_iff_nil in Hz. subst data. reflexivity.
  - destruct (Hlow ltac:(lia)) as [Hk Hlt].
    replace k with (S (k - 1)) at 1 by lia.
    rewrite seq_S, map_app, concat_app.
    rewrite (concat_chunks data n (k - 1)) by lia.
    cbn [map concat Nat.add]. rewrite app_nil_r.
    assert (Hpiece : take n (drop ((k - 1) * n) data) = drop ((k - 1) * n) data).
    { apply take_ge. rewrite length_drop. nia. }
    rewrite Hpiece, app_assoc, take_drop, length_drop.
    do 2 f_equal. nia.
Qed.

Lemma padded_length data :
  length (padded data) = (length (Library.chunkFile data) * BlockLen)%nat.
Proof.
  unfold padded. rewrite length_app, repeat_length, chunkFile_count.
  pose proof BlockLen_pos as Hpos. revert Hpos.
  generalize BlockLen as n. intros n Hpos.
  pose proof (ceil_div_bounds (length data) n Hpos) as (Hup & _). lia.
Qed.

Lemma concat_drop_blocks (n k : nat) (l : list (list Z)) :
  Forall (fun b => length b = n) l ->
  concat (drop k l) = drop (k * n) (concat l).
Proof.
  intros Hall. revert k. induction Hall as [|b l Hb Hall IH]; intros k.
  - cbn [concat]. by rewrite !drop_nil.
  - destruct k as [|k]; [reflexivity|].
    cbn [drop concat]. rewrite IH.
    rewrite drop_app_ge by lia. f_equal. lia.
Qed.

Lemma drop_repeat {A} (x : A) (n m : nat) : drop n (repeat x m) = repeat x (m - n).
Proof.
  revert n. induction m as [|m IH]; intros [|n]; cbn; try reflexivity. apply IH.
Qed.

Lemma xor_same_masks e m : length e = BlockLen -> xor e (xor m m) = e.
Proof.
  intros Hlen. unfold xor. revert Hlen. generalize BlockLen. intros n Hlen.
  apply map_seq_ext; [exact Hlen|].
  intros i Hi. rewrite nth_map_seq by exact Hi.
  unfold xor_byte. rewrite Z.lxor_nilpotent. apply Z.lxor_0_r.
Qed.

Lemma xor_swap_masks e a b : xor e (xor a b) = xor e (xor b a).
Proof.
  unfold xor. generalize BlockLen. intros n.
  apply map_ext_in. intros i Hi. apply in_seq in Hi.
  rewrite !nth_map_seq by lia. unfold xor_byte. by rewrite (Z.lxor_comm (nth i a 0)).
Qed.

Lemma chunkFile_lengths data :
  Forall (fun b => length b = BlockLen) (Library.chunkFile data).
Proof.
  unfold Library.chunkFile. apply Forall_forall. intros b Hb.
  apply list_elem_of_fmap in Hb as (i & -> & _). apply chunk_length.
Qed.

End LibraryBlocks.

Section LibraryStore.
Import Models LibrarySpec.

Variable sha256 : list Z -> list Z.

Lemma index_hash_elem l i h : index_hash l i = Returned h -> h ∈ l.
Proof.
  unfold index_hash. destruct (i <? 0); [done|].
  destruct (l !! Z.to_nat i) as [h'|] eqn:Hl; [|done].
  intros [= <-]. by eapply list_elem_of_lookup_2.
Qed.

(** What a returning [selectPopularBlocks] did: it took two pool entries
    and consumed random bytes. *)
Lemma selectPopularBlocks_returned w t r w' :
  Library.selectPopularBlocks w = (Returned (t, r), w') ->
  t ∈ top100Blocks w /\ r ∈ top100Blocks w
  /\ exists ent, w' = with_entropy ent w.
Proof.
  unfold Library.selectPopularBlocks, bind, get, panic, randInt, lift, ret.
  destruct (len (top100Blocks w) <? 2); [done|].
  destruct (entropy w) as [|b1 [|b2 rest]]; [done| |].
  - destruct (len (top100Blocks w) =? 0); done.
  - destruct (len (top100Blocks w) =? 0); [done|].
    cbn [entropy with_entropy top100Blocks].
    destruct (index_hash (top100Blocks w) (Z.rem b1 _)) as [h1| | |] eqn:H1; try done.
    destruct (index_hash (top100Blocks w) (Z.rem b2 _)) as [h2| | |] eqn:H2; try done.
    intros [= <- <- <-].
    split; [by eapply index_hash_elem|]. split; [by eapply index_hash_elem|].
    by exists rest.
Qed.

(** What a returning iteration of the storing loop did. *)
Lemma store_encrypted_returned i e w d n w' :
  Library.store_encrypted sha256 i e w = (Returned (d, n), w') ->
  (is_Some (networkStorage w !! sha256 e)
   /\ d = mkConnectorDescriptor i (sha256 e) zeroHash zeroHash /\ n = 0 /\ w' = w)
  \/ (networkStorage w !! sha256 e = None
      /\ exists t r ent,
           t ∈ top100Blocks w /\ r ∈ top100Blocks w
           /\ let c := xor e (xor (storage_get w t) (storage_get w r)) in
              d = mkConnectorDescriptor i (sha256 c) t r /\ n = 1
              /\ w' = with_popularity
                        (bump r (bump t (<[sha256 c := 1]> (blockPopularity w))))
                        (with_storage (<[sha256 c := c]> (networkStorage w))
                           (with_entropy ent w))).
Proof.
  unfold Library.store_encrypted, hash. unfold bind at 1. unfold get at 1.
  destruct (networkStorage w !! sha256 e) as [b|] eqn:Hs.
  - intros [= <- <- <-]. left. eauto.
  - unfold bind at 1.
    destruct (Library.selectPopularBlocks w) as [[[t r]| | |] w1] eqn:Hsel; try done.
    destruct (selectPopularBlocks_returned _ _ _ _ Hsel) as (Ht & Hr & ent & ->).
    unfold bind, get, modify, ret. cbn [fst snd].
    intros [= <- <- <-]. right. split; [reflexivity|].
    exists t, r, ent. done.
Qed.

Lemma store_inv_initial w0 es :
  content_addressed sha256 w0 -> store_inv sha256 w0 es w0.
Proof.
  intros Hca. repeat split; try done.
  - by apply Hca.
  - unfold candidates. apply elem_of_app. right. apply elem_of_app. left.
    apply list_elem_of_fmap. exists (h, b). split; [done|].
    by apply elem_of_map_to_list.
Qed.

Lemma decodes_mono S S' d e : S ⊆ S' -> decodes S d e -> decodes S' d e.
Proof.
  intros Hsub (c & Hc & Hcase). exists c.
  split; [by eapply lookup_weaken|].
  destruct Hcase as [?|(Hne & T & R & HT & HR & Hx)]; [by left|].
  right. split; [done|]. exists T, R.
  split; [by eapply lookup_weaken|]. split; [by eapply lookup_weaken|]. done.
Qed.

Lemma connector_candidate w0 es e t r :
  e ∈ es -> t ∈ top100Blocks w0 -> r ∈ top100Blocks w0 ->
  xor e (xor (storage_get w0 t) (storage_get w0 r)) ∈ candidates w0 es.
Proof.
  intros He Ht Hr. unfold candidates, connectors.
  apply elem_of_app. right. apply elem_of_app. right.
  apply list_elem_of_In, in_flat_map. exists e. split; [by apply list_elem_of_In|].
  apply in_flat_map. exists t. split; [by apply list_elem_of_In|].
  apply in_map_iff. exists r. split; [done | by apply list_elem_of_In].
Qed.

(** One iteration keeps the state and leaves a manifest entry that
    decodes to the block. *)
Lemma store_encrypted_step w0 es i e w d n w' :
  pool_stored w0 ->
  collision_free sha256 (candidates w0 es) ->
  store_inv sha256 w0 es w ->
  e ∈ es -> length e = BlockLen ->
  Library.store_encrypted sha256 i e w = (Returned (d, n), w') ->
  store_inv sha256 w0 es w'
  /\ networkStorage w ⊆ networkStorage w'
  /\ decodes (networkStorage w') d e
  /\ 0 <= n <= 1.
Proof.
  intros Hpool Hfree (Htop & Hman & Hreg & Hclk & Hsub & Hst) He Hlen Hstore.
  assert (Hecand : e ∈ candidates w0 es).
  { unfold candidates. apply elem_of_app. by left. }
  apply store_encrypted_returned in Hstore
    as [([b Hb] & -> & -> & ->) | (Hnone & t & r & ent & Ht & Hr & Hd)].
  - split; [done|]. split; [done|]. split; [|lia].
    exists b. split; [exact Hb|]. left. split; [reflexivity|].
    destruct (Hst _ _ Hb) as [Hh Hc]. by apply Hfree.
  - cbv zeta in Hd. destruct Hd as (-> & -> & ->).
    rewrite Htop in Ht, Hr.
    destruct (Hpool t Ht) as [Htz [T HT]]. destruct (Hpool r Hr) as [_ [R HR]].
    assert (HTw : networkStorage w !! t = Some T) by (by eapply lookup_weaken).
    assert (HRw : networkStorage w !! r = Some R) by (by eapply lookup_weaken).
    assert (Hgt : storage_get w t = storage_get w0 t)
      by (unfold storage_get; by rewrite HT, HTw).
    assert (Hgr : storage_get w r = storage_get w0 r)
      by (unfold storage_get; by rewrite HR, HRw).
    rewrite Hgt, Hgr.
    set (c := xor e (xor (storage_get w0 t) (storage_get w0 r))).
    assert (Hccand : c ∈ candidates w0 es) by (by apply connector_candidate).
    assert (Hgrow : networkStorage w ⊆ <[sha256 c := c]> (networkStorage w)).
    { destruct (networkStorage w !! sha256 c) as [b|] eqn:Hb.
      - destruct (Hst _ _ Hb) as [Hh Hc].
        assert (b = c) as -> by (by apply Hfree).
        by rewrite insert_id.
      - by apply insert_subseteq. }
    cbn [networkStorage with_popularity with_storage with_entropy top100Blocks
         manifests manifestRegistry clock].
    split.
    { unfold store_inv.
      cbn [networkStorage with_popularity with_storage with_entropy top100Blocks
           manifests manifestRegistry clock].
      split; [done|]. split; [done|]. split; [done|]. split; [done|].
      split; [by etrans|]. intros h b H.
      apply lookup_insert_Some in H as [[<- <-] | [_ Hb]]; [done | by apply Hst]. }
    split; [exact Hgrow|]. split; [|lia].
    exists c. cbn [ConnectorHash TargetHash RandomizerHash].
    split; [apply lookup_insert_eq|]. right. split; [exact Htz|].
    exists T, R.
    split; [by eapply lookup_weaken|]. split; [by eapply lookup_weaken|].
    subst c. unfold storage_get. rewrite HT, HR. cbn [default].
    by apply models_xor_round_trip.
Qed.

(** The storing loop: every new manifest entry decodes, in the final
    store, to the block at its position. *)
Lemma store_loop_returned w0 es i blocks descriptors n w descriptors' n' w' :
  pool_stored w0 ->
  collision_free sha256 (candidates w0 es) ->
  store_inv sha256 w0 es w ->
  (forall e, e ∈ blocks -> e ∈ es /\ length e = BlockLen) ->
  in_int64 n -> n + len blocks <= max_int64 ->
  Library.store_loop sha256 i blocks descriptors n w = (Returned (descriptors', n'), w') ->
  store_inv sha256 w0 es w'
  /\ networkStorage w ⊆ networkStorage w'
  /\ n <= n' <= n + len blocks
  /\ exists new, descriptors' = descriptors ++ new
       /\ Forall2 (decodes (networkStorage w')) new blocks.
Proof.
  intros Hpool Hfree. revert i descriptors n w.
  induction blocks as [|e blocks IH]; intros i descriptors n w Hinv Hes Hn Hmax Hloop.
  - cbn in Hloop. injection Hloop as <- <- <-.
    split; [done|]. split; [done|]. split; [unfold len; simpl; lia|].
    exists []. by rewrite app_nil_r.
  - cbn [Library.store_loop] in Hloop. unfold bind at 1 in Hloop.
    destruct (Library.store_encrypted sha256 i e w) as [[[d k]| | |] w1] eqn:Hstep;
      try done.
    cbn [fst snd] in Hloop.
    destruct (Hes e ltac:(left)) as [Hin Hlen].
    destruct (store_encrypted_step w0 es i e w d k w1 Hpool Hfree Hinv Hin Hlen Hstep)
      as (Hinv1 & Hsub1 & Hdec & Hk).
    assert (Hlen' : len (e :: blocks) = len blocks + 1)
      by (unfold len; simpl length; lia).
    assert (Hid : int64 (n + k) = n + k).
    { apply int64_id. unfold in_int64, min_int64, max_int64 in *.
      pose proof (len_nonneg blocks). lia. }
    rewrite Hid in Hloop.
    apply IH in Hloop as (Hinv' & Hsub' & Hn' & new & -> & Hall); [|done| | |lia].
    + split; [done|]. split; [by etrans|]. split; [lia|].
      exists (d :: new). split; [by rewrite <- app_assoc|].
      constructor; [by eapply decodes_mono | done].
    + intros e' He'. apply Hes. by right.
    + unfold in_int64, min_int64, max_int64 in *.
      pose proof (len_nonneg blocks). lia.
Qed.

(** *** Retrieval *)

Lemma retrieve_block_decodes password i d e w :
  decodes (networkStorage w) d e ->
  Library.retrieve_block sha256 password i d w
  = (Returned (Library.deterministicDecrypt sha256 e password i), w).
Proof.
  intros (c & Hc & Hcase).
  unfold Library.retrieve_block, bind, get, ret. rewrite Hc.
  destruct Hcase as [[Hz ->] | (Hnz & T & R & HT & HR & Hx)].
  - by rewrite decide_True.
  - rewrite decide_False by done. unfold storage_get. rewrite HT, HR.
    cbn [default from_option id]. by rewrite Hx.
Qed.

Lemma retrieve_loop_decodes password descriptors blocks w :
  Forall2 (decodes (networkStorage w)) descriptors blocks ->
  forall i acc,
    Library.retrieve_loop sha256 password i descriptors acc w
    = (Returned (acc ++ concat (imap (fun j e =>
                   Library.deterministicDecrypt sha256 e password (i + Z.of_nat j))
                 blocks)), w).
Proof.
  induction 1 as [|d e descriptors blocks Hd Hall IH]; intros i acc.
  - cbn. by rewrite app_nil_r.
  - cbn [Library.retrieve_loop]. unfold bind.
    rewrite (retrieve_block_decodes _ _ _ _ _ Hd).
    rewrite IH. cbn [imap concat]. rewrite <- app_assoc, Z.add_0_r.
    assert (Hshift : imap (fun j e0 => Library.deterministicDecrypt sha256 e0 password
                                         (i + 1 + Z.of_nat j)) blocks
                     = imap ((fun j e0 => Library.deterministicDecrypt sha256 e0 password
                                            (i + Z.of_nat j)) ∘ S) blocks).
    { apply imap_ext. intros j x _. unfold compose. f_equal. lia. }
    by rewrite Hshift.
Qed.

(** Decrypting the encrypted blocks from position [k] on gives the
    file's blocks from [k] on. *)
Lemma decrypt_encrypted_blocks data password (k : nat) :
  imap (fun j e => Library.deterministicDecrypt sha256 e password
                     (Z.of_nat k + Z.of_nat j))
    (drop k (encrypted_blocks sha256 data password))
  = drop k (Library.chunkFile data).
Proof.
  unfold encrypted_blocks.
  pose proof (chunkFile_lengths data) as Hall.
  revert Hall. generalize (Library.chunkFile data) as l. intros l Hall.
  apply list_eq. intros j.
  rewrite list_lookup_imap, !lookup_drop, list_lookup_imap.
  destruct (l !! (k + j)%nat) as [b|] eqn:Hb; [|reflexivity].
  cbn [fmap option_fmap option_map].
  f_equal. replace (Z.of_nat k + Z.of_nat j) with (Z.of_nat (k + j)) by lia.
  apply deterministicDecrypt_Encrypt.
  eapply Forall_forall in Hall; [exact Hall|]. by eapply list_elem_of_lookup_2.
Qed.

End LibraryStore.

Section LibraryRoundTrip.
Import Models LibrarySpec.

Variable sha256 : list Z -> list Z.

(** What a returning [StoreFile] did for a file the registry did not
    know. *)
Lemma StoreFile_fresh_returned fileName fileData password w n ptr w1 :
  manifestRegistry w !! sha256 fileData = None ->
  Library.StoreFile sha256 fileName fileData password w = (Returned (n, ptr), w1) ->
  exists descriptors w',
    Library.store_loop sha256 0 (encrypted_blocks sha256 fileData password) [] 0 w
    = (Returned (descriptors, n), w')
    /\ ptr = length (manifests w')
    /\ w1 = with_registry (<[sha256 fileData := ptr]> (manifestRegistry w'))
              (with_manifests
                 (manifests w'
                  ++ [mkFileManifest fileName (len fileData) (sha256 fileData)
                        (len (Library.chunkFile fileData)) descriptors (clock w') 1])
                 w').
Proof.
  intros Hreg. unfold Library.StoreFile. unfold bind at 1. unfold get at 1.
  rewrite Hreg. unfold bind at 1. fold (encrypted_blocks sha256 fileData password).
  destruct (Library.store_loop sha256 0 _ [] 0 w) as [[[descriptors k]| | |] w'];
    try done.
  unfold bind, get, modify, ret. cbn [fst snd].
  intros [= <- <- <-]. by exists descriptors, w'.
Qed.

(** [RetrieveFile] from block [k] of a file that [StoreFile] stored reads
    the file's blocks from [k] on and trims them only if they are longer
    than the whole file. *)
Lemma RetrieveFile_stored fileName fileData password w n ptr w1 (k : nat) :
  manifestRegistry w !! sha256 fileData = None ->
  content_addressed sha256 w ->
  pool_stored w ->
  collision_free sha256 (candidates w (encrypted_blocks sha256 fileData password)) ->
  len fileData <= max_int64 ->
  Library.StoreFile sha256 fileName fileData password w = (Returned (n, ptr), w1) ->
  Library.RetrieveFile sha256 ptr password (Z.of_nat k) w1
  = (Returned (if decide (k = 0%nat) then fileData
               else drop (k * BlockLen) (padded fileData)), w1)
  /\ 0 <= n <= len (Library.chunkFile fileData).
Proof.
  intros Hreg Hca Hpool Hfree Hmax Hstore.
  destruct (StoreFile_fresh_returned _ _ _ _ _ _ _ Hreg Hstore)
    as (descriptors & w' & Hloop & -> & ->).
  set (es := encrypted_blocks sha256 fileData password) in *.
  assert (Hes : forall e, e ∈ es -> e ∈ es /\ length e = BlockLen).
  { intros e He. split; [done|]. subst es. unfold encrypted_blocks in He.
    apply list_elem_of_lookup in He as [j Hj].
    rewrite list_lookup_imap in Hj.
    destruct (Library.chunkFile fileData !! j); [|done].
    apply (inj Some) in Hj. rewrite <- Hj. apply deterministicEncrypt_length. }
  assert (Hlen_es : len es = len (Library.chunkFile fileData)).
  { subst es. unfold encrypted_blocks, len. by rewrite length_imap. }
  assert (Hcount : len (Library.chunkFile fileData) <= len fileData).
  { unfold len. rewrite chunkFile_count.
    pose proof BlockLen_pos as Hpos. revert Hpos. generalize BlockLen as m.
    intros m Hpos. apply inj_le.
    destruct (decide (length fileData = 0%nat)) as [->|Hnz].
    - rewrite Nat.div_small; lia.
    - apply Nat.Div0.div_le_upper_bound. nia. }
  destruct (store_loop_returned sha256 w es 0 es [] 0 w descriptors n w' Hpool Hfree
              (store_inv_initial sha256 w es Hca) Hes)
    as (Hinv & _ & Hn & new & Hnew & Hall); [by vm_compute | lia | exact Hloop |].
  cbn [app] in Hnew. subst new.
  split; [|lia].
  set (mf := mkFileManifest fileName (len fileData) (sha256 fileData)
               (len (Library.chunkFile fileData)) descriptors (clock w') 1).
  set (w1 := with_registry _ _).
  assert (Hmf : manifests w1 !! length (manifests w') = Some mf).
  { subst w1. cbn [manifests with_registry with_manifests].
    rewrite lookup_app_r by lia. by rewrite Nat.sub_diag. }
  assert (Hst1 : networkStorage w1 = networkStorage w') by reflexivity.
  unfold Library.RetrieveFile. unfold bind at 1. unfold get at 1.
  rewrite Hmf.
  assert (Hk : (Z.of_nat k <? 0) = false) by (apply Z.ltb_ge; lia).
  rewrite Hk, Nat2Z.id. cbn [ConnectorBlocks mf FileSize].
  unfold bind.
  assert (Hdrop : Forall2 (decodes (networkStorage w1)) (drop k descriptors) (drop k es)).
  { rewrite Hst1. by apply Forall2_drop. }
  rewrite (retrieve_loop_decodes sha256 password _ _ w1 Hdrop (Z.of_nat k) []).
  cbn [app]. subst es. rewrite decrypt_encrypted_blocks.
  rewrite (concat_drop_blocks BlockLen k _ (chunkFile_lengths fileData)).
  rewrite chunkFile_concat.
  pose proof (padded_length fileData) as Hpl.
  pose proof (chunkFile_count fileData) as Hcnt.
  pose proof BlockLen_pos as Hpos.
  unfold ret.
  destruct (decide (k = 0%nat)) as [->|Hk0].
  - rewrite Nat.mul_0_l, drop_0.
    destruct (len (padded fileData) >? len fileData) eqn:Hgt.
    + assert (Hneg : (len fileData <? 0) = false)
        by (apply Z.ltb_ge; apply len_nonneg).
      rewrite Hneg. unfold len, padded. rewrite Nat2Z.id.
      by rewrite take_app_length.
    + rewrite Z.gtb_ltb in Hgt. apply Z.ltb_ge in Hgt.
      unfold len, padded in Hgt |- *. rewrite length_app, repeat_length in Hgt.
      assert (Hz : (length (Library.chunkFile fileData) * BlockLen
                    - length fileData = 0)%nat) by lia.
      rewrite Hz. cbn [repeat]. by rewrite app_nil_r.
  - assert (Hle : (len (drop (k * BlockLen) (padded fileData)) >? len fileData) = false).
    { rewrite Z.gtb_ltb. apply Z.ltb_ge. unfold len. apply inj_le.
      rewrite length_drop, Hpl, Hcnt.
      revert Hpos. generalize BlockLen as m. intros m Hpos.
      pose proof (ceil_div_bounds (length fileData) m Hpos) as (Hup & Hlow & Hzero).
      destruct (decide (length fileData = 0%nat)) as [Hz|Hnz].
      - rewrite (Hzero Hz). lia.
      - destruct (Hlow ltac:(lia)) as [Hq Hlt]. nia. }
    by rewrite Hle.
Qed.

End LibraryRoundTrip.

(** It suffices that the objects are among some whose hashes are pairwise
    different. *)
Lemma collision_free_of_NoDup (hash : list Z -> list Z) (distinct objs : list (list Z)) :
  (forall x, x ∈ objs -> x ∈ distinct) ->
  NoDup (hash <$> distinct) ->
  collision_free hash objs.
Proof.
  intros Hsub Hnd a b Ha Hb Hab.
  apply Hsub in Ha, Hb. clear Hsub.
  induction distinct as [|d distinct IH]; [by apply elem_of_nil in Ha|].
  cbn [fmap list_fmap] in Hnd. apply NoDup_cons in Hnd as [Hd Hnd].
  apply elem_of_cons in Ha as [->|Ha]; apply elem_of_cons in Hb as [->|Hb].
  - reflexivity.
  - exfalso. apply Hd. rewrite Hab. by apply list_elem_of_fmap_2.
  - exfalso. apply Hd. rewrite <- Hab. by apply list_elem_of_fmap_2.
  - by apply IH.
Qed.

Section LibraryClaims.
Import Models LibrarySpec DemoWorld.

(** X9. The anonymous library gives a stored file back.  If the store
    holds every block under its own hash, every pool entry names a stored
    block and is not the all-zero hash, and SHA-256 does not collide on
    the blocks involved, then after [StoreFile] returned for a file the
    registry did not know, [RetrieveFile] from block 0 returns the file's
    bytes and leaves the world as it is; the store created at most one
    block per block of the file. *)
Theorem library_RetrieveFile_after_StoreFile
    (sha256 : list Z -> list Z)
    (fileName : string) (fileData : list Z) (password : string)
    (w w1 : World) (n : Z) (ptr : nat) :
  manifestRegistry w !! sha256 fileData = None ->
  content_addressed sha256 w ->
  pool_stored w ->
  collision_free sha256 (candidates w (encrypted_blocks sha256 fileData password)) ->
  len fileData <= max_int64 ->
  Library.StoreFile sha256 fileName fileData password w = (Returned (n, ptr), w1) ->
  Library.RetrieveFile sha256 ptr password 0 w1 = (Returned fileData, w1)
  /\ 0 <= n <= len (Library.chunkFile fileData).
Proof.
  intros Hreg Hca Hpool Hfree Hmax Hstore.
  exact (RetrieveFile_stored sha256 fileName fileData password w n ptr w1 0
           Hreg Hca Hpool Hfree Hmax Hstore).
Qed.

Lemma populated_content_addressed ent : content_addressed Demo.sha256 (populated ent).
Proof.
  intros h b. unfold populated. cbn [networkStorage].
  rewrite !lookup_insert_Some, lookup_empty.
  intros [[<- <-] | [_ [[<- <-] | [_ ?]]]]; done.
Qed.

Lemma populated_pool_stored ent : pool_stored (populated ent).
Proof.
  intros t. unfold populated. cbn [top100Blocks networkStorage].
  intros Ht. apply elem_of_cons in Ht as [-> | Ht].
  - split; [by vm_compute|]. exists blockA. by vm_compute.
  - apply list_elem_of_singleton in Ht as ->.
    split; [by vm_compute|]. exists blockB. by vm_compute.
Qed.

Lemma populated_storage_get ent :
  storage_get (populated ent) hashA = blockA
  /\ storage_get (populated ent) hashB = blockB.
Proof.
  assert (Hne : hashB <> hashA) by (by vm_compute).
  unfold storage_get, populated. cbn [networkStorage].
  rewrite lookup_insert_ne, !lookup_insert_eq by exact Hne. done.
Qed.

(** On the network of the two popular blocks, the blocks a store can
    leave behind are the blocks to be stored, the two popular blocks,
    and the blocks to be stored masked with both of them. *)
Lemma populated_candidates ent blocks :
  Forall (fun e => length e = BlockLen) blocks ->
  forall x, x ∈ candidates (populated ent) blocks ->
    x ∈ blocks ++ [blockA; blockB] ++ ((fun e => xor e (xor blockA blockB)) <$> blocks).
Proof.
  intros Hlen x Hx. unfold candidates in Hx.
  destruct (populated_storage_get ent) as [HA HB].
  apply elem_of_app in Hx as [Hx|Hx]; [apply elem_of_app; by left|].
  apply elem_of_app in Hx as [Hx|Hx].
  - apply list_elem_of_fmap in Hx as ([h b] & -> & Hb).
    apply elem_of_map_to_list in Hb. unfold populated in Hb. cbn [networkStorage] in Hb.
    apply lookup_insert_Some in Hb as [[_ <-] | [_ Hb]].
    + apply elem_of_app. right. apply elem_of_app. left.
      apply elem_of_cons. right. apply elem_of_cons. by left.
    + apply lookup_insert_Some in Hb as [[_ <-] | [_ Hb]]; [|by rewrite lookup_empty in Hb].
      apply elem_of_app. right. apply elem_of_app. left. apply elem_of_cons. by left.
  - unfold connectors in Hx. apply list_elem_of_In, in_flat_map in Hx as (e & He & Hx).
    apply in_flat_map in Hx as (t & Ht & Hx).
    apply in_map_iff in Hx as (r & <- & Hr).
    apply list_elem_of_In in He, Ht, Hr.
    assert (Hel : length e = BlockLen) by (by eapply Forall_forall in Hlen).
    assert (Hpool : forall h, h ∈ top100Blocks (populated ent) ->
              storage_get (populated ent) h = blockA
              \/ storage_get (populated ent) h = blockB).
    { intros h Hh. unfold populated in Hh. cbn [top100Blocks] in Hh.
      apply elem_of_cons in Hh as [->|Hh]; [by left|].
      apply list_elem_of_singleton in Hh as ->. by right. }
    destruct (Hpool t Ht) as [-> | ->]; destruct (Hpool r Hr) as [-> | ->].
    + rewrite xor_same_masks by exact Hel. apply elem_of_app. by left.
    + apply elem_of_app. right. apply elem_of_app. right.
      apply list_elem_of_fmap. by exists e.
    + rewrite xor_swap_masks. apply elem_of_app. right. apply elem_of_app. right.
      apply list_elem_of_fmap. by exists e.
    + rewrite xor_same_masks by exact Hel. apply elem_of_app. by left.
Qed.

Lemma encrypted_blocks_lengths sha256 fileData password :
  Forall (fun e => length e = BlockLen) (encrypted_blocks sha256 fileData password).
Proof.
  apply Forall_forall. intros e He. unfold encrypted_blocks in He.
  apply list_elem_of_lookup in He as [j Hj]. rewrite list_lookup_imap in Hj.
  destruct (Library.chunkFile fileData !! j); [|done].
  apply (inj Some) in Hj. rewrite <- Hj. apply deterministicEncrypt_length.
Qed.

Lemma hello_collision_free :
  collision_free Demo.sha256
    (candidates (populated [0; 1]) (encrypted_blocks Demo.sha256 Demo.hello "secret")).
Proof.
  eapply collision_free_of_NoDup.
  - apply populated_candidates, encrypted_blocks_lengths.
  - apply (bool_decide_unpack _). vm_compute. reflexivity.
Qed.

Lemma hello_stored :
  let w := populated [0; 1] in
  let r := Library.StoreFile Demo.sha256 "hello.txt" Demo.hello "secret" w in
  r = (Returned (1, 0%nat), r.2).
Proof.
  intros w r.
  assert (H : r.1 = Returned (1, 0%nat)) by (vm_compute; reflexivity).
  rewrite (surjective_pairing r) at 1. by rewrite H.
Qed.

Lemma library_RetrieveFile_after_StoreFile_witness :
  let w := populated [0; 1] in
  let w1 := (Library.StoreFile Demo.sha256 "hello.txt" Demo.hello "secret" w).2 in
  manifestRegistry w !! Demo.sha256 Demo.hello = None
  /\ content_addressed Demo.sha256 w
  /\ pool_stored w
  /\ collision_free Demo.sha256
       (candidates w (encrypted_blocks Demo.sha256 Demo.hello "secret"))
  /\ len Demo.hello <= max_int64
  /\ Library.StoreFile Demo.sha256 "hello.txt" Demo.hello "secret" w
     = (Returned (1, 0%nat), w1)
  /\ Library.RetrieveFile Demo.sha256 0 "secret" 0 w1 = (Returned Demo.hello, w1).
Proof.
  intros w w1.
  assert (H1 : manifestRegistry w !! Demo.sha256 Demo.hello = None) by reflexivity.
  assert (H5 : len Demo.hello <= max_int64) by (vm_compute; discriminate).
  split; [exact H1|]. split; [apply populated_content_addressed|].
  split; [apply populated_pool_stored|]. split; [exact hello_collision_free|].
  split; [exact H5|]. split; [exact hello_stored|].
  exact (proj1 (library_RetrieveFile_after_StoreFile Demo.sha256 "hello.txt" Demo.hello
                  "secret" w w1 1 0 H1 (populated_content_addressed _)
                  (populated_pool_stored _) hello_collision_free H5 hello_stored)).
Defined.

(** X10. Seeking returns padding.  Under the same conditions,
    [RetrieveFile] from a block [k >= 1] returns the padded file from
    byte [4096 k] on: the zeros that fill the last block are not trimmed,
    because the trimming compares the bytes read with the size of the
    whole file. *)
Theorem library_RetrieveFile_seek_keeps_padding
    (sha256 : list Z -> list Z)
    (fileName : string) (fileData : list Z) (password : string)
    (w w1 : World) (n : Z) (ptr : nat) (k : nat) :
  manifestRegistry w !! sha256 fileData = None ->
  content_addressed sha256 w ->
  pool_stored w ->
  collision_free sha256 (candidates w (encrypted_blocks sha256 fileData password)) ->
  len fileData <= max_int64 ->
  Library.StoreFile sha256 fileName fileData password w = (Returned (n, ptr), w1) ->
  (1 <= k)%nat ->
  Library.RetrieveFile sha256 ptr password (Z.of_nat k) w1
  = (Returned (drop (k * BlockLen) fileData
               ++ repeat 0 (length (Library.chunkFile fileData) * BlockLen
                            - Nat.max (length fileData) (k * BlockLen))), w1).
Proof.
  intros Hreg Hca Hpool Hfree Hmax Hstore Hk.
  destruct (RetrieveFile_stored sha256 fileName fileData password w n ptr w1 k
              Hreg Hca Hpool Hfree Hmax Hstore) as [Hret _].
  rewrite Hret, decide_False by lia. do 2 f_equal.
  unfold padded. rewrite drop_app, drop_repeat. do 2 f_equal. lia.
Qed.

(** A file of two blocks: 4100 bytes, four of them in the second block. *)
Lemma long_collision_free :
  collision_free Demo.sha256
    (candidates (populated [0; 1; 1; 0])
       (encrypted_blocks Demo.sha256 (repeat 7 4100) "secret")).
Proof.
  eapply collision_free_of_NoDup.
  - apply populated_candidates, encrypted_blocks_lengths.
  - apply (bool_decide_unpack _). vm_compute. reflexivity.
Qed.

Lemma long_stored :
  let w := populated [0; 1; 1; 0] in
  let r := Library.StoreFile Demo.sha256 "long.bin" (repeat 7 4100) "secret" w in
  r = (Returned (2, 0%nat), r.2).
Proof.
  intros w r.
  assert (H : r.1 = Returned (2, 0%nat)) by (vm_compute; reflexivity).
  rewrite (surjective_pairing r) at 1. by rewrite H.
Qed.

Lemma library_RetrieveFile_seek_keeps_padding_witness :
  let w := populated [0; 1; 1; 0] in
  let data := repeat 7 4100 in
  let w1 := (Library.StoreFile Demo.sha256 "long.bin" data "secret" w).2 in
  manifestRegistry w !! Demo.sha256 data = None
  /\ content_addressed Demo.sha256 w
  /\ pool_stored w
  /\ collision_free Demo.sha256 (candidates w (encrypted_blocks Demo.sha256 data "secret"))
  /\ len data <= max_int64
  /\ Library.StoreFile Demo.sha256 "long.bin" data "secret" w = (Returned (2, 0%nat), w1)
  /\ Library.RetrieveFile Demo.sha256 0 "secret" 1 w1
     = (Returned (repeat 7 4 ++ repeat 0 4092), w1).
Proof.
  intros w data w1.
  assert (H1 : manifestRegistry w !! Demo.sha256 data = None) by reflexivity.
  assert (H5 : len data <= max_int64) by (vm_compute; discriminate).
  split; [exact H1|]. split; [apply populated_content_addressed|].
  split; [apply populated_pool_stored|]. split; [exact long_collision_free|].
  split; [exact H5|]. split; [exact long_stored|].
  pose proof (library_RetrieveFile_seek_keeps_padding Demo.sha256 "long.bin" data
                "secret" w w1 2 0 1 H1 (populated_content_addressed _)
                (populated_pool_stored _) long_collision_free H5 long_stored
                (le_n 1)) as Hseek.
  assert (Hout : drop (1 * BlockLen) data
                 ++ repeat 0 (length (Library.chunkFile data) * BlockLen
                              - Nat.max (length data) (1 * BlockLen))
                 = repeat 7 4 ++ repeat 0 4092) by (vm_compute; reflexivity).
  rewrite Hout in Hseek. exact Hseek.
Defined.

End LibraryClaims.

Section LibraryProgress.
Import Models LibrarySpec.

Variable sha256 : list Z -> list Z.

Lemma index_hash_in_range l i :
  0 <= i < len l -> exists h, index_hash l i = Returned h.
Proof.
  intros [Hlo Hhi]. unfold index_hash.
  destruct (i <? 0) eqn:Hneg; [apply Z.ltb_lt in Hneg; lia|].
  destruct (l !! Z.to_nat i) as [h|] eqn:Hl; [by exists h|].
  apply lookup_ge_None in Hl. unfold len in Hhi. lia.
Qed.

Lemma rem_index b n : 0 <= b -> 0 < n -> 0 <= Z.rem b n < n.
Proof. intros Hb Hn. apply Z.rem_bound_pos; lia. Qed.

(** With two entries in the pool and two bytes from [crypto/rand] the
    selection returns. *)
Lemma selectPopularBlocks_returns w b1 b2 rest :
  2 <= len (top100Blocks w) ->
  entropy w = b1 :: b2 :: rest -> 0 <= b1 -> 0 <= b2 ->
  exists t r,
    Library.selectPopularBlocks w = (Returned (t, r), with_entropy rest w).
Proof.
  intros Hpool Hent Hb1 Hb2.
  unfold Library.selectPopularBlocks, bind, get, panic, randInt, lift, ret.
  destruct (len (top100Blocks w) <? 2) eqn:Hlt; [apply Z.ltb_lt in Hlt; lia|].
  rewrite Hent.
  destruct (len (top100Blocks w) =? 0) eqn:Hz; [apply Z.eqb_eq in Hz; lia|].
  cbn [entropy with_entropy top100Blocks]. rewrite ?Hz.
  destruct (index_hash_in_range (top100Blocks w) (Z.rem b1 (len (top100Blocks w))))
    as [t Ht]; [apply rem_index; lia|].
  destruct (index_hash_in_range (top100Blocks w) (Z.rem b2 (len (top100Blocks w))))
    as [r Hr]; [apply rem_index; lia|].
  rewrite Ht, Hr. exists t, r. reflexivity.
Qed.

(** The storing loop returns when the pool has two entries and the
    entropy source has two bytes for every block. *)
Lemma store_loop_returns blocks i descriptors n w :
  2 <= len (top100Blocks w) ->
  (2 * length blocks <= length (entropy w))%nat ->
  Forall (fun b => 0 <= b) (entropy w) ->
  exists descriptors' n' w',
    Library.store_loop sha256 i blocks descriptors n w
    = (Returned (descriptors', n'), w')
    /\ manifests w' = manifests w /\ manifestRegistry w' = manifestRegistry w.
Proof.
  revert i descriptors n w.
  induction blocks as [|e blocks IH]; intros i descriptors n w Hpool Hent Hbytes.
  - by exists descriptors, n, w.
  - cbn [Library.store_loop]. unfold bind at 1.
    unfold Library.store_encrypted, hash. unfold bind at 1. unfold get at 1.
    simpl length in Hent.
    destruct (networkStorage w !! sha256 e) as [b|].
    + unfold ret. cbn [fst snd]. apply IH; [done | lia | done].
    + destruct (entropy w) as [|b1 [|b2 rest]] eqn:He; simpl in Hent; [lia|lia|].
      apply Forall_cons in Hbytes as [Hb1 Hbytes].
      apply Forall_cons in Hbytes as [Hb2 Hbytes].
      destruct (selectPopularBlocks_returns w b1 b2 rest Hpool He Hb1 Hb2)
        as (t & r & Hsel).
      unfold bind at 1. rewrite Hsel. unfold bind, get, modify, ret. cbn [fst snd].
      match goal with
      | |- context [Library.store_loop sha256 ?i' blocks ?d' ?n' ?w1] =>
          destruct (IH i' d' n' w1) as (d'' & n'' & w' & Hloop & Hm & Hr)
      end; [done | simpl; lia | done |].
      exists d'', n'', w'. split; [exact Hloop|]. done.
Qed.

End LibraryProgress.

Section LibraryProgressClaims.
Import Models LibrarySpec DemoWorld.

(** X11. [StoreFile] of the anonymous library cannot panic once the pool
    has two entries: if moreover the entropy source has two bytes for
    every block of the file and the registry points to allocated
    manifests, it returns, and the file is registered under its hash. *)
Theorem library_StoreFile_returns
    (sha256 : list Z -> list Z)
    (fileName : string) (fileData : list Z) (password : string) (w : World) :
  2 <= len (top100Blocks w) ->
  (2 * length (Library.chunkFile fileData) <= length (entropy w))%nat ->
  Forall (fun b => 0 <= b) (entropy w) ->
  (forall p, manifestRegistry w !! sha256 fileData = Some p ->
             is_Some (manifests w !! p)) ->
  exists n ptr w1,
    Library.StoreFile sha256 fileName fileData password w = (Returned (n, ptr), w1)
    /\ manifestRegistry w1 !! sha256 fileData = Some ptr
    /\ is_Some (manifests w1 !! ptr).
Proof.
  intros Hpool Hent Hbytes Hvalid.
  unfold Library.StoreFile. unfold bind at 1. unfold get at 1.
  destruct (manifestRegistry w !! sha256 fileData) as [p|] eqn:Hreg.
  - destruct (Hvalid p eq_refl) as [mf Hmf]. rewrite Hmf.
    unfold bind, modify, ret. exists 0, p, (with_manifests (<[p := Library.bump_score mf]> (manifests w)) w).
    split; [reflexivity|]. split; [exact Hreg|].
    cbn [manifests with_manifests]. apply lookup_lt_is_Some.
    rewrite length_insert. by eapply lookup_lt_Some.
  - unfold bind at 1.
    destruct (store_loop_returns sha256
                (imap (fun i block => Library.deterministicEncrypt sha256 block password
                                        (Z.of_nat i)) (Library.chunkFile fileData))
                0 [] 0 w Hpool) as (ds & n & w' & Hloop & Hm & Hr);
      [by rewrite length_imap | done |].
    rewrite Hloop. unfold bind, get, modify, ret. cbn [fst snd].
    eexists _, _, _. split; [reflexivity|].
    cbn [manifestRegistry manifests with_registry with_manifests].
    split; [apply lookup_insert_eq|].
    apply lookup_lt_is_Some. rewrite length_app. simpl. lia.
Qed.

Lemma library_StoreFile_returns_witness :
  let w := populated [0; 1] in
  2 <= len (top100Blocks w)
  /\ (2 * length (Library.chunkFile Demo.hello) <= length (entropy w))%nat
  /\ Forall (fun b => 0 <= b) (entropy w)
  /\ exists n ptr w1,
       Library.StoreFile Demo.sha256 "hello.txt" Demo.hello "secret" w
       = (Returned (n, ptr), w1)
       /\ manifestRegistry w1 !! Demo.sha256 Demo.hello = Some ptr.
Proof.
  intros w.
  assert (H1 : 2 <= len (top100Blocks w)) by (vm_compute; discriminate).
  assert (H2 : (2 * length (Library.chunkFile Demo.hello) <= length (entropy w))%nat)
    by (apply Nat.leb_le; vm_compute; reflexivity).
  assert (H3 : Forall (fun b => 0 <= b) (entropy w))
    by (repeat constructor; lia).
  assert (H4 : forall p, manifestRegistry w !! Demo.sha256 Demo.hello = Some p ->
                         is_Some (manifests w !! p)) by (intros p Hp; discriminate Hp).
  split; [exact H1|]. split; [exact H2|]. split; [exact H3|].
  destruct (library_StoreFile_returns Demo.sha256 "hello.txt" Demo.hello "secret" w
              H1 H2 H3 H4) as (n & ptr & w1 & Hst & Hreg & _).
  exists n, ptr, w1. split; [exact Hst | exact Hreg].
Defined.

(** X12. The encryption repeats one 32-byte key over the block, so a
    block that ends in 32 zero bytes, as the padded last block of a file
    does, gives the key away: the block can be computed from its
    encryption alone, whatever the password and the position. *)
Theorem padding_reveals_key
    (sha256 : list Z -> list Z) (block : list Z) (password : string) (position : Z) :
  length block = BlockLen ->
  (forall k, (BlockLen - 32 <= k < BlockLen)%nat -> nth k block 0 = 0) ->
  unmask_by_padding (Library.deterministicEncrypt sha256 block password position)
  = block.
Proof.
  intros Hlen Hzero. unfold unmask_by_padding.
  apply map_seq_ext; [exact Hlen|]. intros j Hj.
  assert (H32 : (32 <= BlockLen)%nat) by (apply Nat.leb_le; vm_compute; reflexivity).
  assert (Hdiv : ((BlockLen - 32) mod 32 = 0)%nat) by (vm_compute; reflexivity).
  assert (Hm : (j mod 32 < 32)%nat) by (apply Nat.mod_upper_bound; lia).
  set (tail := (BlockLen - 32 + j mod 32)%nat).
  assert (Htail : (BlockLen - 32 <= tail < BlockLen)%nat) by (subst tail; lia).
  assert (Hmod : (tail mod 32 = j mod 32)%nat).
  { subst tail. rewrite Nat.Div0.add_mod, Hdiv, Nat.add_0_l.
    by rewrite !Nat.Div0.mod_mod. }
  unfold Library.deterministicEncrypt.
  rewrite !nth_map_seq by lia.
  rewrite (Hzero tail Htail), Hmod.
  unfold xor_byte at 3. rewrite Z.lxor_0_l. apply xor_byte_cancel.
Qed.

Lemma padding_reveals_key_witness :
  let block := Library.chunk Demo.hello 0 in
  length block = BlockLen
  /\ unmask_by_padding (Library.deterministicEncrypt Demo.sha256 block "secret" 0)
     = block
  /\ take 10 (unmask_by_padding
                (Library.deterministicEncrypt Demo.sha256 block "secret" 0))
     = Demo.hello.
Proof.
  intros block.
  assert (H1 : length block = BlockLen) by apply chunk_length.
  assert (H2 : forall k, (BlockLen - 32 <= k < BlockLen)%nat -> nth k block 0 = 0).
  { intros k Hk. subst block. unfold Library.chunk.
    assert (Hp : take BlockLen (drop (0 * BlockLen) Demo.hello) = Demo.hello)
      by (vm_compute; reflexivity).
    rewrite Hp. assert (Hl : length Demo.hello = 10%nat) by reflexivity.
    assert (H32 : (42 <= BlockLen)%nat) by (apply Nat.leb_le; vm_compute; reflexivity).
    rewrite app_nth2 by lia. apply nth_repeat. }
  pose proof (padding_reveals_key Demo.sha256 block "secret" 0 H1 H2) as Hk.
  split; [exact H1|]. split; [exact Hk|].
  rewrite Hk. vm_compute. reflexivity.
Defined.

End LibraryProgressClaims.

Section LibraryPassword.
Import Models LibrarySpec.

Variable sha256 : list Z -> list Z.

Lemma deterministicDecrypt_length block password position :
  length (Library.deterministicDecrypt sha256 block password position) = BlockLen.
Proof. unfold Library.deterministicDecrypt. by rewrite length_map, length_seq. Qed.

Lemma length_concat_blocks (n : nat) (l : list (list Z)) :
  Forall (fun b => length b = n) l -> length (concat l) = (length l * n)%nat.
Proof.
  induction 1 as [|b l Hb Hall IH]; [reflexivity|].
  cbn [concat length]. rewrite length_app, IH, Hb. lia.
Qed.

(** [RetrieveFile] from block 0 with any password: it decrypts the
    encrypted blocks with that password and trims to the file size. *)
Lemma RetrieveFile_stored_with fileName fileData password password' w n ptr w1 :
  manifestRegistry w !! sha256 fileData = None ->
  content_addressed sha256 w ->
  pool_stored w ->
  collision_free sha256 (candidates w (encrypted_blocks sha256 fileData password)) ->
  len fileData <= max_int64 ->
  Library.StoreFile sha256 fileName fileData password w = (Returned (n, ptr), w1) ->
  Library.RetrieveFile sha256 ptr password' 0 w1
  = (Returned (take (length fileData) (decrypted_with sha256 fileData password password')),
     w1).
Proof.
  intros Hreg Hca Hpool Hfree Hmax Hstore.
  destruct (StoreFile_fresh_returned _ _ _ _ _ _ _ _ Hreg Hstore)
    as (descriptors & w' & Hloop & -> & ->).
  set (es := encrypted_blocks sha256 fileData password) in *.
  assert (Hes : forall e, e ∈ es -> e ∈ es /\ length e = BlockLen).
  { intros e He. split; [done|]. subst es. unfold encrypted_blocks in He.
    apply list_elem_of_lookup in He as [j Hj].
    rewrite list_lookup_imap in Hj.
    destruct (Library.chunkFile fileData !! j); [|done].
    apply (inj Some) in Hj. rewrite <- Hj. apply deterministicEncrypt_length. }
  assert (Hlen_es : len es = len (Library.chunkFile fileData)).
  { subst es. unfold encrypted_blocks, len. by rewrite length_imap. }
  assert (Hcount : len (Library.chunkFile fileData) <= len fileData).
  { unfold len. rewrite chunkFile_count.
    pose proof BlockLen_pos as Hpos. revert Hpos. generalize BlockLen as m.
    intros m Hpos. apply inj_le.
    destruct (decide (length fileData = 0%nat)) as [->|Hnz].
    - rewrite Nat.div_small; lia.
    - apply Nat.Div0.div_le_upper_bound. nia. }
  destruct (store_loop_returned sha256 w es 0 es [] 0 w descriptors n w' Hpool Hfree
              (store_inv_initial sha256 w es Hca) Hes)
    as (Hinv & _ & Hn & new & Hnew & Hall); [by vm_compute | lia | exact Hloop |].
  cbn [app] in Hnew. subst new.
  set (mf := mkFileManifest fileName (len fileData) (sha256 fileData)
               (len (Library.chunkFile fileData)) descriptors (clock w') 1).
  set (w1 := with_registry _ _).
  assert (Hmf : manifests w1 !! length (manifests w') = Some mf).
  { subst w1. cbn [manifests with_registry with_manifests].
    rewrite lookup_app_r by lia. by rewrite Nat.sub_diag. }
  assert (Hst1 : networkStorage w1 = networkStorage w') by reflexivity.
  unfold Library.RetrieveFile. unfold bind at 1. unfold get at 1.
  rewrite Hmf. change (0 <? 0) with false. cbv iota.
  change (Z.to_nat 0) with 0%nat. rewrite drop_0.
  cbn [ConnectorBlocks mf FileSize]. unfold bind.
  rewrite <- Hst1 in Hall.
  rewrite (retrieve_loop_decodes sha256 password' _ _ w1 Hall 0 []).
  cbn [app].
  assert (Hdec : concat (imap (fun j e => Library.deterministicDecrypt sha256 e password'
                                            (0 + Z.of_nat j)) es)
                 = decrypted_with sha256 fileData password password').
  { unfold decrypted_with. f_equal. subst es. unfold encrypted_blocks.
    apply list_eq. intros j. rewrite !list_lookup_imap.
    destruct (Library.chunkFile fileData !! j); [|reflexivity].
    cbn [fmap option_fmap option_map]. cbv beta. by rewrite Z.add_0_l. }
  rewrite Hdec.
  assert (Hlen : length (decrypted_with sha256 fileData password password')
                 = (length (Library.chunkFile fileData) * BlockLen)%nat).
  { unfold decrypted_with. rewrite (length_concat_blocks BlockLen).
    - by rewrite length_imap.
    - apply Forall_forall. intros b Hb. apply list_elem_of_lookup in Hb as [j Hj].
      rewrite list_lookup_imap in Hj.
      destruct (Library.chunkFile fileData !! j); [|done].
      apply (inj Some) in Hj. rewrite <- Hj. apply deterministicDecrypt_length. }
  unfold ret.
  destruct (len (decrypted_with sha256 fileData password password') >? len fileData)
    eqn:Hgt.
  - assert (Hneg : (len fileData <? 0) = false)
      by (apply Z.ltb_ge; apply len_nonneg).
    rewrite Hneg. unfold len. by rewrite Nat2Z.id.
  - rewrite Z.gtb_ltb in Hgt. apply Z.ltb_ge in Hgt. unfold len in Hgt.
    rewrite take_ge by lia. reflexivity.
Qed.

End LibraryPassword.

Section LibraryPasswordClaims.
Import Models LibrarySpec DemoWorld.

(** X13. [RetrieveFile] does not check the password.  Under the
    conditions of the round trip, retrieval with any password returns
    without an error as many bytes as the file has: the file's blocks
    encrypted with the password of the store and decrypted with the
    password of the retrieval. *)
Theorem library_RetrieveFile_accepts_any_password
    (sha256 : list Z -> list Z)
    (fileName : string) (fileData : list Z) (password password' : string)
    (w w1 : World) (n : Z) (ptr : nat) :
  manifestRegistry w !! sha256 fileData = None ->
  content_addressed sha256 w ->
  pool_stored w ->
  collision_free sha256 (candidates w (encrypted_blocks sha256 fileData password)) ->
  len fileData <= max_int64 ->
  Library.StoreFile sha256 fileName fileData password w = (Returned (n, ptr), w1) ->
  exists out,
    Library.RetrieveFile sha256 ptr password' 0 w1 = (Returned out, w1)
    /\ out = take (length fileData) (decrypted_with sha256 fileData password password')
    /\ length out = length fileData.
Proof.
  intros Hreg Hca Hpool Hfree Hmax Hstore.
  eexists. split; [by eapply RetrieveFile_stored_with|]. split; [reflexivity|].
  apply length_take_le.
  unfold decrypted_with. rewrite (length_concat_blocks BlockLen).
  - rewrite length_imap, <- padded_length. unfold padded. rewrite length_app. lia.
  - apply Forall_forall. intros b Hb. apply list_elem_of_lookup in Hb as [j Hj].
    rewrite list_lookup_imap in Hj.
    destruct (Library.chunkFile fileData !! j); [|done].
    apply (inj Some) in Hj. rewrite <- Hj. apply deterministicDecrypt_length.
Qed.

Lemma library_RetrieveFile_accepts_any_password_witness :
  let w := populated [0; 1] in
  let w1 := (Library.StoreFile Demo.sha256 "hello.txt" Demo.hello "secret" w).2 in
  manifestRegistry w !! Demo.sha256 Demo.hello = None
  /\ content_addressed Demo.sha256 w
  /\ pool_stored w
  /\ collision_free Demo.sha256
       (candidates w (encrypted_blocks Demo.sha256 Demo.hello "secret"))
  /\ len Demo.hello <= max_int64
  /\ Library.StoreFile Demo.sha256 "hello.txt" Demo.hello "secret" w
     = (Returned (1, 0%nat), w1)
  /\ Library.RetrieveFile Demo.sha256 0 "public" 0 w1
     = (Returned [75; 117; 109; 114; 99; 64; 111; 114; 108; 100], w1).
Proof.
  intros w w1.
  assert (H1 : manifestRegistry w !! Demo.sha256 Demo.hello = None) by reflexivity.
  assert (H5 : len Demo.hello <= max_int64) by (vm_compute; discriminate).
  split; [exact H1|]. split; [apply populated_content_addressed|].
  split; [apply populated_pool_stored|]. split; [exact hello_collision_free|].
  split; [exact H5|]. split; [exact hello_stored|].
  destruct (library_RetrieveFile_accepts_any_password Demo.sha256 "hello.txt" Demo.hello
              "secret" "public" w w1 1 0 H1 (populated_content_addressed _)
              (populated_pool_stored _) hello_collision_free H5 hello_stored)
    as (out & Hret & Hout & _).
  assert (Hv : take (length Demo.hello)
                 (decrypted_with Demo.sha256 Demo.hello "secret" "public")
               = [75; 117; 109; 114; 99; 64; 111; 114; 108; 100])
    by (vm_compute; reflexivity).
  rewrite Hout, Hv in Hret. exact Hret.
Defined.

(** X14. [chunkFile] cuts a file into the smallest number of 4096-byte
    blocks that holds it; laid end to end the blocks are the file
    followed by zeros. *)
Theorem chunkFile_shape (fileData : list Z) :
  length (Library.chunkFile fileData) = ((length fileData + BlockLen - 1) / BlockLen)%nat
  /\ Forall (fun block => length block = BlockLen) (Library.chunkFile fileData)
  /\ concat (Library.chunkFile fileData)
     = fileData ++ repeat 0 (length (Library.chunkFile fileData) * BlockLen
                             - length fileData)
  /\ take (length fileData) (concat (Library.chunkFile fileData)) = fileData.
Proof.
  split; [apply chunkFile_count|]. split; [apply chunkFile_lengths|].
  pose proof (chunkFile_concat fileData) as Hc. unfold padded in Hc.
  split; [exact Hc|]. rewrite Hc. by rewrite take_app_length.
Qed.

End LibraryPasswordClaims.

Section LibraryManifest.
Import Models LibrarySpec.

Variable sha256 : list Z -> list Z.

(** The storing loop appends one manifest entry per block, numbered from
    the loop's counter on, and leaves the heap of manifests alone. *)
Lemma store_loop_positions blocks i descriptors n w descriptors' n' w' :
  Library.store_loop sha256 i blocks descriptors n w = (Returned (descriptors', n'), w') ->
  manifests w' = manifests w
  /\ manifestRegistry w' = manifestRegistry w
  /\ clock w' = clock w
  /\ exists new, descriptors' = descriptors ++ new
       /\ length new = length blocks
       /\ forall j d, new !! j = Some d -> Position d = i + Z.of_nat j.
Proof.
  revert i descriptors n w.
  induction blocks as [|e blocks IH]; intros i descriptors n w Hloop.
  - cbn in Hloop. injection Hloop as <- <- <-.
    split; [done|]. split; [done|]. split; [done|]. exists []. rewrite app_nil_r.
    split; [done|]. split; [done|]. intros j d Hj. by rewrite lookup_nil in Hj.
  - cbn [Library.store_loop] in Hloop. unfold bind at 1 in Hloop.
    destruct (Library.store_encrypted sha256 i e w) as [[[d k]| | |] w1] eqn:Hstep;
      try done.
    cbn [fst snd] in Hloop.
    apply IH in Hloop as (Hm & Hr & Hc & new & -> & Hlen & Hpos).
    assert (Hd : Position d = i /\ manifests w1 = manifests w
                 /\ manifestRegistry w1 = manifestRegistry w /\ clock w1 = clock w).
    { apply store_encrypted_returned in Hstep
        as [(_ & -> & _ & ->) | (_ & t & r & ent & _ & _ & Hd)]; [done|].
      cbv zeta in Hd. by destruct Hd as (-> & _ & ->). }
    destruct Hd as (Hd & Hm1 & Hr1 & Hc1).
    split; [congruence|]. split; [congruence|]. split; [congruence|].
    exists (d :: new). split; [by rewrite <- app_assoc|].
    split; [simpl; by rewrite Hlen|].
    intros [|j] d' Hj.
    + injection Hj as <-. lia.
    + cbn in Hj. rewrite (Hpos j d' Hj). lia.
Qed.

End LibraryManifest.

Section LibraryManifestClaims.
Import Models LibrarySpec DemoWorld.

(** X15. The manifest [StoreFile] writes for a file the registry did not
    know: a new manifest at the end of the heap, registered under the
    file's hash, with the file's name, size and hash, popularity 1, and
    one entry per 4096-byte block of the file, the entry at index [j]
    carrying position [j]. *)
Theorem library_StoreFile_manifest
    (sha256 : list Z -> list Z)
    (fileName : string) (fileData : list Z) (password : string)
    (w w1 : World) (n : Z) (ptr : nat) :
  manifestRegistry w !! sha256 fileData = None ->
  Library.StoreFile sha256 fileName fileData password w = (Returned (n, ptr), w1) ->
  exists mf,
    manifests w1 = manifests w ++ [mf]
    /\ ptr = length (manifests w)
    /\ manifestRegistry w1 = <[sha256 fileData := ptr]> (manifestRegistry w)
    /\ FileName mf = fileName /\ FileSize mf = len fileData
    /\ FileHash mf = sha256 fileData
    /\ CreatedAt mf = clock w /\ PopularityScore mf = 1
    /\ BlockCount mf = len (Library.chunkFile fileData)
    /\ len (ConnectorBlocks mf) = BlockCount mf
    /\ forall j d, ConnectorBlocks mf !! j = Some d -> Position d = Z.of_nat j.
Proof.
  intros Hreg Hstore.
  destruct (StoreFile_fresh_returned sha256 _ _ _ _ _ _ _ Hreg Hstore)
    as (descriptors & w' & Hloop & -> & ->).
  apply store_loop_positions in Hloop as (Hm & Hr & Hc & new & Hnew & Hlen & Hpos).
  cbn [app] in Hnew. subst new.
  eexists. cbn [manifests manifestRegistry with_registry with_manifests].
  rewrite Hm, Hr, Hc.
  split; [reflexivity|]. split; [reflexivity|]. split; [reflexivity|].
  cbn [FileName FileSize FileHash CreatedAt PopularityScore BlockCount ConnectorBlocks].
  repeat (split; [reflexivity|]).
  split.
  - unfold len. rewrite Hlen. unfold encrypted_blocks. by rewrite length_imap.
  - intros j d Hj. rewrite (Hpos j d Hj). lia.
Qed.

Lemma library_StoreFile_manifest_witness :
  let w := populated [0; 1] in
  let w1 := (Library.StoreFile Demo.sha256 "hello.txt" Demo.hello "secret" w).2 in
  manifestRegistry w !! Demo.sha256 Demo.hello = None
  /\ Library.StoreFile Demo.sha256 "hello.txt" Demo.hello "secret" w
     = (Returned (1, 0%nat), w1)
  /\ exists mf,
       manifests w1 = [mf] /\ FileSize mf = 10 /\ BlockCount mf = 1
       /\ len (ConnectorBlocks mf) = 1.
Proof.
  intros w w1.
  assert (H1 : manifestRegistry w !! Demo.sha256 Demo.hello = None) by reflexivity.
  split; [exact H1|]. split; [exact hello_stored|].
  destruct (library_StoreFile_manifest Demo.sha256 "hello.txt" Demo.hello "secret"
              w w1 1 0 H1 hello_stored)
    as (mf & Hm & _ & _ & _ & Hsize & _ & _ & _ & Hcount & Hlen & _).
  exists mf. split; [exact Hm|]. split; [exact Hsize|].
  assert (Hone : len (Library.chunkFile Demo.hello) = 1) by (vm_compute; reflexivity).
  rewrite Hone in Hcount. split; [exact Hcount|]. by rewrite Hlen.
Defined.

End LibraryManifestClaims.

(** ** The connector model with differential privacy *)

Section PrivacyStore.
Import Models LibrarySpec.

Variable sha256 : list Z -> list Z.
Variable geometric : nat -> Z.

(** Whatever the noise, the wrapped index falls inside the pool. *)
Lemma wrapped_choice_in_range (x n : Z) :
  0 < n <= max_int64 ->
  let finalChoice := Z.rem x n in
  0 <= (if finalChoice <? 0 then int64 (finalChoice + n) else finalChoice) < n.
Proof.
  intros Hn finalChoice.
  assert (Hb : - n < finalChoice < n).
  { subst finalChoice. pose proof (Z.rem_bound_abs x n ltac:(lia)). lia. }
  destruct (finalChoice <? 0) eqn:Hneg.
  - apply Z.ltb_lt in Hneg.
    rewrite int64_id by (unfold in_int64, min_int64, max_int64 in *; lia). lia.
  - apply Z.ltb_ge in Hneg. lia.
Qed.

(** [selectBlockWithDP] returns a pool entry for every noise value; it
    takes one sample of the noise and one random byte. *)
Lemma selectBlockWithDP_returns original salt w b rest :
  0 < len (top100Blocks w) <= max_int64 ->
  entropy w = b :: rest ->
  exists h, h ∈ top100Blocks w
    /\ Privacy.selectBlockWithDP sha256 geometric original salt w
       = (Returned h, with_entropy rest (with_draws (S (draws w)) w)).
Proof.
  intros Hn Hent.
  unfold Privacy.selectBlockWithDP, bind, get, panic, Privacy.next_geometric,
    randInt, lift.
  destruct (len (top100Blocks w) =? 0) eqn:Hz; [apply Z.eqb_eq in Hz; lia|].
  cbn [entropy with_draws]. rewrite Hent.
  change (2 =? 0) with false. cbv iota.
  match goal with
  | |- context [index_hash (top100Blocks w) ?i] =>
      destruct (index_hash_in_range (top100Blocks w) i) as [h Hh];
        [apply wrapped_choice_in_range; lia|]
  end.
  rewrite Hh. exists h. split; [by eapply index_hash_elem | reflexivity].
Qed.

End PrivacyStore.

Section PrivacyClaims.
Import Models LibrarySpec DemoWorld.

(** X16. [Store] of the connector model with differential privacy.  With
    two entries in the pool and two random bytes it returns 1 for every
    noise the geometric sampler yields: it picks a target and a
    randomizer from the pool, puts the connector block under its hash
    and raises the three popularity counts.  The block handed in is the
    XOR of the connector with the two pool blocks. *)
Theorem privacy_Store_stores_connector
    (sha256 : list Z -> list Z) (geometric : nat -> Z)
    (original : list Z) (w : World) (b1 b2 : Z) (rest : list Z) :
  2 <= len (top100Blocks w) <= max_int64 ->
  entropy w = b1 :: b2 :: rest ->
  length original = BlockLen ->
  exists t r w1,
    t ∈ top100Blocks w /\ r ∈ top100Blocks w
    /\ Privacy.Store sha256 geometric original w = (Returned 1, w1)
    /\ let masks := xor (storage_get w t) (storage_get w r) in
       let c := xor original masks in
       networkStorage w1 = <[sha256 c := c]> (networkStorage w)
       /\ blockPopularity w1 = bump r (bump t (bump (sha256 c) (blockPopularity w)))
       /\ top100Blocks w1 = top100Blocks w
       /\ entropy w1 = rest /\ draws w1 = S (S (draws w))
       /\ xor c masks = original.
Proof.
  intros Hpool Hent Hlen.
  destruct (selectBlockWithDP_returns sha256 geometric original "target" w b1
              (b2 :: rest) ltac:(lia) Hent) as (t & Ht & Hsel1).
  set (wa := with_entropy (b2 :: rest) (with_draws (S (draws w)) w)) in *.
  assert (Hwa : 0 < len (top100Blocks wa) <= max_int64)
    by (change (top100Blocks wa) with (top100Blocks w); lia).
  destruct (selectBlockWithDP_returns sha256 geometric original "randomizer" wa b2
              rest Hwa eq_refl) as (r & Hr & Hsel2).
  exists t, r. eexists. split; [exact Ht|]. split; [exact Hr|].
  split.
  - unfold Privacy.Store. unfold bind at 1. unfold get at 1.
    destruct (len (top100Blocks w) <? 2) eqn:Hlt; [apply Z.ltb_lt in Hlt; lia|].
    unfold bind at 1. rewrite Hsel1. unfold bind at 1. rewrite Hsel2.
    unfold bind, get, modify, ret. reflexivity.
  - cbn [networkStorage blockPopularity top100Blocks entropy draws
         with_popularity with_storage with_entropy with_draws wa storage_get].
    repeat (split; [reflexivity|]).
    by apply models_xor_round_trip.
Qed.

Lemma privacy_Store_stores_connector_witness :
  let w := populated [0; 1] in
  2 <= len (top100Blocks w) <= max_int64
  /\ entropy w = [0; 1]
  /\ length blockA = BlockLen
  /\ exists t r w1,
       t ∈ top100Blocks w /\ r ∈ top100Blocks w
       /\ Privacy.Store Demo.sha256 Demo.geometric_zero blockA w = (Returned 1, w1)
       /\ entropy w1 = [].
Proof.
  intros w.
  assert (H1 : 2 <= len (top100Blocks w) <= max_int64)
    by (vm_compute; split; discriminate).
  assert (H3 : length blockA = BlockLen) by apply repeat_length.
  split; [exact H1|]. split; [reflexivity|]. split; [exact H3|].
  destruct (privacy_Store_stores_connector Demo.sha256 Demo.geometric_zero blockA w
              0 1 [] H1 eq_refl H3) as (t & r & w1 & Ht & Hr & Hst & Hrest).
  cbv zeta in Hrest. destruct Hrest as (_ & _ & _ & He & _).
  exists t, r, w1. split; [exact Ht|]. split; [exact Hr|]. split; [exact Hst|]. exact He.
Defined.

End PrivacyClaims.

(** ** Consistency of the simulated network *)

Section NetFrame.
Import Models NetSpec.

Lemma keeps_net_ret {A} (a : A) : keeps_net (ret a).
Proof. by intros w. Qed.
Lemma keeps_net_lift {A} (o : outcome A) : keeps_net (lift o).
Proof. by intros w. Qed.
Lemma keeps_net_panic {A} msg : keeps_net (@panic World A msg).
Proof. by intros w. Qed.
Lemma keeps_net_fail {A} err : keeps_net (@fail World A err).
Proof. by intros w. Qed.
Lemma keeps_net_get : keeps_net (@get World).
Proof. by intros w. Qed.
Lemma keeps_net_modify (f : World -> World) :
  (forall w, net (f w) = net w) -> keeps_net (modify f).
Proof. intros Hf w. apply Hf. Qed.
Lemma keeps_net_bind {A B} (m : M World A) (k : A -> M World B) :
  keeps_net m -> (forall a, keeps_net (k a)) -> keeps_net (bind m k).
Proof.
  intros Hm Hk w. unfold bind. specialize (Hm w).
  destruct (m w) as [[a| | |] w']; simpl in *; try exact Hm.
  rewrite Hk. exact Hm.
Qed.

End NetFrame.

Ltac keeps_net_step :=
  first
    [ apply keeps_net_ret | apply keeps_net_lift | apply keeps_net_panic
    | apply keeps_net_fail | apply keeps_net_get
    | apply keeps_net_modify; intros; reflexivity
    | apply keeps_net_bind; [|intros]
    | match goal with
      | |- NetSpec.keeps_net (if ?c then _ else _) => destruct c
      | |- NetSpec.keeps_net (match ?x with _ => _ end) => destruct x
      end ].

Ltac keeps_net_auto := repeat keeps_net_step.

Section NetTheory.
Import Models PoolSpec NetSpec.

Variable sha256 : list Z -> list Z.
Variable pop_range : nat -> gmap (list Z) Z -> list (list Z * Z).
Variable sort_Slice : list (list Z * Z) -> list (list Z * Z).
Variable geometric : nat -> Z.

Hypothesis pop_range_perm : forall n m, pop_range n m ≡ₚ map_to_list m.
Hypothesis sort_Slice_perm : forall l, sort_Slice l ≡ₚ l.

Lemma keeps_net_randInt max : keeps_net (randInt max).
Proof.
  intros w. unfold randInt. destruct (entropy w); [done|]. by destruct (max =? 0).
Qed.

Lemma keeps_net_selectPopularBlocks : keeps_net Library.selectPopularBlocks.
Proof.
  unfold Library.selectPopularBlocks.
  apply keeps_net_bind; [apply keeps_net_get|intros w].
  destruct (_ <? _); [apply keeps_net_panic|].
  apply keeps_net_bind; [apply keeps_net_randInt|intros idx1].
  apply keeps_net_bind; [apply keeps_net_randInt|intros idx2].
  keeps_net_auto.
Qed.

Lemma keeps_net_selectBlockWithDP original salt :
  keeps_net (Privacy.selectBlockWithDP sha256 geometric original salt).
Proof.
  unfold Privacy.selectBlockWithDP.
  apply keeps_net_bind; [apply keeps_net_get|intros w].
  destruct (_ =? _); [apply keeps_net_panic|].
  apply keeps_net_bind; [by intros w'|intros noise].
  apply keeps_net_bind; [apply keeps_net_randInt|intros coin].
  apply keeps_net_lift.
Qed.

Lemma keeps_net_retrieve_loop password i descriptors data :
  keeps_net (Library.retrieve_loop sha256 password i descriptors data).
Proof.
  revert i data. induction descriptors as [|d ds IH]; intros i data; simpl.
  - apply keeps_net_ret.
  - apply keeps_net_bind; [|intros block; apply IH].
    unfold Library.retrieve_block. keeps_net_auto.
Qed.

Lemma keeps_net_RetrieveFile manifest password startBlock :
  keeps_net (Library.RetrieveFile sha256 manifest password startBlock).
Proof.
  unfold Library.RetrieveFile.
  apply keeps_net_bind; [apply keeps_net_get|intros w].
  destruct (_ !! _); [|apply keeps_net_panic].
  destruct (_ <? _); [apply keeps_net_panic|].
  apply keeps_net_bind; [apply keeps_net_retrieve_loop|intros data].
  keeps_net_auto.
Qed.

(** The invariant reads the network only. *)
Lemma network_inv_net w w' :
  net w' = net w -> network_inv sha256 w -> network_inv sha256 w'.
Proof.
  unfold net, network_inv. intros [= Hs Hp Ht]. by rewrite Hs, Hp, Ht.
Qed.

Lemma keeps_net_inv {A} (m : M World A) w :
  keeps_net m -> network_inv sha256 w -> network_inv sha256 (m w).2.
Proof. intros Hm. apply network_inv_net, Hm. Qed.

(** Storing a block under its hash, with any popularity counts added for
    it and for blocks that are counted already. *)
Lemma network_inv_store w w' c :
  network_inv sha256 w ->
  networkStorage w' = <[sha256 c := c]> (networkStorage w) ->
  (forall h, is_Some (blockPopularity w' !! h) ->
             h = sha256 c \/ is_Some (blockPopularity w !! h)) ->
  (forall h, is_Some (blockPopularity w !! h) -> is_Some (blockPopularity w' !! h)) ->
  top100Blocks w' = top100Blocks w ->
  network_inv sha256 w'.
Proof.
  intros (Hca & Hps & Htp) Hs Hp1 Hp2 Ht. unfold network_inv.
  rewrite Hs, Ht. split; [|split].
  - intros h b Hb. apply lookup_insert_Some in Hb as [[<- <-] | [_ Hb]]; [done|].
    by apply Hca.
  - intros h Hh. apply lookup_insert_is_Some'.
    destruct (Hp1 h Hh) as [->|Hold]; [by left|]. right. by apply Hps.
  - intros h Hh. by apply Hp2, Htp.
Qed.

Lemma bump_is_Some h k p :
  is_Some (bump h p !! k) <-> k = h \/ is_Some (p !! k).
Proof.
  unfold bump. rewrite lookup_insert_is_Some'. split; intros [?|?]; auto.
Qed.

(** *** The operations keep the network consistent, also when they end
    in a panic *)

Lemma updateTop100_inv w :
  network_inv sha256 w ->
  network_inv sha256 (updateTop100 pop_range sort_Slice w).2.
Proof.
  intros (Hca & Hps & Htp). unfold updateTop100, network_inv.
  cbn [snd networkStorage blockPopularity top100Blocks with_range_seed with_top100].
  split; [exact Hca|]. split; [exact Hps|].
  intros h Hh. apply list_elem_of_fmap in Hh as ([h' p] & -> & Hin).
  apply elem_of_take in Hin as (i & Hin & _).
  apply list_elem_of_lookup_2 in Hin.
  rewrite sort_Slice_perm, pop_range_perm in Hin.
  apply elem_of_map_to_list in Hin. cbn. by exists p.
Qed.

Lemma populate_loop_inv base n w :
  network_inv sha256 w ->
  network_inv sha256 (populate_loop sha256 base n w).2.
Proof.
  revert w. induction n as [|n IH]; intros w Hinv; [exact Hinv|].
  cbn [populate_loop]. unfold bind at 1. unfold random_block at 1.
  unfold bind at 1. unfold modify at 1. unfold bind at 1.
  set (block := take BlockLen (entropy w) ++ _).
  set (w1 := with_storage _ _).
  assert (Hinv1 : network_inv sha256 w1).
  { apply (network_inv_store w w1 block Hinv); try done. by right. }
  pose proof (keeps_net_randInt 100 w1) as Hnet.
  destruct (randInt 100 w1) as [[r| | |] w2] eqn:Hr; cbn [snd] in Hnet |- *;
    try by apply (network_inv_net w1 w2).
  unfold bind at 1. unfold modify at 1. apply IH.
  assert (Hinv2 : network_inv sha256 w2) by (by apply (network_inv_net w1 w2)).
  injection Hnet as Hs2 Hp2 Ht2.
  destruct Hinv2 as (Hca & Hps & Htp). unfold network_inv.
  cbn [networkStorage blockPopularity top100Blocks with_popularity].
  split; [exact Hca|]. split.
  - intros h Hh. apply lookup_insert_is_Some' in Hh as [<-|Hh]; [|by apply Hps].
    rewrite Hs2. subst w1. cbn [networkStorage with_storage].
    unfold hash. rewrite lookup_insert_eq. by eexists.
  - intros h Hh. apply lookup_insert_is_Some'. right. by apply Htp.
Qed.

Lemma populateInitialNetwork_inv base numBlocks w :
  network_inv sha256 w ->
  network_inv sha256 (populateInitialNetwork sha256 pop_range sort_Slice base numBlocks w).2.
Proof.
  intros Hinv. unfold populateInitialNetwork, bind.
  pose proof (populate_loop_inv base (Z.to_nat numBlocks) w Hinv) as H1.
  destruct (populate_loop sha256 base (Z.to_nat numBlocks) w) as [[[]| | |] w1];
    cbn [snd] in *; try exact H1.
  by apply updateTop100_inv.
Qed.

Lemma store_encrypted_inv i e w :
  network_inv sha256 w ->
  network_inv sha256 (Library.store_encrypted sha256 i e w).2.
Proof.
  intros Hinv. unfold Library.store_encrypted, hash. unfold bind at 1. unfold get at 1.
  destruct (networkStorage w !! sha256 e); [exact Hinv|]. unfold bind at 1.
  pose proof (keeps_net_selectPopularBlocks w) as Hnet.
  destruct (Library.selectPopularBlocks w) as [[[t r]| | |] w1] eqn:Hsel;
    cbn [snd] in Hnet |- *; try by apply (network_inv_net w w1).
  apply selectPopularBlocks_returned in Hsel as (Ht & Hr & ent & ->).
  unfold bind, get, modify, ret. cbn [fst snd].
  set (c := xor e _).
  destruct Hinv as (Hca & Hps & Htp).
  apply (network_inv_store w _ c (conj Hca (conj Hps Htp))); try done.
  - cbn [blockPopularity with_popularity with_storage with_entropy].
    intros h Hh. apply bump_is_Some in Hh as [->|Hh]; [right; by apply Htp|].
    apply bump_is_Some in Hh as [->|Hh]; [right; by apply Htp|].
    apply lookup_insert_is_Some' in Hh as [<-|Hh]; auto.
  - cbn [blockPopularity with_popularity with_storage with_entropy].
    intros h Hh. apply bump_is_Some. right. apply bump_is_Some. right.
    apply lookup_insert_is_Some'. by right.
Qed.

Lemma store_loop_inv blocks i descriptors n w :
  network_inv sha256 w ->
  network_inv sha256 (Library.store_loop sha256 i blocks descriptors n w).2.
Proof.
  revert i descriptors n w.
  induction blocks as [|e blocks IH]; intros i descriptors n w Hinv; [exact Hinv|].
  cbn [Library.store_loop]. unfold bind.
  pose proof (store_encrypted_inv i e w Hinv) as H1.
  destruct (Library.store_encrypted sha256 i e w) as [[st| | |] w1]; cbn [snd] in *;
    try exact H1.
  by apply IH.
Qed.

Lemma StoreFile_inv fileName fileData password w :
  network_inv sha256 w ->
  network_inv sha256 (Library.StoreFile sha256 fileName fileData password w).2.
Proof.
  intros Hinv. unfold Library.StoreFile. unfold bind at 1. unfold get at 1.
  destruct (manifestRegistry w !! sha256 fileData) as [p|].
  - destruct (manifests w !! p); [|exact Hinv]. exact Hinv.
  - unfold bind at 1.
    match goal with
    | |- context [Library.store_loop sha256 0 ?es [] 0 w] =>
        pose proof (store_loop_inv es 0 [] 0 w Hinv) as H1;
          destruct (Library.store_loop sha256 0 es [] 0 w) as [[st| | |] w1]
    end; cbn [snd] in *; exact H1.
Qed.

Lemma Store_inv block w :
  network_inv sha256 w ->
  network_inv sha256 (Privacy.Store sha256 geometric block w).2.
Proof.
  intros Hinv. unfold Privacy.Store. unfold bind at 1. unfold get at 1.
  destruct (len (top100Blocks w) <? 2); [exact Hinv|].
  unfold bind at 1.
  pose proof (keeps_net_selectBlockWithDP block "target" w) as Hnet1.
  destruct (Privacy.selectBlockWithDP sha256 geometric block "target" w)
    as [[t| | |] w1] eqn:Hsel1; cbn [snd] in Hnet1 |- *;
    try by apply (network_inv_net w w1).
  unfold bind at 1.
  pose proof (keeps_net_selectBlockWithDP block "randomizer" w1) as Hnet2.
  destruct (Privacy.selectBlockWithDP sha256 geometric block "randomizer" w1)
    as [[r| | |] w2] eqn:Hsel2; cbn [snd] in Hnet2 |- *;
    try (apply (network_inv_net w w2); [congruence | exact Hinv]).
  assert (Ht : t ∈ top100Blocks w).
  { revert Hsel1. unfold Privacy.selectBlockWithDP, bind, get, panic,
      Privacy.next_geometric, randInt, lift.
    destruct (_ =? _); [done|]. cbn [entropy with_draws].
    destruct (entropy w); [done|]. change (2 =? 0) with false. cbv iota.
    destruct (index_hash _ _) as [h| | |] eqn:Hh; try done.
    intros [= <- _]. by eapply index_hash_elem. }
  assert (Hr : r ∈ top100Blocks w).
  { injection Hnet1 as _ _ <-.
    revert Hsel2. unfold Privacy.selectBlockWithDP, bind, get, panic,
      Privacy.next_geometric, randInt, lift.
    destruct (_ =? _); [done|]. cbn [entropy with_draws].
    destruct (entropy w1); [done|]. change (2 =? 0) with false. cbv iota.
    destruct (index_hash _ _) as [h| | |] eqn:Hh; try done.
    intros [= <- _]. by eapply index_hash_elem. }
  assert (Hinv2 : network_inv sha256 w2).
  { apply (network_inv_net w w2); [congruence | exact Hinv]. }
  assert (Ht2 : top100Blocks w2 = top100Blocks w).
  { injection Hnet1 as _ _ H1. injection Hnet2 as _ _ H2. congruence. }
  unfold bind, get, modify, ret. cbn [snd].
  set (c := xor block _).
  destruct Hinv2 as (Hca & Hps & Htp). rewrite <- Ht2 in Ht, Hr.
  apply (network_inv_store w2 _ c (conj Hca (conj Hps Htp))); try done.
  - cbn [blockPopularity with_popularity with_storage].
    intros h Hh. apply bump_is_Some in Hh as [->|Hh]; [right; by apply Htp|].
    apply bump_is_Some in Hh as [->|Hh]; [right; by apply Htp|].
    apply bump_is_Some in Hh as [->|Hh]; auto.
  - cbn [blockPopularity with_popularity with_storage].
    intros h Hh. apply bump_is_Some. right. apply bump_is_Some. right.
    apply bump_is_Some. by right.
Qed.

Lemma void_snd {A} (r : outcome A * World) : (void r).2 = r.2.
Proof. reflexivity. Qed.

Lemma library_step_inv op w :
  network_inv sha256 w ->
  network_inv sha256 (library_step sha256 pop_range sort_Slice op w).2.
Proof.
  intros Hinv. destruct op; cbn [library_step]; rewrite ?void_snd.
  - by apply StoreFile_inv.
  - by apply keeps_net_inv; [apply keeps_net_RetrieveFile|].
  - by apply populateInitialNetwork_inv.
  - by apply updateTop100_inv.
Qed.

Lemma privacy_step_inv op w :
  network_inv sha256 w ->
  network_inv sha256 (privacy_step sha256 pop_range sort_Slice geometric op w).2.
Proof.
  intros Hinv. destruct op; cbn [privacy_step]; rewrite ?void_snd.
  - by apply Store_inv.
  - by apply populateInitialNetwork_inv.
  - by apply updateTop100_inv.
Qed.

Lemma run_inv {Op} (step : Op -> World -> outcome unit * World) ops w :
  (forall op w, network_inv sha256 w -> network_inv sha256 (step op w).2) ->
  network_inv sha256 w -> network_inv sha256 (run step ops w).
Proof.
  intros Hstep. revert w. induction ops as [|op ops IH]; intros w Hw; simpl; [exact Hw|].
  specialize (Hstep op w Hw).
  destruct (step op w) as [[[]| | |] w']; simpl in *; auto.
Qed.

Lemma initial_inv ent now : network_inv sha256 (initial ent now).
Proof.
  unfold initial, network_inv. cbn [networkStorage blockPopularity top100Blocks].
  split; [|split].
  - intros h b Hb. by rewrite lookup_empty in Hb.
  - intros h [? Hh]. by rewrite lookup_empty in Hh.
  - intros h Hh. by apply elem_of_nil in Hh.
Qed.

End NetTheory.

Section NetClaims.
Import Models PoolSpec NetSpec.

(** X17. The simulated network stays consistent.  After every program of
    either research model, started in the empty network and also when it
    ends in a panic, every stored block sits under its own hash, every
    block with a popularity count is stored, and every pool entry has a
    popularity count; so the target and randomizer blocks a store looks
    up are always there. *)
Theorem network_stays_consistent
    (sha256 : list Z -> list Z)
    (pop_range : nat -> gmap (list Z) Z -> list (list Z * Z))
    (sort_Slice : list (list Z * Z) -> list (list Z * Z))
    (geometric : nat -> Z) :
  (forall n m, pop_range n m ≡ₚ map_to_list m) ->
  (forall l, sort_Slice l ≡ₚ l) ->
  (forall ops ent now,
     let w := run (library_step sha256 pop_range sort_Slice) ops (initial ent now) in
     network_inv sha256 w
     /\ forall t, t ∈ top100Blocks w ->
          exists block, networkStorage w !! t = Some block /\ sha256 block = t)
  /\ (forall ops ent now,
     let w := run (privacy_step sha256 pop_range sort_Slice geometric) ops
                (initial ent now) in
     network_inv sha256 w
     /\ forall t, t ∈ top100Blocks w ->
          exists block, networkStorage w !! t = Some block /\ sha256 block = t).
Proof.
  intros Hrange Hsort.
  assert (Hpool : forall w, network_inv sha256 w ->
            forall t, t ∈ top100Blocks w ->
              exists block, networkStorage w !! t = Some block /\ sha256 block = t).
  { intros w (Hca & Hps & Htp) t Ht.
    destruct (Hps t (Htp t Ht)) as [block Hb]. exists block. split; [done|].
    by apply Hca. }
  split; intros ops ent now w.
  - assert (Hinv : network_inv sha256 w).
    { apply run_inv; [|apply initial_inv].
      intros op w0. by apply library_step_inv. }
    split; [exact Hinv | by apply Hpool].
  - assert (Hinv : network_inv sha256 w).
    { apply run_inv; [|apply initial_inv].
      intros op w0. by apply privacy_step_inv. }
    split; [exact Hinv | by apply Hpool].
Qed.

Lemma network_stays_consistent_witness :
  let ops := [LPopulate 3; LStoreFile "hello.txt" Demo.hello "secret"; LUpdateTop100] in
  let w := run (library_step Demo.sha256 Demo.range_rev Demo.sort_Slice) ops
             (initial (repeat 7 4500) 0) in
  (forall n (m : gmap (list Z) Z), Demo.range_rev n m ≡ₚ map_to_list m)
  /\ (forall l, Demo.sort_Slice l ≡ₚ l)
  /\ network_inv Demo.sha256 w.
Proof.
  intros ops w.
  assert (H1 : forall n (m : gmap (list Z) Z), Demo.range_rev n m ≡ₚ map_to_list m).
  { intros n m. apply reverse_Permutation. }
  assert (H2 : forall l, Demo.sort_Slice l ≡ₚ l).
  { intros l. apply merge_sort_Permutation. }
  split; [exact H1|]. split; [exact H2|].
  exact (proj1 (proj1 (network_stays_consistent Demo.sha256 Demo.range_rev
                         Demo.sort_Slice Demo.geometric_zero H1 H2)
                  ops (repeat 7 4500) 0)).
Defined.

End NetClaims.
